(** * open-review: progress streaming and phase inference

    A shallow embedding of the review orchestrator
    ([backend/src/agents/orchestrator.ts]), of the review routes
    ([backend/src/routes/reviews.ts]), of the metadata store
    ([backend/src/services/storage.ts]) and of the phase reducer of the
    progress panel ([frontend/src/components/ProgressPanel.tsx]), followed
    by the properties of the specification that are stated over them.

    Conventions of the embedding.
    - Mutable locals of [runReview] become the fields of [State]; every
      helper closure is a function [State -> State].
    - [emit] appends to the field [emitted], the sequence of [onProgress]
      calls made so far (oldest first).
    - Token counts and the running cost estimate are JavaScript numbers:
      binary64, with its addition, multiplication and division. Explorer
      counts and milliseconds are integers. Numbers that the orchestrator
      only copies from the engine's final message are kept as rationals.
    - The percentage of the exploring band is computed on the exact
      quotient; [percent64] is the same expression in binary64, and the
      two are equal for no more completions than delegations and up to
      200 delegations ([percent64_exact]). Outside that range they can
      differ ([percent64_tie]).
    - The wall clock is an input. The gate of each of the two throttles,
      the time it stores and the timestamp of its event are three reads
      ([Reads]); [consume_at] and [runReview_at] run the loop with these
      reads given for every content block. Where no property depends on
      them, the loop is run with one instant [t] per iteration, paired
      with the engine step ([consume], [runReview]), which is the same
      loop on a clock that stands still inside every iteration
      ([runReview_at_still]). Timestamps are kept as milliseconds rather
      than ISO strings.
    - JavaScript truthiness of a string is non-emptiness; [undefined] and
      [null] are [None]. *)

From Stdlib Require Import ZArith QArith Qround Floats.
From stdpp Require Import base gmap strings list pretty.

Local Open Scope Z_scope.
Local Open Scope string_scope.
Local Open Scope list_scope.

(** ** Shared types ([shared/src/types.ts]) *)

Inductive ReviewStatus := StPending | StRunning | StCompleted | StError.

Inductive ReviewPhase := Understanding | Exploring | Analyzing | Synthesizing.

#[global] Instance ReviewStatus_eq_dec : EqDecision ReviewStatus.
Proof. solve_decision. Defined.

#[global] Instance ReviewPhase_eq_dec : EqDecision ReviewPhase.
Proof. solve_decision. Defined.

(** The four counters are JavaScript numbers, that is, binary64. *)
Record TokenUsage := mkTokenUsage {
  inputTokens : float;
  outputTokens : float;
  cacheReadTokens : float;
  cacheCreationTokens : float
}.

Record SubagentUsage := mkSubagentUsage {
  su_agentType : string;
  su_description : string;
  su_usage : TokenUsage;
  su_model : string
}.

Inductive SubagentStatus := Started | Finished.

(** [ProgressEvent]: the six variants, each with its timestamp first. The
    status of [complete] is one of the two terminal values of
    [ReviewStatus]. *)
Inductive ProgressEvent :=
| EvPhase (timestamp : Z) (phase : ReviewPhase) (message : string)
| EvSubagent (timestamp : Z) (agentType description : string)
    (status : SubagentStatus)
| EvActivity (timestamp : Z) (agentType tool detail : string)
| EvProgress (timestamp : Z) (percent : Z) (message : string)
| EvUsage (timestamp : Z) (session : TokenUsage)
    (subagents : list SubagentUsage) (costUsd : float)
| EvComplete (timestamp : Z) (status : ReviewStatus)
    (message : option string).

(** Values a [catch] clause can receive: an [Error] instance with its
    message, or anything else. *)
Inductive Thrown :=
| ThrownError (message : string)
| ThrownOther.

(** A call that returns or throws. *)
Inductive Result (A : Type) :=
| Ok (a : A)
| Throw (e : Thrown).
Arguments Ok {A} a.
Arguments Throw {A} e.

(** [error instanceof Error ? error.message : "Unknown error"] *)
Definition failure_message (e : Thrown) : string :=
  match e with
  | ThrownError m => m
  | ThrownOther => "Unknown error"
  end.

(** Truthiness of a string and of an optional string. *)
Definition truthy (s : string) : bool :=
  match s with
  | EmptyString => false
  | String _ _ => true
  end.

Definition truthy_opt (o : option string) : bool :=
  match o with
  | Some s => truthy s
  | None => false
  end.

(** The double-quote character as a one-character string. *)
Definition dquote : string := String (Ascii.ascii_of_nat 34) EmptyString.

(** An insertion-ordered [Map<string, V>]: [set] on a present key keeps
    the key's position, on a fresh key appends. *)
Section OrderedMap.
Context {V : Type}.

Fixpoint omap_get (k : string) (l : list (string * V)) : option V :=
  match l with
  | [] => None
  | (k', v) :: r => if decide (k = k') then Some v else omap_get k r
  end.

Fixpoint omap_set (k : string) (v : V) (l : list (string * V))
  : list (string * V) :=
  match l with
  | [] => [(k, v)]
  | (k', v') :: r =>
      if decide (k = k') then (k, v) :: r else (k', v') :: omap_set k v r
  end.
End OrderedMap.

(** ** JavaScript numbers *)

Module Binary64.

(** The binary64 number of an integer: the nearest one, a tie going to
    the even mantissa. This is the value of an integer literal and of an
    integer read from JSON. *)
Definition round_Z (z : Z) : spec_float :=
  binary_normalize prec emax z 0 false.

Definition of_Z (z : Z) : float := SF2Prim (round_Z z).

(** The integer a finite binary64 number stands for when it is one (its
    floor otherwise, and [0] for what is not finite). *)
Definition to_Z (x : float) : Z :=
  match Prim2SF x with
  | S754_finite s m e => cond_Zopp s (Z.shiftl (Zpos m) e)
  | _ => 0
  end.

(** A count: a non-negative integer below [2^53], the range in which
    every integer is a binary64 number. *)
Definition count (x : float) : Prop :=
  x = of_Z (to_Z x) /\ 0 <= to_Z x < 2 ^ 53.

(** The rational a finite binary64 number stands for. *)
Definition value (x : float) : option Q :=
  match Prim2SF x with
  | S754_zero _ => Some 0%Q
  | S754_finite s m e =>
      Some (inject_Z (cond_Zopp s (Zpos m)) * Qpower 2 e)%Q
  | _ => None
  end.

(** The exponent of the last mantissa bit of a binary64 number with [e]
    bits before the point. *)
Definition fexp64 (e : Z) : Z := Z.max (e - 53) (-1074).

(** The binary64 representation of the integer [p], taken negative when
    [s] is set, for [p] below [2^53]: the mantissa is [p] shifted to 53
    bits. *)
Definition normal (s : bool) (p : positive) : spec_float :=
  S754_finite s (Pos.shiftl p (Z.to_N (53 - Zpos (digits2_pos p))))
    (Zpos (digits2_pos p) - 53).

End Binary64.

(** ** The orchestrator ([backend/src/agents/orchestrator.ts]) *)

Module Orchestrator.

(** The usage object of an API message: four optional counts. *)
Record ApiUsage := mkApiUsage {
  input_tokens : option float;
  output_tokens : option float;
  cache_read_input_tokens : option float;
  cache_creation_input_tokens : option float
}.

Definition emptyTokenUsage : TokenUsage :=
  mkTokenUsage 0%float 0%float 0%float 0%float.

(** [addUsage(acc, apiUsage)]; the in-place update of [acc] is returned.
    Each [+=] is the binary64 addition, and [x ?? 0] is [default 0 x]. *)
Definition addUsage (acc : TokenUsage) (apiUsage : option ApiUsage)
  : TokenUsage :=
  match apiUsage with
  | None => acc
  | Some u =>
      {| inputTokens :=
           (inputTokens acc + default 0 (input_tokens u))%float;
         outputTokens :=
           (outputTokens acc + default 0 (output_tokens u))%float;
         cacheReadTokens :=
           (cacheReadTokens acc
            + default 0 (cache_read_input_tokens u))%float;
         cacheCreationTokens :=
           (cacheCreationTokens acc
            + default 0 (cache_creation_input_tokens u))%float |}
  end.

Record AgentConfig := mkAgentConfig {
  leadModel : string;
  explorerModel : string;
  seniorDevModel : string
}.

(** [x || "sonnet"] *)
Definition or_sonnet (x : string) : string :=
  if truthy x then x else "sonnet".

Record TaskInfo := mkTaskInfo {
  ti_agentType : string;
  ti_description : string
}.

Record SubagentEntry := mkSubagentEntry {
  se_agentType : string;
  se_description : string;
  se_model : string;
  se_usage : TokenUsage
}.

(** *** State of one run *)

(** Phase tracking state. *)
Record PhaseTracking := mkPhaseTracking {
  currentPhase : ReviewPhase;
  totalExplorers : nat;
  completedExplorers : nat;
  seniorDevStarted : bool;
  seniorDevCompleted : bool
}.

(** Token usage tracking and the time of the last usage emission. *)
Record UsageTracking := mkUsageTracking {
  sessionTokens : TokenUsage;
  leadAgentTokens : TokenUsage;
  subagentTokens : list (string * SubagentEntry);
  lastUsageEmitTime : Z
}.

(** What the final result message leaves behind. *)
Record ResultAcc := mkResultAcc {
  finalResult : string;
  totalCostUsd : Q;
  durationApiMs : Z;
  numTurns : Z
}.

Record State := mkState {
  phases : PhaseTracking;
  taskMap : gmap string TaskInfo;
  usages : UsageTracking;
  activityThrottle : gmap string Z;
  results : ResultAcc;
  emitted : list ProgressEvent
}.

Definition ACTIVITY_THROTTLE_MS : Z := 1000.
Definition USAGE_EMIT_INTERVAL_MS : Z := 5000.

Definition set_phases (p : PhaseTracking) (s : State) : State :=
  mkState p (taskMap s) (usages s) (activityThrottle s) (results s)
    (emitted s).

Definition set_taskMap (m : gmap string TaskInfo) (s : State) : State :=
  mkState (phases s) m (usages s) (activityThrottle s) (results s)
    (emitted s).

Definition set_usages (u : UsageTracking) (s : State) : State :=
  mkState (phases s) (taskMap s) u (activityThrottle s) (results s)
    (emitted s).

Definition set_activityThrottle (m : gmap string Z) (s : State) : State :=
  mkState (phases s) (taskMap s) (usages s) m (results s) (emitted s).

Definition set_results (r : ResultAcc) (s : State) : State :=
  mkState (phases s) (taskMap s) (usages s) (activityThrottle s) r
    (emitted s).

Definition set_currentPhase (ph : ReviewPhase) (p : PhaseTracking)
  : PhaseTracking :=
  mkPhaseTracking ph (totalExplorers p) (completedExplorers p)
    (seniorDevStarted p) (seniorDevCompleted p).

Definition incr_totalExplorers (p : PhaseTracking) : PhaseTracking :=
  mkPhaseTracking (currentPhase p) (S (totalExplorers p))
    (completedExplorers p) (seniorDevStarted p) (seniorDevCompleted p).

Definition incr_completedExplorers (p : PhaseTracking) : PhaseTracking :=
  mkPhaseTracking (currentPhase p) (totalExplorers p)
    (S (completedExplorers p)) (seniorDevStarted p) (seniorDevCompleted p).

Definition set_seniorDevStarted (b : bool) (p : PhaseTracking)
  : PhaseTracking :=
  mkPhaseTracking (currentPhase p) (totalExplorers p) (completedExplorers p)
    b (seniorDevCompleted p).

Definition set_seniorDevCompleted (b : bool) (p : PhaseTracking)
  : PhaseTracking :=
  mkPhaseTracking (currentPhase p) (totalExplorers p) (completedExplorers p)
    (seniorDevStarted p) b.

Definition set_lastUsageEmitTime (t : Z) (u : UsageTracking)
  : UsageTracking :=
  mkUsageTracking (sessionTokens u) (leadAgentTokens u) (subagentTokens u) t.

Definition initial_state : State :=
  {| phases := mkPhaseTracking Understanding 0 0 false false;
     taskMap := ∅;
     usages := mkUsageTracking emptyTokenUsage emptyTokenUsage [] 0;
     activityThrottle := ∅;
     results := mkResultAcc EmptyString 0%Q 0 0;
     emitted := [] |}.

(** *** Emit helpers *)

Definition emit (event : ProgressEvent) (s : State) : State :=
  mkState (phases s) (taskMap s) (usages s) (activityThrottle s) (results s)
    (emitted s ++ [event]).

Definition emitPhase (t : Z) (phase : ReviewPhase) (message : string)
    (s : State) : State :=
  emit (EvPhase t phase message)
    (set_phases (set_currentPhase phase (phases s)) s).

(** [Math.round] on an exact value: the nearest integer, a tie going
    up. *)
Definition js_round (x : Q) : Z := Qfloor (x + (1 # 2)).

Definition nat_to_Q (n : nat) : Q := inject_Z (Z.of_nat n).

(** The [switch] of [emitProgress]: percent and message of the phase.
    The quotient of the exploring band is taken exactly. *)
Definition progress_of (p : PhaseTracking) : Z * string :=
  match currentPhase p with
  | Understanding => (5, "Reading and understanding the PRD...")
  | Exploring =>
      ( (if decide (0 < totalExplorers p)%nat
         then js_round
                (10 + 50 * (nat_to_Q (completedExplorers p)
                            / nat_to_Q (totalExplorers p)))%Q
         else 15),
        (if decide (0 < totalExplorers p)%nat
         then "Exploring codebase (" +:+ pretty (completedExplorers p)
              +:+ "/" +:+ pretty (totalExplorers p) +:+ " complete)"
         else "Exploring codebase...") )
  | Analyzing =>
      ( (if seniorDevCompleted p then 85 else 70),
        (if seniorDevCompleted p
         then "Analysis complete, preparing final output..."
         else "Senior developer analyzing findings...") )
  | Synthesizing => (92, "Synthesizing final review...")
  end.

Definition emitProgress (t : Z) (s : State) : State :=
  emit (EvProgress t (fst (progress_of (phases s)))
          (snd (progress_of (phases s)))) s.

Definition usage_snapshot (u : UsageTracking) : list SubagentUsage :=
  map (fun kv => mkSubagentUsage (se_agentType kv.2) (se_description kv.2)
                   (se_usage kv.2) (se_model kv.2))
      (subagentTokens u).

(** Rough cost estimate: 3 per million input tokens, 15 per million
    output tokens; the two [+=] onto [0], in binary64. *)
Definition cost_estimate (session : TokenUsage) : float :=
  (0 + inputTokens session * 3 / 1000000
     + outputTokens session * 15 / 1000000)%float.

(** The three clock reads of one throttled emission, in the order in
    which the code makes them: [Date.now()] in the test of the gate,
    [Date.now()] for the time that is stored, and [now()] for the
    timestamp of the event. *)
Record Reads := mkReads {
  gate_read : Z;
  stamp_read : Z;
  event_read : Z
}.

(** The three reads when the clock does not advance between them. *)
Definition at_once (t : Z) : Reads := mkReads t t t.

Definition emitUsageIfDue_at (r : Reads) (s : State) : State :=
  if decide (gate_read r - lastUsageEmitTime (usages s)
             < USAGE_EMIT_INTERVAL_MS)
  then s
  else
    let s1 :=
      set_usages (set_lastUsageEmitTime (stamp_read r) (usages s)) s in
    emit (EvUsage (event_read r) (sessionTokens (usages s1))
            (usage_snapshot (usages s1))
            (cost_estimate (sessionTokens (usages s1)))) s1.

(** [emitUsageIfDue] within one instant. *)
Definition emitUsageIfDue (t : Z) (s : State) : State :=
  emitUsageIfDue_at (at_once t) s.

(** *** Engine messages *)

(** The input of a tool invocation, as far as the orchestrator reads it. *)
Record ToolInput := mkToolInput {
  subagent_type : option string;
  description : option string;
  file_path : option string;
  pattern : option string
}.

(** Content blocks of an assistant message. *)
Inductive Block :=
| BText (text : string)
| BToolUse (id : string) (name : string) (input : ToolInput)
| BOther.

(** Content blocks of a user message. *)
Inductive UserBlock :=
| UToolResult (tool_use_id : option string)
| UOther.

Inductive Message :=
| MSystemInit
| MAssistant (parent_tool_use_id : option string) (usage : option ApiUsage)
    (content : option (list Block))
| MUser (content : option (list UserBlock))
| MResultSuccess (result : option string) (total_cost_usd : option Q)
    (duration_api_ms num_turns : option Z)
| MResultFailure (subtype : string) (errors_json : string)
    (total_cost_usd : option Q)
| MOther.

(** One step of the engine's async generator: it yields a message or it
    throws. *)
Inductive EngineStep :=
| Yields (m : Message)
| Throws (e : Thrown).

(** *** The body of the [for await] loop *)

(** Accumulate token usage of an assistant message. *)
Definition accumulate_usage (parentToolUseId : option string)
    (usage : option ApiUsage) (u : UsageTracking) : UsageTracking :=
  match usage with
  | None => u
  | Some _ =>
      let session := addUsage (sessionTokens u) usage in
      match parentToolUseId with
      | None =>
          mkUsageTracking session (addUsage (leadAgentTokens u) usage)
            (subagentTokens u) (lastUsageEmitTime u)
      | Some p =>
          if truthy p then
            match omap_get p (subagentTokens u) with
            | Some subEntry =>
                mkUsageTracking session (leadAgentTokens u)
                  (omap_set p
                     (mkSubagentEntry (se_agentType subEntry)
                        (se_description subEntry) (se_model subEntry)
                        (addUsage (se_usage subEntry) usage))
                     (subagentTokens u))
                  (lastUsageEmitTime u)
            | None =>
                mkUsageTracking session (leadAgentTokens u)
                  (subagentTokens u) (lastUsageEmitTime u)
            end
          else
            mkUsageTracking session (leadAgentTokens u) (subagentTokens u)
              (lastUsageEmitTime u)
      end
  end.

(** Lead agent text output. *)
Definition lead_text (t : Z) (s : State) : State :=
  if seniorDevCompleted (phases s)
     && negb (bool_decide (currentPhase (phases s) = Synthesizing))
  then emitProgress t (emitPhase t Synthesizing "Synthesizing final review..." s)
  else s.

(** Phase detection on a Task invocation. *)
Definition detect_phase (t : Z) (agentType : string) (s : State) : State :=
  if decide (agentType = "codebase-explorer") then
    let s1 := set_phases (incr_totalExplorers (phases s)) s in
    if decide (currentPhase (phases s1) = Understanding) then
      emitPhase t Exploring
        ("Exploring codebase (0/" +:+ pretty (totalExplorers (phases s1))
         +:+ " sections)...") s1
    else s1
  else if decide (agentType = "senior-developer") then
    emitPhase t Analyzing "Senior developer analyzing findings..."
      (set_phases (set_seniorDevStarted true (phases s)) s)
  else s.

(** Task tool invocation: the lead launches a subagent. *)
Definition launch_task (cfg : AgentConfig) (t : Z) (toolUseId : string)
    (toolInput : ToolInput) (s : State) : State :=
  let agentType := default "unknown" (subagent_type toolInput) in
  let descr := default EmptyString (description toolInput) in
  let s1 := set_taskMap (<[toolUseId := mkTaskInfo agentType descr]> (taskMap s)) s in
  let s2 :=
    set_usages
      (mkUsageTracking (sessionTokens (usages s1)) (leadAgentTokens (usages s1))
         (omap_set toolUseId
            (mkSubagentEntry agentType descr
               (if decide (agentType = "codebase-explorer")
                then or_sonnet (explorerModel cfg)
                else or_sonnet (seniorDevModel cfg))
               emptyTokenUsage)
            (subagentTokens (usages s1)))
         (lastUsageEmitTime (usages s1)))
      s1 in
  let s3 := detect_phase t agentType s2 in
  emitProgress t (emit (EvSubagent t agentType descr Started) s3).

(** The one-line detail of an eligible tool invocation, empty otherwise. *)
Definition activity_detail (toolName : string) (toolInput : ToolInput)
  : string :=
  if bool_decide (toolName = "Read") && truthy_opt (file_path toolInput)
  then default EmptyString (file_path toolInput)
  else if bool_decide (toolName = "Grep") && truthy_opt (pattern toolInput)
  then "pattern: " +:+ dquote +:+ default EmptyString (pattern toolInput)
       +:+ dquote
  else if bool_decide (toolName = "Glob") && truthy_opt (pattern toolInput)
  then "pattern: " +:+ default EmptyString (pattern toolInput)
  else EmptyString.

(** Subagent tool usage: throttled activity events. The gate, the
    stored time and the timestamp of the event are three reads of the
    clock. *)
Definition subagent_tool_use_at (r : Reads) (parentToolUseId : string)
    (toolName : string) (toolInput : ToolInput) (s : State) : State :=
  let subInfo := taskMap s !! parentToolUseId in
  let agentKey := parentToolUseId in
  let lastEmit := default 0 (activityThrottle s !! agentKey) in
  if decide (gate_read r - lastEmit >= ACTIVITY_THROTTLE_MS) then
    let s1 :=
      set_activityThrottle
        (<[agentKey := stamp_read r]> (activityThrottle s)) s in
    let detail := activity_detail toolName toolInput in
    if truthy detail then
      emit (EvActivity (event_read r)
              (match subInfo with
               | Some i => ti_agentType i
               | None => "unknown"
               end)
              toolName detail) s1
    else s1
  else s.

(** The same within one instant. *)
Definition subagent_tool_use (t : Z) (parentToolUseId : string)
    (toolName : string) (toolInput : ToolInput) (s : State) : State :=
  subagent_tool_use_at (at_once t) parentToolUseId toolName toolInput s.

Definition process_block (cfg : AgentConfig) (t : Z)
    (parentToolUseId : option string) (s : State) (block : Block) : State :=
  match block with
  | BText text =>
      if truthy text && bool_decide (parentToolUseId = None)
      then lead_text t s
      else s
  | BToolUse id name toolInput =>
      let s1 :=
        if decide (name = "Task") then launch_task cfg t id toolInput s
        else s in
      match parentToolUseId with
      | Some p =>
          if truthy p then subagent_tool_use t p name toolInput s1 else s1
      | None => s1
      end
  | BOther => s
  end.

(** Task tool results: subagent completions. *)
Definition process_user_block (t : Z) (s : State) (block : UserBlock)
  : State :=
  match block with
  | UToolResult tool_use_id =>
      if truthy_opt tool_use_id then
        let toolUseId := default EmptyString tool_use_id in
        match taskMap s !! toolUseId with
        | Some subInfo =>
            let s1 :=
              if decide (ti_agentType subInfo = "codebase-explorer") then
                set_phases (incr_completedExplorers (phases s)) s
              else if decide (ti_agentType subInfo = "senior-developer") then
                set_phases (set_seniorDevCompleted true (phases s)) s
              else s in
            let s2 :=
              emitProgress t
                (emit (EvSubagent t (ti_agentType subInfo)
                         (ti_description subInfo) Finished) s1) in
            emitUsageIfDue t
              (set_usages (set_lastUsageEmitTime 0 (usages s2)) s2)
        | None => s
        end
      else s
  | UOther => s
  end.

(** [`Agent failed with subtype: ${subtype}. Errors: ${JSON.stringify(errors)}`] *)
Definition agent_failed (subtype errors_json : string) : Thrown :=
  ThrownError ("Agent failed with subtype: " +:+ subtype +:+ ". Errors: "
               +:+ errors_json).

(** One iteration of the loop; [Some e] when the iteration throws [e]. *)
Definition process_message (cfg : AgentConfig) (t : Z) (s : State)
    (message : Message) : State * option Thrown :=
  match message with
  | MSystemInit => (s, None)
  | MAssistant parentToolUseId usage content =>
      let s1 := set_usages (accumulate_usage parentToolUseId usage (usages s)) s in
      let s2 :=
        match content with
        | Some blocks => foldl (process_block cfg t parentToolUseId) s1 blocks
        | None => s1
        end in
      (emitUsageIfDue t s2, None)
  | MUser content =>
      (match content with
       | Some blocks => foldl (process_user_block t) s blocks
       | None => s
       end, None)
  | MResultSuccess result total_cost_usd duration_api_ms num_turns =>
      (set_results
         (mkResultAcc (default EmptyString result) (default 0%Q total_cost_usd)
            (default 0 duration_api_ms) (default 0 num_turns)) s,
       None)
  | MResultFailure subtype errors_json total_cost_usd =>
      (set_results
         (mkResultAcc (finalResult (results s)) (default 0%Q total_cost_usd)
            (durationApiMs (results s)) (numTurns (results s))) s,
       Some (agent_failed subtype errors_json))
  | MOther => (s, None)
  end.

(** The loop over the engine's stream, up to its end or the first throw;
    each step comes with the instant at which it is handled. *)
Fixpoint consume (cfg : AgentConfig) (s : State)
    (stream : list (Z * EngineStep)) : State * option (Z * Thrown) :=
  match stream with
  | [] => (s, None)
  | (t, Throws e) :: _ => (s, Some (t, e))
  | (t, Yields m) :: rest =>
      match process_message cfg t s m with
      | (s', Some e) => (s', Some (t, e))
      | (s', None) => consume cfg s' rest
      end
  end.

(** *** [runReview] *)

Record SessionUsage := mkSessionUsage {
  sess_totalCostUsd : Q;
  sess_totalTokens : TokenUsage;
  sess_subagentBreakdown : list SubagentUsage;
  sess_numTurns : Z;
  sess_durationMs : Z;
  sess_durationApiMs : Z
}.

Record OrchestratorResult := mkOrchestratorResult {
  output : string;
  costUsd : Q;
  durationMs : Z;
  usage : SessionUsage
}.

Inductive Outcome :=
| Returned (r : OrchestratorResult)
| Raised (e : Thrown).

(** State after the two emissions that precede the loop. *)
Definition start_state (t0 : Z) : State :=
  emitProgress t0
    (emitPhase t0 Understanding "Reading and understanding the PRD..."
       initial_state).

(** The [catch] clause: emit the error completion. *)
Definition fail_run (t : Z) (e : Thrown) (s : State) : State :=
  emit (EvComplete t StError (Some (failure_message e))) s.

(** After the loop: the 100% progress and the completion. *)
Definition finish_run (tend : Z) (s : State) : State :=
  emit (EvComplete tend StCompleted None)
    (emit (EvProgress tend 100 "Review complete!") s).

(** Session usage summary; the per-model breakdown, copied verbatim from
    the engine's final message, is left out. *)
Definition session_usage (cfg : AgentConfig) (t0 tend : Z) (s : State)
  : SessionUsage :=
  {| sess_totalCostUsd := totalCostUsd (results s);
     sess_totalTokens := sessionTokens (usages s);
     sess_subagentBreakdown :=
       mkSubagentUsage "lead-agent" "Tech Lead (orchestrator)"
         (leadAgentTokens (usages s)) (leadModel cfg)
       :: usage_snapshot (usages s);
     sess_numTurns := numTurns (results s);
     sess_durationMs := tend - t0;
     sess_durationApiMs := durationApiMs (results s) |}.

(** [runReview]: the events handed to [onProgress], in order, and how the
    call ends. [t0] is the start instant, [tend] the instant at which the
    stream is exhausted. *)
Definition runReview (cfg : AgentConfig) (t0 : Z)
    (stream : list (Z * EngineStep)) (tend : Z)
  : list ProgressEvent * Outcome :=
  match consume cfg (start_state t0) stream with
  | (s, Some (t, e)) => (emitted (fail_run t e s), Raised e)
  | (s, None) =>
      (emitted (finish_run tend s),
       Returned
         {| output := finalResult (results s);
            costUsd := totalCostUsd (results s);
            durationMs := tend - t0;
            usage := session_usage cfg t0 tend s |})
  end.

(** *** The loop with every read of the throttle clocks *)

(** The clock of one loop iteration. [instant] stamps the events that
    are emitted outside the two throttles. [reads k] are the three reads
    of the throttled emission made while the [k]-th content block of the
    message is handled; for an assistant message, the reads of the usage
    emission that ends the iteration come after those of its blocks, at
    index [length blocks]. *)
Record Tick := mkTick {
  instant : Z;
  reads : nat -> Reads
}.

(** An iteration during which the clock does not advance. *)
Definition still (t : Z) : Tick := mkTick t (fun _ => at_once t).

(** [for (const block of blocks)] with the position of the block. *)
Fixpoint foldl_at {B : Type} (f : nat -> State -> B -> State) (k : nat)
    (s : State) (blocks : list B) : State :=
  match blocks with
  | [] => s
  | b :: rest => foldl_at f (S k) (f k s b) rest
  end.

Definition process_block_at (cfg : AgentConfig) (c : Tick)
    (parentToolUseId : option string) (k : nat) (s : State) (block : Block)
  : State :=
  match block with
  | BText text =>
      if truthy text && bool_decide (parentToolUseId = None)
      then lead_text (instant c) s
      else s
  | BToolUse id name toolInput =>
      let s1 :=
        if decide (name = "Task")
        then launch_task cfg (instant c) id toolInput s
        else s in
      match parentToolUseId with
      | Some p =>
          if truthy p
          then subagent_tool_use_at (reads c k) p name toolInput s1
          else s1
      | None => s1
      end
  | BOther => s
  end.

Definition process_user_block_at (c : Tick) (k : nat) (s : State)
    (block : UserBlock) : State :=
  match block with
  | UToolResult tool_use_id =>
      if truthy_opt tool_use_id then
        let toolUseId := default EmptyString tool_use_id in
        match taskMap s !! toolUseId with
        | Some subInfo =>
            let s1 :=
              if decide (ti_agentType subInfo = "codebase-explorer") then
                set_phases (incr_completedExplorers (phases s)) s
              else if decide (ti_agentType subInfo = "senior-developer") then
                set_phases (set_seniorDevCompleted true (phases s)) s
              else s in
            let s2 :=
              emitProgress (instant c)
                (emit (EvSubagent (instant c) (ti_agentType subInfo)
                         (ti_description subInfo) Finished) s1) in
            emitUsageIfDue_at (reads c k)
              (set_usages (set_lastUsageEmitTime 0 (usages s2)) s2)
        | None => s
        end
      else s
  | UOther => s
  end.

Definition process_message_at (cfg : AgentConfig) (c : Tick) (s : State)
    (message : Message) : State * option Thrown :=
  match message with
  | MSystemInit => (s, None)
  | MAssistant parentToolUseId usage content =>
      let s1 := set_usages (accumulate_usage parentToolUseId usage (usages s)) s in
      let s2 :=
        match content with
        | Some blocks =>
            foldl_at (process_block_at cfg c parentToolUseId) 0 s1 blocks
        | None => s1
        end in
      (emitUsageIfDue_at (reads c (length (default [] content))) s2, None)
  | MUser content =>
      (match content with
       | Some blocks => foldl_at (process_user_block_at c) 0 s blocks
       | None => s
       end, None)
  | MResultSuccess result total_cost_usd duration_api_ms num_turns =>
      (set_results
         (mkResultAcc (default EmptyString result) (default 0%Q total_cost_usd)
            (default 0 duration_api_ms) (default 0 num_turns)) s,
       None)
  | MResultFailure subtype errors_json total_cost_usd =>
      (set_results
         (mkResultAcc (finalResult (results s)) (default 0%Q total_cost_usd)
            (durationApiMs (results s)) (numTurns (results s))) s,
       Some (agent_failed subtype errors_json))
  | MOther => (s, None)
  end.

Fixpoint consume_at (cfg : AgentConfig) (s : State)
    (stream : list (Tick * EngineStep)) : State * option (Z * Thrown) :=
  match stream with
  | [] => (s, None)
  | (c, Throws e) :: _ => (s, Some (instant c, e))
  | (c, Yields m) :: rest =>
      match process_message_at cfg c s m with
      | (s', Some e) => (s', Some (instant c, e))
      | (s', None) => consume_at cfg s' rest
      end
  end.

Definition runReview_at (cfg : AgentConfig) (t0 : Z)
    (stream : list (Tick * EngineStep)) (tend : Z)
  : list ProgressEvent * Outcome :=
  match consume_at cfg (start_state t0) stream with
  | (s, Some (t, e)) => (emitted (fail_run t e s), Raised e)
  | (s, None) =>
      (emitted (finish_run tend s),
       Returned
         {| output := finalResult (results s);
            costUsd := totalCostUsd (results s);
            durationMs := tend - t0;
            usage := session_usage cfg t0 tend s |})
  end.

(** A stream handled without the clock advancing inside an iteration. *)
Definition still_stream (stream : list (Z * EngineStep))
  : list (Tick * EngineStep) :=
  map (fun step => (still step.1, step.2)) stream.

End Orchestrator.

(** ** The metadata store ([backend/src/services/storage.ts]) *)

Module Storage.

Record SupplementarySource := mkSupplementarySource {
  supp_fileName : string;
  supp_originalName : string;
  supp_label : option string
}.

Record ReviewMeta := mkReviewMeta {
  id : string;
  fileName : string;
  originalName : string;
  repoPaths : list string;
  status : ReviewStatus;
  createdAt : Z;
  completedAt : option Z;
  error : option string;
  usage : option Orchestrator.SessionUsage;
  supplementaryFiles : option (list SupplementarySource);
  additionalContext : option string;
  webSearchEnabled : option bool
}.

(** The data directory: one [meta.json] and at most one [review.md] per
    review id. *)
Record Disk := mkDisk {
  metas : gmap string ReviewMeta;
  outputs : gmap string string
}.

Definition getReviewMeta (reviewId : string) (d : Disk) : option ReviewMeta :=
  metas d !! reviewId.

Definition not_found (reviewId : string) : Thrown :=
  ThrownError ("Review " +:+ reviewId +:+ " not found").

(** [updateReviewStatus(id, status, error?)] at instant [t]. *)
Definition updateReviewStatus (t : Z) (reviewId : string)
    (st : ReviewStatus) (err : option string) (d : Disk) : Result Disk :=
  match getReviewMeta reviewId d with
  | None => Throw (not_found reviewId)
  | Some meta =>
      let completedAt' :=
        if bool_decide (st = StCompleted) || bool_decide (st = StError)
        then Some t else completedAt meta in
      let error' := if truthy_opt err then err else error meta in
      Ok (mkDisk
            (<[reviewId :=
                 mkReviewMeta (id meta) (fileName meta) (originalName meta)
                   (repoPaths meta) st (createdAt meta) completedAt' error'
                   (usage meta) (supplementaryFiles meta)
                   (additionalContext meta) (webSearchEnabled meta)]>
               (metas d))
            (outputs d))
  end.

Definition saveReviewOutput (reviewId : string) (markdown : string)
    (d : Disk) : Disk :=
  mkDisk (metas d) (<[reviewId := markdown]> (outputs d)).

Definition saveReviewUsage (reviewId : string)
    (u : Orchestrator.SessionUsage) (d : Disk) : Result Disk :=
  match getReviewMeta reviewId d with
  | None => Throw (not_found reviewId)
  | Some meta =>
      Ok (mkDisk
            (<[reviewId :=
                 mkReviewMeta (id meta) (fileName meta) (originalName meta)
                   (repoPaths meta) (status meta) (createdAt meta)
                   (completedAt meta) (error meta) (Some u)
                   (supplementaryFiles meta) (additionalContext meta)
                   (webSearchEnabled meta)]>
               (metas d))
            (outputs d))
  end.

End Storage.

(** ** The review routes ([backend/src/routes/reviews.ts]) *)

Module Routes.

(** What [res.write] puts on an event stream. *)
Inductive Frame :=
| FData (event : ProgressEvent)
| FKeepalive.

(** An open event-stream response together with what its handler left
    registered: the [onProgress] listener is named by the connection
    number. *)
Record Connection := mkConnection {
  conn_reviewId : string;
  written : list Frame;
  currentEmitter : option nat;
  pollInterval : bool;
  keepalive : bool
}.

(** A background run started by [startReviewProcess]. *)
Record BackgroundRun := mkBackgroundRun {
  run_reviewId : string;
  run_emitter : nat;
  run_filePath : string;
  run_repoPaths : list string
}.

(** The process: the data directory, the module-level [reviewEmitters]
    map (emitters are named by creation number, which gives object
    identity), the [progress] listeners of every emitter in attachment
    order, the background runs started, and the open connections. *)
Record Server := mkServer {
  disk : Storage.Disk;
  reviewEmitters : gmap string nat;
  listeners : gmap nat (list nat);
  emitters_made : nat;
  background : list BackgroundRun;
  connections : gmap nat Connection;
  connections_made : nat
}.

Definition set_disk (d : Storage.Disk) (srv : Server) : Server :=
  mkServer d (reviewEmitters srv) (listeners srv) (emitters_made srv)
    (background srv) (connections srv) (connections_made srv).

Definition set_listeners (l : gmap nat (list nat)) (srv : Server) : Server :=
  mkServer (disk srv) (reviewEmitters srv) l (emitters_made srv)
    (background srv) (connections srv) (connections_made srv).

Definition set_connections (c : gmap nat Connection) (srv : Server)
  : Server :=
  mkServer (disk srv) (reviewEmitters srv) (listeners srv)
    (emitters_made srv) (background srv) c (connections_made srv).

(** *** [EventEmitter] *)

Definition listeners_of (em : nat) (srv : Server) : list nat :=
  default [] (listeners srv !! em).

(** [emitter.on("progress", listener)] *)
Definition on_progress (em listener : nat) (srv : Server) : Server :=
  set_listeners (<[em := listeners_of em srv ++ [listener]]> (listeners srv))
    srv.

(** Drop the most recently added instance of [x]. *)
Fixpoint remove_first (x : nat) (l : list nat) : list nat :=
  match l with
  | [] => []
  | y :: r => if decide (x = y) then r else y :: remove_first x r
  end.

Definition remove_last (x : nat) (l : list nat) : list nat :=
  rev (remove_first x (rev l)).

(** [emitter.removeListener("progress", listener)] *)
Definition removeListener (em listener : nat) (srv : Server) : Server :=
  set_listeners (<[em := remove_last listener (listeners_of em srv)]>
                   (listeners srv)) srv.

(** [emitter.removeAllListeners()] *)
Definition removeAllListeners (em : nat) (srv : Server) : Server :=
  set_listeners (<[em := []]> (listeners srv)) srv.

(** A write on the response of a connection; a closed one is skipped. *)
Definition write (cid : nat) (f : Frame) (srv : Server) : Server :=
  match connections srv !! cid with
  | Some c =>
      set_connections
        (<[cid := mkConnection (conn_reviewId c) (written c ++ [f])
                    (currentEmitter c) (pollInterval c) (keepalive c)]>
           (connections srv)) srv
  | None => srv
  end.

(** [emitter.emit("progress", event)]: every listener in attachment
    order. *)
Definition emit_progress (em : nat) (event : ProgressEvent) (srv : Server)
  : Server :=
  foldl (fun acc listener => write listener (FData event) acc) srv
    (listeners_of em srv).

(** *** [GET /api/reviews/:id/stream] *)

Inductive Body :=
| BodyError (message : string)
| BodyMeta (meta : option Storage.ReviewMeta)
| BodyStatus (reviewId : string) (st : ReviewStatus) (err : option string).

Inductive Response :=
| Json (code : Z) (body : Body)
| EventStream (frames : list Frame) (ended : bool).

Definition stream_route (t : Z) (reviewId : string) (srv : Server)
  : Response * Server :=
  match Storage.getReviewMeta reviewId (disk srv) with
  | None => (Json 404 (BodyError "Review not found"), srv)
  | Some meta =>
      if bool_decide (Storage.status meta = StCompleted)
         || bool_decide (Storage.status meta = StError)
      then
        (* already done: immediate complete event, then close *)
        let event :=
          EvComplete t (Storage.status meta)
            (if decide (Storage.status meta = StError)
             then Storage.error meta else None) in
        (EventStream [FData event] true, srv)
      else
        let emitter := reviewEmitters srv !! reviewId in
        let first :=
          match emitter with
          | None => [FData (EvPhase t Understanding "Waiting to start...")]
          | Some _ => []
          end in
        let cid := connections_made srv in
        let srv1 :=
          match emitter with
          | Some em => on_progress em cid srv
          | None => srv
          end in
        let c :=
          mkConnection reviewId first emitter
            (bool_decide (emitter = None)) true in
        (EventStream first false,
         mkServer (disk srv1) (reviewEmitters srv1) (listeners srv1)
           (emitters_made srv1) (background srv1)
           (<[cid := c]> (connections srv1)) (S cid))
  end.

(** The 500 ms poll of a connection that found no emitter. *)
Definition poll_tick (cid : nat) (srv : Server) : Server :=
  match connections srv !! cid with
  | Some c =>
      if pollInterval c then
        match reviewEmitters srv !! conn_reviewId c with
        | Some em =>
            set_connections
              (<[cid := mkConnection (conn_reviewId c) (written c)
                          (currentEmitter c) false (keepalive c)]>
                 (connections srv))
              (on_progress em cid srv)
        | None => srv
        end
      else srv
  | None => srv
  end.

(** The 10 s keepalive of a connection. *)
Definition keepalive_tick (cid : nat) (srv : Server) : Server :=
  match connections srv !! cid with
  | Some c => if keepalive c then write cid FKeepalive srv else srv
  | None => srv
  end.

(** [req.on("close")]: cleanup on client disconnect. *)
Definition on_close (cid : nat) (srv : Server) : Server :=
  match connections srv !! cid with
  | Some c =>
      let srv1 :=
        match currentEmitter c with
        | Some em => removeListener em cid srv
        | None => srv
        end in
      let srv2 :=
        match reviewEmitters srv1 !! conn_reviewId c with
        | Some later =>
            if decide (Some later = currentEmitter c) then srv1
            else removeListener later cid srv1
        | None => srv1
        end in
      set_connections (delete cid (connections srv2)) srv2
  | None => srv
  end.

(** *** [GET /api/reviews/:id/status] *)

Definition status_route (reviewId : string) (srv : Server) : Response :=
  match Storage.getReviewMeta reviewId (disk srv) with
  | None => Json 404 (BodyError "Review not found")
  | Some meta =>
      Json 200 (BodyStatus (Storage.id meta) (Storage.status meta)
                  (Storage.error meta))
  end.

(** *** Background review process *)

(** [uploadedFilePath(id, fileName)], relative to the uploads directory. *)
Definition uploadedFilePath (reviewId fileName : string) : string :=
  reviewId +:+ "_" +:+ fileName.

(** The synchronous part of [startReviewProcess]: a fresh emitter is
    registered under the review id and the async body is started. *)
Definition startReviewProcess (reviewId filePath : string)
    (paths : list string) (srv : Server) : Server :=
  let em := emitters_made srv in
  mkServer (disk srv) (<[reviewId := em]> (reviewEmitters srv))
    (<[em := []]> (listeners srv)) (S em)
    (background srv ++ [mkBackgroundRun reviewId em filePath paths])
    (connections srv) (connections_made srv).

(** What the async body meets outside the process: the outcome of parsing
    the uploaded document, the engine's steps, and the instants of its
    clock reads. Supplementary sources only shape the prompt given to the
    engine and are not modelled. *)
Record RunEnv := mkRunEnv {
  t_running : Z;
  prd : Result string;
  t_start : Z;
  engine : list (Z * Orchestrator.EngineStep);
  t_end : Z;
  t_settled : Z
}.

(** The [catch] clause of the async body; a failing status update is
    logged and dropped. *)
Definition record_failure (t : Z) (reviewId : string) (e : Thrown)
    (srv : Server) : Server :=
  match Storage.updateReviewStatus t reviewId StError
          (Some (failure_message e)) (disk srv) with
  | Ok d => set_disk d srv
  | Throw _ => srv
  end.

(** The async body of [startReviewProcess], run to its [finally]. *)
Definition review_process (cfg : Orchestrator.AgentConfig) (env : RunEnv)
    (run : BackgroundRun) (srv : Server) : Server :=
  let reviewId := run_reviewId run in
  match Storage.updateReviewStatus (t_running env) reviewId StRunning None
          (disk srv) with
  | Throw e => record_failure (t_settled env) reviewId e srv
  | Ok d1 =>
      let srv1 := set_disk d1 srv in
      match prd env with
      | Throw e => record_failure (t_settled env) reviewId e srv1
      | Ok prdContent =>
          let '(events, outcome) :=
            Orchestrator.runReview cfg (t_start env) (engine env)
              (t_end env) in
          let srv2 :=
            foldl (fun acc ev => emit_progress (run_emitter run) ev acc)
              srv1 events in
          match outcome with
          | Orchestrator.Raised e =>
              record_failure (t_settled env) reviewId e srv2
          | Orchestrator.Returned r =>
              let d2 :=
                Storage.saveReviewOutput reviewId (Orchestrator.output r)
                  (disk srv2) in
              match Storage.saveReviewUsage reviewId (Orchestrator.usage r)
                      d2 with
              | Throw e =>
                  record_failure (t_settled env) reviewId e
                    (set_disk d2 srv2)
              | Ok d3 =>
                  match Storage.updateReviewStatus (t_settled env) reviewId
                          StCompleted None d3 with
                  | Throw e =>
                      record_failure (t_settled env) reviewId e
                        (set_disk d3 srv2)
                  | Ok d4 => set_disk d4 srv2
                  end
              end
          end
      end
  end.

(** The timer armed in [finally], 3000 ms later. *)
Definition emitter_cleanup (run : BackgroundRun) (srv : Server) : Server :=
  removeAllListeners (run_emitter run)
    (mkServer (disk srv) (delete (run_reviewId run) (reviewEmitters srv))
       (listeners srv) (emitters_made srv) (background srv)
       (connections srv) (connections_made srv)).

(** *** [POST /api/reviews/:id/rerun] *)

Definition rerun_route (t : Z) (reviewId : string) (srv : Server)
  : Response * Server :=
  match Storage.getReviewMeta reviewId (disk srv) with
  | None => (Json 404 (BodyError "Review not found"), srv)
  | Some meta =>
      if decide (Storage.status meta = StRunning) then
        (Json 409 (BodyError "Review is already running"), srv)
      else
        match Storage.updateReviewStatus t (Storage.id meta) StPending None
                (disk srv) with
        | Throw _ => (Json 500 (BodyError "Failed to rerun review"), srv)
        | Ok d =>
            let filePath :=
              uploadedFilePath (Storage.id meta) (Storage.fileName meta) in
            let srv1 :=
              startReviewProcess (Storage.id meta) filePath
                (Storage.repoPaths meta) (set_disk d srv) in
            (Json 200
               (BodyMeta (Storage.getReviewMeta (Storage.id meta)
                            (disk srv1))),
             srv1)
        end
  end.

End Routes.

(** ** The progress panel ([frontend/src/components/ProgressPanel.tsx]) *)

Module ProgressPanel.

Inductive PhaseStatus := PhasePending | PhaseActive | PhaseCompleted.

Record PhaseInfo := mkPhaseInfo {
  key : ReviewPhase;
  label : string;
  status : PhaseStatus;
  message : option string
}.

Record SubagentInfo := mkSubagentInfo {
  sa_agentType : string;
  sa_description : string;
  sa_status : SubagentStatus
}.

Record ActivityEntry := mkActivityEntry {
  act_timestamp : Z;
  act_agentType : string;
  act_tool : string;
  act_detail : string
}.

Definition PHASE_ORDER : list ReviewPhase :=
  [Understanding; Exploring; Analyzing; Synthesizing].

Definition PHASE_LABELS (p : ReviewPhase) : string :=
  match p with
  | Understanding => "Understanding PRD"
  | Exploring => "Exploring codebase"
  | Analyzing => "Senior developer analysis"
  | Synthesizing => "Synthesizing final review"
  end.

(** [Array.prototype.indexOf], searching from position [i]. *)
Fixpoint indexOf_from (i : Z) (x : ReviewPhase) (l : list ReviewPhase) : Z :=
  match l with
  | [] => -1
  | y :: r => if decide (x = y) then i else indexOf_from (i + 1) x r
  end.

Definition indexOf (l : list ReviewPhase) (x : ReviewPhase) : Z :=
  indexOf_from 0 x l.

(** The component's state, with the pending [setTimeout] of [onComplete]
    as a flag. *)
Record Panel := mkPanel {
  phases : list PhaseInfo;
  percent : Z;
  progressMessage : string;
  subagents : list SubagentInfo;
  activities : list ActivityEntry;
  sessionTokens : option TokenUsage;
  subagentUsages : list SubagentUsage;
  costUsd : float;
  completion_timer : bool
}.

Definition initial_panel : Panel :=
  {| phases :=
       map (fun k =>
              mkPhaseInfo k (PHASE_LABELS k)
                (if decide (k = Understanding) then PhaseActive
                 else PhasePending) None)
           PHASE_ORDER;
     percent := 0;
     progressMessage := "Starting...";
     subagents := [];
     activities := [];
     sessionTokens := None;
     subagentUsages := [];
     costUsd := 0%float;
     completion_timer := false |}.

(** The updater of the [phase] case. *)
Definition mark_phase (phase : ReviewPhase) (msg : string)
    (prev : list PhaseInfo) : list PhaseInfo :=
  map (fun p =>
         if decide (key p = phase)
         then mkPhaseInfo (key p) (label p) PhaseActive (Some msg)
         else
           let phaseIdx := indexOf PHASE_ORDER phase in
           let pIdx := indexOf PHASE_ORDER (key p) in
           if decide (pIdx < phaseIdx)
           then mkPhaseInfo (key p) (label p) PhaseCompleted (message p)
           else p)
      prev.

(** The updater of the [subagent] case. *)
Definition upsert_subagent (agentType descr : string) (st : SubagentStatus)
    (prev : list SubagentInfo) : list SubagentInfo :=
  let same s :=
    bool_decide (sa_agentType s = agentType)
    && bool_decide (sa_description s = descr) in
  if existsb same prev
  then map (fun s =>
              if same s
              then mkSubagentInfo (sa_agentType s) (sa_description s) st
              else s) prev
  else prev ++ [mkSubagentInfo agentType descr st].

(** The updater of the [activity] case: keep the last 50 entries. *)
Definition push_activity (e : ActivityEntry) (prev : list ActivityEntry)
  : list ActivityEntry :=
  let next := prev ++ [e] in
  if decide (50 < length next)%nat then drop (length next - 50)%nat next
  else next.

Definition handleEvent (event : ProgressEvent) (p : Panel) : Panel :=
  match event with
  | EvPhase _ phase msg =>
      mkPanel (mark_phase phase msg (phases p)) (percent p)
        (progressMessage p) (subagents p) (activities p) (sessionTokens p)
        (subagentUsages p) (costUsd p) (completion_timer p)
  | EvSubagent _ agentType descr st =>
      mkPanel (phases p) (percent p) (progressMessage p)
        (upsert_subagent agentType descr st (subagents p)) (activities p)
        (sessionTokens p) (subagentUsages p) (costUsd p)
        (completion_timer p)
  | EvActivity ts agentType tool detail =>
      mkPanel (phases p) (percent p) (progressMessage p) (subagents p)
        (push_activity (mkActivityEntry ts agentType tool detail)
           (activities p))
        (sessionTokens p) (subagentUsages p) (costUsd p)
        (completion_timer p)
  | EvProgress _ pc msg =>
      mkPanel (phases p) pc msg (subagents p) (activities p)
        (sessionTokens p) (subagentUsages p) (costUsd p)
        (completion_timer p)
  | EvUsage _ session subs cost =>
      mkPanel (phases p) (percent p) (progressMessage p) (subagents p)
        (activities p) (Some session) subs cost (completion_timer p)
  | EvComplete _ st _ =>
      if decide (st = StCompleted)
      then
        mkPanel
          (map (fun q => mkPhaseInfo (key q) (label q) PhaseCompleted
                           (message q)) (phases p))
          100 "Review complete!" (subagents p) (activities p)
          (sessionTokens p) (subagentUsages p) (costUsd p) true
      else
        mkPanel (phases p) (percent p) (progressMessage p) (subagents p)
          (activities p) (sessionTokens p) (subagentUsages p) (costUsd p)
          true
  end.

End ProgressPanel.

(** ** Observations on runs *)

Module Observe.
Import Orchestrator.

(** The fixed order of the phases. *)
Definition phase_rank (p : ReviewPhase) : nat :=
  match p with
  | Understanding => 0
  | Exploring => 1
  | Analyzing => 2
  | Synthesizing => 3
  end.

(** The phases carried by the [phase] events of a log, in order. *)
Definition phase_events (log : list ProgressEvent) : list ReviewPhase :=
  omap (fun ev => match ev with EvPhase _ p _ => Some p | _ => None end) log.

(** The percents carried by the [progress] events of a log, in order. *)
Definition progress_percents (log : list ProgressEvent) : list Z :=
  omap (fun ev => match ev with EvProgress _ p _ => Some p | _ => None end)
    log.

(** The timestamps of the [activity] events of a log, in order. *)
Definition activity_stamps (log : list ProgressEvent) : list Z :=
  omap (fun ev => match ev with EvActivity t _ _ _ => Some t | _ => None end)
    log.

(** A sequence of phases that never steps back in the fixed order. *)
Definition never_decreases (l : list ReviewPhase) : Prop :=
  forall i j p q, (i <= j)%nat -> l !! i = Some p -> l !! j = Some q ->
    (phase_rank p <= phase_rank q)%nat.

(** What a step appended to the log. *)
Definition new_events (s s' : State) : list ProgressEvent :=
  drop (length (emitted s)) (emitted s').

(** [p] is [x] rounded to the nearest integer, a tie going up. *)
Definition rounds_to (x : Q) (p : Z) : Prop :=
  (inject_Z p - (1 # 2) <= x)%Q /\ (x < inject_Z p + (1 # 2))%Q.


(** All states a fold passes through, one per element. *)
Fixpoint scan {A B : Type} (f : A -> B -> A) (a : A) (l : list B) : list A :=
  match l with
  | [] => []
  | b :: r => f a b :: scan f (f a b) r
  end.

(** The states of one loop iteration: after the usage accumulation, after
    every content block, and at the end of the iteration. *)
Definition message_states (cfg : AgentConfig) (t : Z) (s : State)
    (m : Message) : list State :=
  match m with
  | MAssistant parent usage content =>
      let s1 := set_usages (accumulate_usage parent usage (usages s)) s in
      s1 :: scan (process_block cfg t parent) s1 (default [] content)
      ++ [(process_message cfg t s m).1]
  | MUser content =>
      scan (process_user_block t) s (default [] content)
      ++ [(process_message cfg t s m).1]
  | _ => [(process_message cfg t s m).1]
  end.

(** Every state the loop passes through on a stream, in order. *)
Fixpoint history (cfg : AgentConfig) (s : State)
    (stream : list (Z * EngineStep)) : list State :=
  match stream with
  | [] => []
  | (t, Throws e) :: _ => []
  | (t, Yields m) :: rest =>
      message_states cfg t s m
      ++ match process_message cfg t s m with
         | (s', Some _) => []
         | (s', None) => history cfg s' rest
         end
  end.

(** The ids named by the [tool_result] blocks of a message, in order. *)
Definition result_ids_of (m : Message) : list string :=
  match m with
  | MUser (Some blocks) =>
      omap (fun b => match b with
                     | UToolResult (Some i) => if truthy i then Some i else None
                     | _ => None
                     end) blocks
  | _ => []
  end.

Definition result_ids (stream : list (Z * EngineStep)) : list string :=
  concat (map (fun step => match step.2 with
                           | Yields m => result_ids_of m
                           | Throws _ => []
                           end) stream).

(** The failure that ends the loop on a stream, if any: the first step
    that throws or yields a non-success result, with its instant. *)
Fixpoint engine_failure (stream : list (Z * EngineStep))
  : option (Z * Thrown) :=
  match stream with
  | [] => None
  | (t, Throws e) :: _ => Some (t, e)
  | (t, Yields (MResultFailure subtype errors_json _)) :: _ =>
      Some (t, agent_failed subtype errors_json)
  | _ :: rest => engine_failure rest
  end.

(** The parent correlation id of a message. *)
Definition parent_of (m : Message) : option string :=
  match m with
  | MAssistant parent _ _ => parent
  | _ => None
  end.

(** The throttle timestamp of a subtask, [0] when none is stored. *)
Definition stamp (s : State) (k : string) : Z :=
  default 0 (activityThrottle s !! k).

(** A tool invocation that can yield an activity event: a file read with a
    path, a pattern search or a name-glob search with a pattern. *)
Definition eligible (toolName : string) (toolInput : ToolInput) : Prop :=
  (toolName = "Read" /\ truthy_opt (file_path toolInput) = true)
  \/ (toolName = "Grep" /\ truthy_opt (pattern toolInput) = true)
  \/ (toolName = "Glob" /\ truthy_opt (pattern toolInput) = true).

(** *** Auxiliary notions of the proofs *)

(** The id names a task recorded as a codebase explorer. *)
Definition is_explorer (m : gmap string TaskInfo) (x : string) : bool :=
  match m !! x with
  | Some info => bool_decide (ti_agentType info = "codebase-explorer")
  | None => false
  end.

(** The invariant behind the counters: the completions so far, plus the
    explorer tasks whose result is still to come among [ids], fit in the
    number of delegations. *)
Definition pending_fit (s : State) (ids : list string) : Prop :=
  (completedExplorers (phases s)
   + length (List.filter (is_explorer (taskMap s)) ids)
   <= totalExplorers (phases s))%nat.

Definition counters_ok (s : State) : Prop :=
  (completedExplorers (phases s) <= totalExplorers (phases s))%nat.

(** The id a user block consumes, if any. *)
Definition result_id_of (b : UserBlock) : list string :=
  match b with
  | UToolResult (Some i) => if truthy i then [i] else []
  | _ => []
  end.

(** A step that leaves the throttle map alone and appends no activity
    event. *)
Definition silent (s s' : State) : Prop :=
  activityThrottle s' = activityThrottle s
  /\ exists evs, emitted s' = emitted s ++ evs /\ activity_stamps evs = [].

(** Consecutive elements at least [d] apart. *)
Fixpoint spaced (d : Z) (l : list Z) : Prop :=
  match l with
  | [] => True
  | a :: r => match r with
              | [] => True
              | b :: _ => d <= b - a
              end /\ spaced d r
  end.

(** A step that keeps the phase tracking and appends no progress event. *)
Definition calm (s s' : State) : Prop :=
  phases s' = phases s
  /\ exists evs, emitted s' = emitted s ++ evs /\ progress_percents evs = [].

(** A step whose only progress event carries the percent of the policy
    for the state it ends in. *)
Definition reported (s s' : State) : Prop :=
  exists evs,
    emitted s' = emitted s ++ evs
    /\ progress_percents evs = [(progress_of (phases s')).1].

(** The interpolation of the exploring band evaluated in binary64. *)
Definition float_of_nat (n : nat) : float :=
  PrimFloat.of_uint63 (Uint63.of_Z (Z.of_nat n)).

Definition binary64_exploring (c n : nat) : float :=
  (10 + 50 * (float_of_nat c / float_of_nat n))%float.

(** [Math.round] of a binary64 number: the integer nearest to its value,
    a tie going up; nothing for what is not finite. *)
Definition Math_round (x : float) : option Z :=
  option_map js_round (Binary64.value x).

(** The percent of the exploring band as [emitProgress] computes it:
    [Math.round(10 + 50 * (completedExplorers / totalExplorers))] in
    binary64 when an explorer was delegated, and [15] otherwise. *)
Definition percent64 (c n : nat) : option Z :=
  if decide (0 < n)%nat then Math_round (binary64_exploring c n)
  else Some 15.



(** A clock that does not go back between the three reads of a throttled
    emission, and advances by at most [lag] between the read that is
    stored and the read that stamps the event. *)
Definition steady (lag : Z) (r : Reads) : Prop :=
  gate_read r <= stamp_read r
  /\ stamp_read r <= event_read r
  /\ event_read r <= stamp_read r + lag.

Definition steady_step (lag : Z) (step : Tick * EngineStep) : Prop :=
  forall k, steady lag (reads step.1 k).

(** How a step may move the throttle time of subtask [k] while appending
    activity events of [k], on a clock that is [lag]-steady: the stored
    time does not go back, every event comes a whole interval after the
    time stored before the step and at most [lag] after the time stored
    after it, and the events of the step are spaced. *)
Definition paced_at (k : string) (lag : Z) (s s' : State) : Prop :=
  exists evs,
    emitted s' = emitted s ++ evs
    /\ stamp s k <= stamp s' k
    /\ Forall (fun a => ACTIVITY_THROTTLE_MS <= a - stamp s k
                        /\ a <= stamp s' k + lag)
         (activity_stamps evs)
    /\ spaced (ACTIVITY_THROTTLE_MS - lag) (activity_stamps evs).

(** The emission instants of the [activity] events emitted for the
    subtask [k]: the timestamps of those appended while a message of [k]
    is handled. *)
Fixpoint activity_times_at (cfg : AgentConfig) (k : string) (s : State)
    (stream : list (Tick * EngineStep)) : list Z :=
  match stream with
  | [] => []
  | (c, Throws e) :: _ => []
  | (c, Yields m) :: rest =>
      (if decide (parent_of m = Some k)
       then activity_stamps (new_events s (process_message_at cfg c s m).1)
       else [])
      ++ match process_message_at cfg c s m with
         | (s', Some _) => []
         | (s', None) => activity_times_at cfg k s' rest
         end
  end.

End Observe.

(** ** Sample inputs *)

Module Samples.
Import Orchestrator Routes.

(** A job record and a server holding just that job. *)
Definition sample_meta (st : ReviewStatus) (err : option string)
  : Storage.ReviewMeta :=
  Storage.mkReviewMeta "r1" "prd.md" "prd.md" ["/repo"] st 1000 None err
    None None None None.

Definition sample_server (st : ReviewStatus) (err : option string) : Server :=
  mkServer (Storage.mkDisk {[ "r1" := sample_meta st err ]} ∅) ∅ ∅ 0 [] ∅ 0.

Definition sample_cfg : AgentConfig := mkAgentConfig "sonnet" "sonnet" "sonnet".

(** The lead delegates a subtask of the given kind. *)
Definition delegate (i agentType : string) : Block :=
  BToolUse i "Task"
    (mkToolInput (Some agentType) (Some ("section " +:+ i)) None None).

(** A message of the lead, the result of a delegation, the final result. *)
Definition lead (blocks : list Block) : EngineStep :=
  Yields (MAssistant None None (Some blocks)).

Definition tool_result (i : string) : EngineStep :=
  Yields (MUser (Some [UToolResult (Some i)])).

Definition success : EngineStep :=
  Yields (MResultSuccess (Some "the review") None None None).

(** Tool invocations of a subtask. *)
Definition read_file (path : string) : Block :=
  BToolUse "tu" "Read" (mkToolInput None None (Some path) None).

Definition run_bash : Block :=
  BToolUse "tu" "Bash" (mkToolInput None None None None).

Definition subtask (k : string) (blocks : list Block) : EngineStep :=
  Yields (MAssistant (Some k) None (Some blocks)).

(** A second senior-developer delegation after the lead has started to
    write. *)
Definition second_opinion : list (Z * EngineStep) :=
  [ (1000, lead [delegate "sd1" "senior-developer"]);
    (2000, tool_result "sd1");
    (3000, lead [BText "One point needs a second look."]);
    (4000, lead [delegate "sd2" "senior-developer"]) ].

(** Three explorers delegated, two of them completed; then the third. *)
Definition two_of_three : list (Z * EngineStep) :=
  [ (1000, lead [delegate "e1" "codebase-explorer";
                 delegate "e2" "codebase-explorer";
                 delegate "e3" "codebase-explorer"]);
    (2000, tool_result "e1");
    (3000, tool_result "e2") ].

Definition three_of_three : list (Z * EngineStep) :=
  two_of_three ++ [ (4000, tool_result "e3") ].

(** A run that ends successfully while still exploring. *)
Definition explorer_then_done : list (Z * EngineStep) :=
  [ (1000, lead [delegate "e1" "codebase-explorer"]);
    (2000, success) ].

(** The result of one explorer delivered twice. *)
Definition result_twice : list (Z * EngineStep) :=
  [ (1000, lead [delegate "e1" "codebase-explorer"]);
    (2000, tool_result "e1");
    (3000, tool_result "e1") ].

(** The background run of job [r1], and an environment in which the
    engine throws an error with an empty message. *)
Definition sample_run : BackgroundRun :=
  mkBackgroundRun "r1" 0 "r1_prd.md" ["/repo"].

Definition env_with (steps : list (Z * EngineStep)) : RunEnv :=
  mkRunEnv 500 (Ok "the document") 600 steps 9000 9100.

Definition throws_empty : list (Z * EngineStep) :=
  [ (5000, Throws (ThrownError EmptyString)) ].

Definition throws_boom : list (Z * EngineStep) :=
  [ (1000, lead [delegate "e1" "codebase-explorer"]);
    (5000, Throws (ThrownError "boom")) ].

(** One explorer reading two files 1200 ms apart, with a third read in
    between that falls inside the window. *)
Definition two_reads : list (Z * EngineStep) :=
  [ (4000, lead [delegate "e1" "codebase-explorer"]);
    (5000, subtask "e1" [read_file "src/a.ts"]);
    (5400, subtask "e1" [read_file "src/b.ts"]);
    (6200, subtask "e1" [read_file "src/c.ts"]) ].

(** An explorer that reads a file, runs another tool inside the window,
    and reads again 700 ms after that. *)
Definition after_first_read : State :=
  process_block sample_cfg 5000 (Some "e1") (start_state 0)
    (read_file "src/a.ts").

Definition after_bash_in_window : State :=
  process_block sample_cfg 5500 (Some "e1") after_first_read run_bash.

Definition after_second_read : State :=
  process_block sample_cfg 6200 (Some "e1") after_bash_in_window
    (read_file "src/b.ts").

(** An explorer, a subtask nobody delegated and the lead report usage. *)
Definition usage_of_three : list (Z * EngineStep) :=
  [ (1000, lead [delegate "e1" "codebase-explorer"]);
    (2000, Yields (MAssistant (Some "e1")
                     (Some (mkApiUsage (Some 120%float) (Some 30%float)
                              (Some 9%float) None))
                     None));
    (3000, Yields (MAssistant (Some "e9")
                     (Some (mkApiUsage (Some 50%float) (Some 5%float)
                              None None))
                     None));
    (4000, Yields (MAssistant None
                     (Some (mkApiUsage (Some 200%float) (Some 80%float)
                              None None))
                     None)) ].

(** One explorer reading two files. The clock advances by one
    millisecond between the read that is stored and the read that stamps
    the first event; the second read passes the gate exactly one
    interval after the stored time. *)
Definition drifting_reads : list (Tick * EngineStep) :=
  [ (still 4000, lead [delegate "e1" "codebase-explorer"]);
    (mkTick 5000 (fun _ => mkReads 5000 5000 5001),
     subtask "e1" [read_file "src/a.ts"]);
    (still 6000, subtask "e1" [read_file "src/b.ts"]) ].

(** The lead delegates and an explorer reads twice. The clock advances
    by two milliseconds between the read that the usage throttle stores
    and the read that stamps the first usage event; the third message
    passes the gate exactly one interval after the stored time. *)
Definition drifting_usage : list (Tick * EngineStep) :=
  [ (mkTick 6000 (fun _ => mkReads 6000 6000 6002),
     lead [delegate "e1" "codebase-explorer"]);
    (still 9000, subtask "e1" [read_file "src/a.ts"]);
    (still 11000, subtask "e1" [read_file "src/b.ts"]) ].

(** The same explorer on a clock that stands still inside every
    iteration. *)
Definition still_reads : list (Tick * EngineStep) :=
  still_stream two_reads.

End Samples.

(** ** Further observations on runs *)

Module Ledger.
Import Orchestrator Observe.

(** A step that appends events of the kind [P] to the log, and nothing
    else. *)
Definition appends (P : ProgressEvent -> Prop) (s s' : State) : Prop :=
  exists evs, emitted s' = emitted s ++ evs /\ Forall P evs.

Definition is_complete (ev : ProgressEvent) : Prop :=
  match ev with EvComplete _ _ _ => True | _ => False end.

Definition is_subagent (ev : ProgressEvent) : Prop :=
  match ev with EvSubagent _ _ _ _ => True | _ => False end.

Definition is_phase (ev : ProgressEvent) : Prop :=
  match ev with EvPhase _ _ _ => True | _ => False end.

(** The timestamps of the [usage] events of a log, in order. *)
Definition usage_stamps (log : list ProgressEvent) : list Z :=
  omap (fun ev => match ev with EvUsage t _ _ _ => Some t | _ => None end)
    log.

(** Every [completed] subagent event of a log comes after a [started]
    event with the same kind and description. *)
Definition finished_after_started (log : list ProgressEvent) : Prop :=
  forall i t a d,
    log !! i = Some (EvSubagent t a d Finished) ->
    exists j t', (j < i)%nat /\ log !! j = Some (EvSubagent t' a d Started).

(** Every recorded task has a [started] event in the log. *)
Definition tasks_announced (s : State) : Prop :=
  forall i info,
    taskMap s !! i = Some info ->
    exists t,
      EvSubagent t (ti_agentType info) (ti_description info) Started
      ∈ emitted s.

(** The usage trackers and the task map name the same ids, with the same
    kind and description, and no id has two trackers. *)
Definition trackers_match (s : State) : Prop :=
  NoDup (subagentTokens (usages s)).*1
  /\ forall i,
      match taskMap s !! i, omap_get i (subagentTokens (usages s)) with
      | Some info, Some entry =>
          se_agentType entry = ti_agentType info
          /\ se_description entry = ti_description info
      | None, None => True
      | _, _ => False
      end.

(** The messages the loop handles on a stream: all of them up to the
    first throw, a failing result included. *)
Fixpoint handled (stream : list (Z * EngineStep)) : list Message :=
  match stream with
  | [] => []
  | (_, Throws _) :: _ => []
  | (_, Yields m) :: rest =>
      m :: match m with
           | MResultFailure _ _ _ => []
           | _ => handled rest
           end
  end.

(** The usage of every assistant message added up, and the usage of the
    lead's messages alone. *)
Definition add_message_usage (acc : TokenUsage) (m : Message) : TokenUsage :=
  match m with
  | MAssistant _ u _ => addUsage acc u
  | _ => acc
  end.

Definition add_lead_usage (acc : TokenUsage) (m : Message) : TokenUsage :=
  match m with
  | MAssistant None u _ => addUsage acc u
  | _ => acc
  end.

(** A block in which the lead delegates to the senior developer. *)
Definition is_senior_delegation (b : Block) : bool :=
  match b with
  | BToolUse _ name input =>
      bool_decide (name = "Task")
      && bool_decide (default "unknown" (subagent_type input)
                      = "senior-developer")
  | _ => false
  end.

Definition senior_in_message (m : Message) : nat :=
  match m with
  | MAssistant _ _ (Some blocks) =>
      length (List.filter is_senior_delegation blocks)
  | _ => 0%nat
  end.

(** The number of senior-developer delegations of a stream. *)
Definition senior_delegations (stream : list (Z * EngineStep)) : nat :=
  sum_list_with (fun step => match step.2 with
                             | Yields m => senior_in_message m
                             | Throws _ => 0%nat
                             end) stream.

(** A stream step that is not a user message. *)
Definition not_user_at (step : Tick * EngineStep) : Prop :=
  match step.2 with
  | Yields (MUser _) => False
  | _ => True
  end.

(** The task map records a senior-developer task. *)
Definition has_senior (m : gmap string TaskInfo) : Prop :=
  exists i info, m !! i = Some info /\ ti_agentType info = "senior-developer".

End Ledger.

(** ** Observations on the background process and the event streams *)

Module Journal.
Import Storage Routes.

(** A stored record with the four fields a run writes replaced. *)
Definition with_run (meta : ReviewMeta) (st : ReviewStatus)
    (c : option Z) (e : option string)
    (u : option Orchestrator.SessionUsage) : ReviewMeta :=
  mkReviewMeta (id meta) (fileName meta) (originalName meta)
    (repoPaths meta) st (createdAt meta) c e u (supplementaryFiles meta)
    (additionalContext meta) (webSearchEnabled meta).

(** How the [try] block of the background process ends when the store
    holds the job: parsing the document, then [runReview]. *)
Definition attempt (cfg : Orchestrator.AgentConfig) (env : RunEnv)
  : Result Orchestrator.OrchestratorResult :=
  match prd env with
  | Throw e => Throw e
  | Ok _ =>
      match (Orchestrator.runReview cfg (t_start env) (engine env)
               (t_end env)).2 with
      | Orchestrator.Returned r => Ok r
      | Orchestrator.Raised e => Throw e
      end
  end.

(** A connection with further frames written to it. *)
Definition add_frames (fs : list Frame) (c : Connection) : Connection :=
  mkConnection (conn_reviewId c) (written c ++ fs) (currentEmitter c)
    (pollInterval c) (keepalive c).

(** How many times the listener of a connection is attached to an
    emitter. *)
Definition attachments (cid em : nat) (srv : Server) : nat :=
  count_occ Nat.eq_dec (listeners_of em srv) cid.

(** The frames written so far on a connection, if it is open. *)
Definition frames_of (cid : nat) (srv : Server) : option (list Frame) :=
  written <$> connections srv !! cid.

Definition waiting (t : Z) : Frame :=
  FData (EvPhase t Understanding "Waiting to start...").

End Journal.

(** ** File names ([backend/src/services/fileParser.ts]) *)

Module FileParser.

(** A JavaScript string as its UTF-16 code units. The class of the
    regular expression [[^a-zA-Z0-9._-]], which has no [u] flag and so
    matches one code unit at a time. *)
Definition is_safe_unit (c : N) : bool :=
  ((97 <=? c) && (c <=? 122)
   || (65 <=? c) && (c <=? 90)
   || (48 <=? c) && (c <=? 57)
   || (c =? 46) || (c =? 95) || (c =? 45))%N.

Definition underscore : N := 95.

(** [originalName.replace(/[^a-zA-Z0-9._-]/g, "_")] *)
Definition getSafeFileName (originalName : list N) : list N :=
  map (fun c => if is_safe_unit c then c else underscore) originalName.

End FileParser.

(** ** The logger ([backend/src/utils/logger.ts]) *)

Module Logger.

Inductive LogLevel := LDebug | LInfo | LWarn | LError.

Definition level_name (l : LogLevel) : string :=
  match l with
  | LDebug => "debug"
  | LInfo => "info"
  | LWarn => "warn"
  | LError => "error"
  end.

(** [LOG_LEVELS[key]] as a number; any other key gives [undefined] or
    an inherited member, which compares as NaN. *)
Definition LOG_LEVELS (key : string) : option Z :=
  if decide (key = "debug") then Some 0
  else if decide (key = "info") then Some 1
  else if decide (key = "warn") then Some 2
  else if decide (key = "error") then Some 3
  else None.

(** [process.env.LOG_LEVEL || "info"] *)
Definition currentLevel (env : option string) : string :=
  match env with
  | Some s => if truthy s then s else "info"
  | None => "info"
  end.

(** [LOG_LEVELS[level] >= LOG_LEVELS[currentLevel]]; a comparison with
    NaN is false. *)
Definition shouldLog (env : option string) (level : LogLevel) : bool :=
  match LOG_LEVELS (level_name level), LOG_LEVELS (currentLevel env) with
  | Some a, Some b => bool_decide (a >= b)
  | _, _ => false
  end.

End Logger.

(** ** The event-stream effect of the progress panel
    ([frontend/src/components/ProgressPanel.tsx],
    [frontend/src/api/client.ts]) *)

Module SseChannel.
Import ProgressPanel.

(** What the [EventSource] hands to its two callbacks: a message whose
    data parses to an event, a message whose data does not parse, and an
    error together with whether [readyState] is [CLOSED]. *)
Inductive Signal :=
| Message (event : ProgressEvent)
| Garbled
| Failure (closed : bool).

(** The component's panel with the state of the effect; [source_closed]
    records [source.close()]. *)
Record View := mkView {
  panel : Panel;
  sseErrorCount : nat;
  sseConnected : bool;
  fallbackPolling : bool;
  source_closed : bool
}.

Definition SSE_MAX_ERRORS : nat := 3.

Definition initial_view : View := mkView initial_panel 0 false false false.

(** The [onEvent] callback given to [streamReviewProgress]. *)
Definition on_event (event : ProgressEvent) (v : View) : View :=
  mkView (handleEvent event (panel v)) 0 true (fallbackPolling v)
    (source_closed v).

(** The [onError] callback. *)
Definition on_error (closed : bool) (v : View) : View :=
  let n := S (sseErrorCount v) in
  if closed || bool_decide (SSE_MAX_ERRORS <= n)%nat
  then mkView (panel v) n false true true
  else mkView (panel v) n (sseConnected v) (fallbackPolling v)
         (source_closed v).

(** [source.onmessage] and [source.onerror]; a closed source calls
    neither. *)
Definition deliver (sig : Signal) (v : View) : View :=
  if source_closed v then v
  else match sig with
       | Message event => on_event event v
       | Garbled => v
       | Failure closed => on_error closed v
       end.

Definition deliver_all (sigs : list Signal) (v : View) : View :=
  foldl (fun acc sig => deliver sig acc) v sigs.

(** The guard of the fallback effect: the 3 s status poll runs. *)
Definition polling (v : View) : bool :=
  fallbackPolling v && negb (sseConnected v).

(** The events of the messages that parse. *)
Definition parsed (sigs : list Signal) : list ProgressEvent :=
  omap (fun sig => match sig with Message ev => Some ev | _ => None end) sigs.

End SseChannel.

(** ** Observations on the progress panel *)

Module Screen.
Import ProgressPanel.

(** The panel after the component has handled a sequence of events. *)
Definition handle_all (events : list ProgressEvent) (p : Panel) : Panel :=
  foldl (fun acc ev => handleEvent ev acc) p events.

Definition keep_last {A : Type} (n : nat) (l : list A) : list A :=
  drop (length l - n) l.

(** The feed entries of the [activity] events of a log, in order. *)
Definition activity_entries (events : list ProgressEvent)
  : list ActivityEntry :=
  omap (fun ev =>
          match ev with
          | EvActivity ts agentType tool detail =>
              Some (mkActivityEntry ts agentType tool detail)
          | _ => None
          end) events.

(** The phase a log has reached: that of its last [phase] event. *)
Definition current_phase (events : list ProgressEvent) : ReviewPhase :=
  default Understanding (last (Observe.phase_events events)).

(** The stepper when [cur] is the phase reached. *)
Definition stepper_status (cur k : ReviewPhase) : PhaseStatus :=
  if decide (k = cur) then PhaseActive
  else if decide (Observe.phase_rank k < Observe.phase_rank cur)%nat
       then PhaseCompleted
       else PhasePending.

(** The identity under which the panel keeps a subagent. *)
Definition identity (s : SubagentInfo) : string * string :=
  (sa_agentType s, sa_description s).

(** The status the panel shows for an identity, and the status of the
    last [subagent] event of a log for it. *)
Definition shown (k : string * string) (l : list SubagentInfo)
  : option SubagentStatus :=
  sa_status <$> List.find (fun s => bool_decide (identity s = k)) l.

Definition latest (k : string * string) (events : list ProgressEvent)
  : option SubagentStatus :=
  last (omap (fun ev =>
                match ev with
                | EvSubagent _ agentType descr st =>
                    if bool_decide ((agentType, descr) = k) then Some st
                    else None
                | _ => None
                end) events).

End Screen.

(** ** Observations on the usage breakdown *)

Module Accounts.
Import Orchestrator.

(** The four counts of a usage object, a missing one being [0]. *)
Definition api_input (u : ApiUsage) : float :=
  default 0%float (input_tokens u).

Definition api_output (u : ApiUsage) : float :=
  default 0%float (output_tokens u).

Definition api_cache_read (u : ApiUsage) : float :=
  default 0%float (cache_read_input_tokens u).

Definition api_cache_creation (u : ApiUsage) : float :=
  default 0%float (cache_creation_input_tokens u).

(** Every count of a usage object is a non-negative integer below
    [2^53]. *)
Definition counted_usage (u : ApiUsage) : Prop :=
  Binary64.count (api_input u)
  /\ Binary64.count (api_output u)
  /\ Binary64.count (api_cache_read u)
  /\ Binary64.count (api_cache_creation u).

Definition counted_message (m : Message) : Prop :=
  match m with
  | MAssistant _ (Some u) _ => counted_usage u
  | _ => True
  end.

(** One count of the usage objects of a list of messages, added up as
    integers. *)
Definition message_count (g : ApiUsage -> float) (m : Message) : Z :=
  match m with
  | MAssistant _ (Some u) _ => Binary64.to_Z (g u)
  | _ => 0
  end.

Definition total (g : ApiUsage -> float) (msgs : list Message) : Z :=
  foldr (fun m acc => message_count g m + acc) 0 msgs.

(** The four sums stay below [2^53]. *)
Definition fits (msgs : list Message) : Prop :=
  total api_input msgs < 2 ^ 53
  /\ total api_output msgs < 2 ^ 53
  /\ total api_cache_read msgs < 2 ^ 53
  /\ total api_cache_creation msgs < 2 ^ 53.

(** The usage objects of a list of messages added up field by field, as
    integers. *)
Definition sum_usage (msgs : list Message) : TokenUsage :=
  {| inputTokens := Binary64.of_Z (total api_input msgs);
     outputTokens := Binary64.of_Z (total api_output msgs);
     cacheReadTokens := Binary64.of_Z (total api_cache_read msgs);
     cacheCreationTokens := Binary64.of_Z (total api_cache_creation msgs) |}.

(** The messages of the lead agent. *)
Definition is_lead (m : Message) : bool :=
  match m with
  | MAssistant None _ _ => true
  | _ => false
  end.

(** Three numbers that are counts and whose sum stays below [2^53]. *)
Definition exact_together (x y z : float) : Prop :=
  Binary64.count x /\ Binary64.count y /\ Binary64.count z
  /\ Binary64.to_Z x + Binary64.to_Z y + Binary64.to_Z z < 2 ^ 53.

(** A counter set and two usage objects whose counts can be added in
    binary64 without rounding. *)
Definition exactly_addable (acc : TokenUsage) (u1 u2 : ApiUsage) : Prop :=
  exact_together (inputTokens acc) (api_input u1) (api_input u2)
  /\ exact_together (outputTokens acc) (api_output u1) (api_output u2)
  /\ exact_together (cacheReadTokens acc) (api_cache_read u1)
       (api_cache_read u2)
  /\ exact_together (cacheCreationTokens acc) (api_cache_creation u1)
       (api_cache_creation u2).

(** One counter of the usage trackers, added up as integers. *)
Definition tracked (f : TokenUsage -> float)
    (l : list (string * SubagentEntry)) : Z :=
  foldr (fun kv acc => Binary64.to_Z (f (se_usage kv.2)) + acc) 0 l.

(** One counter of a per-agent breakdown, added up as integers. *)
Definition breakdown_total (f : TokenUsage -> float)
    (l : list SubagentUsage) : Z :=
  foldr (fun e acc => Binary64.to_Z (f (su_usage e)) + acc) 0 l.

(** The per-agent breakdown of a session stays within its totals. *)
Definition within_totals (su : SessionUsage) : Prop :=
  breakdown_total inputTokens (sess_subagentBreakdown su)
  <= Binary64.to_Z (inputTokens (sess_totalTokens su))
  /\ breakdown_total outputTokens (sess_subagentBreakdown su)
     <= Binary64.to_Z (outputTokens (sess_totalTokens su))
  /\ breakdown_total cacheReadTokens (sess_subagentBreakdown su)
     <= Binary64.to_Z (cacheReadTokens (sess_totalTokens su))
  /\ breakdown_total cacheCreationTokens (sess_subagentBreakdown su)
     <= Binary64.to_Z (cacheCreationTokens (sess_totalTokens su)).

End Accounts.

(** ** The handlers of the review routes, interleaved *)

Module Scheduler.
Import Storage Routes.

(** One handler or timer of the routes module running to its end. *)
Inductive Op :=
| OpStream (t : Z) (reviewId : string)
| OpPoll (cid : nat)
| OpKeepalive (cid : nat)
| OpClose (cid : nat)
| OpStart (reviewId filePath : string) (paths : list string)
| OpRerun (t : Z) (reviewId : string)
| OpEmit (em : nat) (event : ProgressEvent)
| OpProcess (cfg : Orchestrator.AgentConfig) (env : RunEnv)
    (run : BackgroundRun)
| OpCleanup (run : BackgroundRun).

Definition apply_op (op : Op) (srv : Server) : Server :=
  match op with
  | OpStream t reviewId => (stream_route t reviewId srv).2
  | OpPoll cid => poll_tick cid srv
  | OpKeepalive cid => keepalive_tick cid srv
  | OpClose cid => on_close cid srv
  | OpStart reviewId filePath paths =>
      startReviewProcess reviewId filePath paths srv
  | OpRerun t reviewId => (rerun_route t reviewId srv).2
  | OpEmit em event => emit_progress em event srv
  | OpProcess cfg env run => review_process cfg env run srv
  | OpCleanup run => emitter_cleanup run srv
  end.

Definition run_ops (ops : list Op) (srv : Server) : Server :=
  foldl (fun acc op => apply_op op acc) srv ops.

(** The server when the process starts, over the data directory as it
    is. *)
Definition fresh_server (d : Disk) : Server := mkServer d ∅ ∅ 0 [] ∅ 0.

(** What the attachment of listeners depends on: the listeners, the
    connection counter, and which connections are open and still
    polling. *)
Definition same_wiring (srv srv' : Server) : Prop :=
  listeners srv' = listeners srv
  /\ connections_made srv' = connections_made srv
  /\ forall cid,
       pollInterval <$> connections srv' !! cid
       = pollInterval <$> connections srv !! cid.

(** Every emitter holds each listener at most once, listeners and open
    connections are numbered below the counter, and a connection that
    still polls is attached nowhere. *)
Definition wired (srv : Server) : Prop :=
  (forall em, NoDup (listeners_of em srv))
  /\ (forall em cid,
        cid ∈ listeners_of em srv -> (cid < connections_made srv)%nat)
  /\ (forall cid c,
        connections srv !! cid = Some c -> (cid < connections_made srv)%nat)
  /\ (forall cid c em,
        connections srv !! cid = Some c -> pollInterval c = true ->
        cid ∉ listeners_of em srv).

End Scheduler.

(** * Properties *)

(** Open the two throttled emissions at one instant. *)
Ltac at_one_instant :=
  unfold Orchestrator.emitUsageIfDue, Orchestrator.emitUsageIfDue_at,
    Orchestrator.subagent_tool_use, Orchestrator.subagent_tool_use_at;
  cbn [Orchestrator.at_once Orchestrator.gate_read Orchestrator.stamp_read
       Orchestrator.event_read].

(** ** Integers in binary64 *)

Section IntegersInBinary64.
Import Binary64.

Lemma iter_pos_iter {A : Type} (f : A -> A) (p : positive) (x : A) :
  SpecFloat.iter_pos f p x = Pos.iter f x p.
Proof.
  revert x. induction p as [p IH|p IH|]; intros x; simpl.
  - rewrite !IH, <- !Pos.iter_swap. reflexivity.
  - rewrite !IH. reflexivity.
  - reflexivity.
Qed.

Lemma digits2_shiftl (p : positive) (n : N) :
  Zpos (digits2_pos (Pos.shiftl p n)) = Zpos (digits2_pos p) + Z.of_N n.
Proof.
  destruct n as [|k]; unfold Pos.shiftl; simpl; [lia|].
  induction k using Pos.peano_ind.
  - simpl. lia.
  - rewrite Pos.iter_succ. simpl digits2_pos. lia.
Qed.

Lemma digits2_iter (q k : positive) :
  Zpos (digits2_pos (Pos.iter xO q k)) = Zpos (digits2_pos q) + Zpos k.
Proof. exact (digits2_shiftl q (Npos k)). Qed.

(** Shifting out the zero bits that a left shift brought in. *)
Lemma shr_shiftl (q k : positive) :
  Pos.iter shr_1 (Build_shr_record (Zpos (Pos.iter xO q k)) false false) k
  = Build_shr_record (Zpos q) false false.
Proof.
  induction k using Pos.peano_ind.
  - reflexivity.
  - rewrite Pos.iter_succ_r with (f := shr_1).
    rewrite Pos.iter_succ with (f := xO). simpl. exact IHk.
Qed.

Lemma fexp_eq (e : Z) : fexp prec emax e = fexp64 e.
Proof. reflexivity. Qed.

(** A mantissa already in canonical position is kept. *)
Lemma binary_round_aux_canonical (s : bool) (m : positive) (e : Z) :
  fexp64 (Zpos (digits2_pos m) + e) = e -> e <= 971 ->
  binary_round_aux prec emax s (Zpos m) e loc_Exact = S754_finite s m e.
Proof.
  intros Hc He. unfold binary_round_aux, shr_fexp.
  change (Zdigits2 (Zpos m)) with (Zpos (digits2_pos m)).
  rewrite fexp_eq, Hc, Z.sub_diag.
  cbn [shr shr_record_of_loc shr_m loc_of_shr_record round_nearest_even].
  change (Zdigits2 (Zpos m)) with (Zpos (digits2_pos m)).
  rewrite fexp_eq, Hc, Z.sub_diag. cbn [shr shr_record_of_loc shr_m].
  change (emax - prec) with 971.
  destruct (Z.leb_spec e 971); [reflexivity|lia].
Qed.

(** Zero bits below the canonical position are shifted out. *)
Lemma binary_round_aux_shift (s : bool) (q k : positive) (e : Z) :
  fexp64 (Zpos (digits2_pos q) + (e + Zpos k)) = e + Zpos k ->
  e + Zpos k <= 971 ->
  binary_round_aux prec emax s (Zpos (Pos.iter xO q k)) e loc_Exact
  = S754_finite s q (e + Zpos k).
Proof.
  intros Hc He.
  unfold binary_round_aux, shr_fexp.
  change (Zdigits2 (Zpos (Pos.iter xO q k)))
    with (Zpos (digits2_pos (Pos.iter xO q k))).
  rewrite digits2_iter, fexp_eq.
  replace (Zpos (digits2_pos q) + Zpos k + e)
    with (Zpos (digits2_pos q) + (e + Zpos k)) by lia.
  rewrite Hc. replace (e + Zpos k - e) with (Zpos k) by lia.
  cbn [shr shr_record_of_loc]. rewrite iter_pos_iter, shr_shiftl.
  cbn [shr_m loc_of_shr_record round_nearest_even].
  change (Zdigits2 (Zpos q)) with (Zpos (digits2_pos q)).
  rewrite fexp_eq, Hc, Z.sub_diag. cbn [shr shr_record_of_loc shr_m].
  change (emax - prec) with 971.
  destruct (Z.leb_spec (e + Zpos k) 971); [reflexivity|lia].
Qed.

(** Rounding a mantissa that has to be shifted left, or not at all. *)
Lemma binary_round_left (s : bool) (P : positive) (e : Z) :
  let d := Zpos (digits2_pos P) in
  fexp64 (d + e) <= e -> fexp64 (d + e) <= 971 ->
  binary_round prec emax s P e
  = S754_finite s (Pos.shiftl P (Z.to_N (e - fexp64 (d + e))))
      (fexp64 (d + e)).
Proof.
  intros d Hle Hmax.
  unfold binary_round.
  rewrite fexp_eq. fold d.
  remember (fexp64 (d + e)) as e' eqn:He'.
  unfold shl_align.
  destruct (e' - e) as [|k|k] eqn:Hk.
  - replace (e - e') with 0 by lia. simpl Z.to_N. unfold Pos.shiftl.
    assert (e' = e) as -> by lia.
    apply binary_round_aux_canonical; [symmetry; exact He'|lia].
  - lia.
  - replace (e - e') with (Zpos k) by lia. simpl Z.to_N. unfold Pos.shiftl.
    apply binary_round_aux_canonical; [|lia].
    rewrite digits2_iter. fold d.
    replace (d + Zpos k + e') with (d + e) by lia. symmetry; exact He'.
Qed.

(** Rounding a mantissa whose bits below the canonical position are
    zero. *)
Lemma binary_round_right (s : bool) (q k : positive) (e : Z) :
  fexp64 (Zpos (digits2_pos q) + (e + Zpos k)) = e + Zpos k ->
  e + Zpos k <= 971 ->
  binary_round prec emax s (Pos.iter xO q k) e
  = S754_finite s q (e + Zpos k).
Proof.
  intros Hc He. unfold binary_round.
  rewrite fexp_eq, digits2_iter.
  replace (Zpos (digits2_pos q) + Zpos k + e)
    with (Zpos (digits2_pos q) + (e + Zpos k)) by lia.
  rewrite Hc. unfold shl_align.
  replace (e + Zpos k - e) with (Zpos k) by lia.
  apply binary_round_aux_shift; assumption.
Qed.

Lemma digits2_low (p : positive) : 2 ^ (Zpos (digits2_pos p) - 1) <= Zpos p.
Proof.
  induction p as [p IH|p IH|]; cbn [digits2_pos].
  - rewrite Pos2Z.inj_succ.
    replace (Z.succ (Zpos (digits2_pos p)) - 1)
      with (Z.succ (Zpos (digits2_pos p) - 1)) by lia.
    rewrite Z.pow_succ_r by lia. lia.
  - rewrite Pos2Z.inj_succ.
    replace (Z.succ (Zpos (digits2_pos p)) - 1)
      with (Z.succ (Zpos (digits2_pos p) - 1)) by lia.
    rewrite Z.pow_succ_r by lia. lia.
  - simpl. lia.
Qed.

Lemma digits2_small (p : positive) :
  Zpos p < 2 ^ 53 -> Zpos (digits2_pos p) <= 53.
Proof.
  intros H. pose proof (digits2_low p) as Hl.
  destruct (Z.le_gt_cases (Zpos (digits2_pos p)) 53) as [|Hgt];
    [assumption|].
  assert (2 ^ 53 <= 2 ^ (Zpos (digits2_pos p) - 1)).
  { apply Z.pow_le_mono_r; lia. }
  lia.
Qed.

Lemma shiftl_shiftl (p : positive) (n m : N) :
  Pos.shiftl (Pos.shiftl p n) m = Pos.shiftl p (n + m).
Proof.
  destruct n as [|n], m as [|m]; unfold Pos.shiftl; simpl; try reflexivity.
  rewrite Pos.add_comm, Pos.iter_add. reflexivity.
Qed.

Lemma Zpos_shiftl (p : positive) (n : N) :
  Zpos (Pos.shiftl p n) = Zpos p * 2 ^ Z.of_N n.
Proof.
  destruct n as [|k]; unfold Pos.shiftl; [simpl; lia|].
  induction k using Pos.peano_ind.
  - simpl. lia.
  - rewrite Pos.iter_succ. rewrite Pos2Z.inj_xO, IHk.
    change (Z.of_N (Npos (Pos.succ k))) with (Zpos (Pos.succ k)).
    change (Z.of_N (Npos k)) with (Zpos k).
    rewrite Pos2Z.inj_succ, Z.pow_succ_r by lia. lia.
Qed.

(** Rounding the integer [p * 2^j], given with the exponent [-j], gives
    the representation of [p]. *)
Lemma binary_round_scaled (s : bool) (p : positive) (j : N) :
  Zpos p < 2 ^ 53 ->
  binary_round prec emax s (Pos.shiftl p j) (- Z.of_N j) = normal s p.
Proof.
  intros Hp. pose proof (digits2_small p Hp) as Hd.
  set (d := Zpos (digits2_pos p)) in *.
  assert (0 < d) as Hd0 by (unfold d; lia).
  assert (fexp64 d = d - 53) as Hf by (unfold fexp64; lia).
  destruct (Z.le_gt_cases (d - 53) (- Z.of_N j)) as [Hle|Hgt].
  - rewrite binary_round_left; rewrite digits2_shiftl; fold d;
      replace (d + Z.of_N j + - Z.of_N j) with d by lia; rewrite ?Hf;
      try lia.
    unfold normal. fold d. f_equal.
    rewrite shiftl_shiftl. f_equal. lia.
  - destruct (Z.of_N j + (d - 53)) as [|k|k] eqn:Hk; try lia.
    unfold normal. fold d.
    assert (Z.of_N (Z.to_N (53 - d)) = 53 - d) as HJ by (apply Z2N.id; lia).
    set (J := Z.to_N (53 - d)) in *.
    assert (j = (J + Npos k)%N) as ->.
    { apply N2Z.inj. rewrite N2Z.inj_add. simpl Z.of_N. lia. }
    rewrite N2Z.inj_add in *. simpl (Z.of_N (Npos k)) in *.
    rewrite <- shiftl_shiftl.
    change (Pos.shiftl (Pos.shiftl p J) (Npos k))
      with (Pos.iter xO (Pos.shiftl p J) k).
    rewrite binary_round_right.
    + f_equal. lia.
    + rewrite digits2_shiftl. fold d. unfold fexp64. lia.
    + lia.
Qed.

Lemma round_Z_pos (p : positive) :
  Zpos p < 2 ^ 53 -> round_Z (Zpos p) = normal false p.
Proof. intros Hp. exact (binary_round_scaled false p 0 Hp). Qed.

Lemma round_Z_neg (p : positive) :
  Zpos p < 2 ^ 53 -> round_Z (Zneg p) = normal true p.
Proof. intros Hp. exact (binary_round_scaled true p 0 Hp). Qed.

Lemma normal_valid (s : bool) (p : positive) :
  Zpos p < 2 ^ 53 -> valid_binary (normal s p) = true.
Proof.
  intros Hp. pose proof (digits2_small p Hp) as Hd.
  unfold normal, valid_binary, SpecFloat.valid_binary, bounded,
    canonical_mantissa.
  rewrite fexp_eq, digits2_shiftl, Z2N.id by lia.
  apply andb_true_intro. split.
  - apply Z.eqb_eq. unfold fexp64. lia.
  - apply Z.leb_le. change (emax - prec) with 971. lia.
Qed.

Lemma round_Z_valid (z : Z) :
  Z.abs z < 2 ^ 53 -> valid_binary (round_Z z) = true.
Proof.
  intros Hz. destruct z as [|p|p].
  - reflexivity.
  - rewrite round_Z_pos by exact Hz. apply normal_valid. exact Hz.
  - rewrite round_Z_neg by exact Hz. apply normal_valid. exact Hz.
Qed.

Lemma binary_normalize_scaled (c : Z) (j : N) :
  Z.abs c < 2 ^ 53 ->
  binary_normalize prec emax (c * 2 ^ Z.of_N j) (- Z.of_N j) false
  = round_Z c.
Proof.
  intros Hc. destruct c as [|p|p].
  - reflexivity.
  - rewrite <- Zpos_shiftl. unfold binary_normalize.
    rewrite binary_round_scaled by exact Hc. symmetry.
    apply round_Z_pos, Hc.
  - change (Zneg p) with (- Zpos p). rewrite Z.mul_opp_l, <- Zpos_shiftl.
    unfold binary_normalize, Z.opp.
    rewrite binary_round_scaled by exact Hc. symmetry.
    apply round_Z_neg, Hc.
Qed.

Lemma shl_align_fst (m : positive) (e e' : Z) :
  e' <= e -> fst (shl_align m e e') = Pos.shiftl m (Z.to_N (e - e')).
Proof.
  intros Hle. unfold shl_align.
  destruct (e' - e) as [|k|k] eqn:Hk; try lia.
  - replace (e - e') with 0 by lia. reflexivity.
  - replace (e - e') with (Zpos k) by lia. reflexivity.
Qed.

Lemma cond_Zopp_mul (s : bool) (x y : Z) :
  cond_Zopp s x * y = cond_Zopp s (x * y).
Proof. destruct s; simpl; lia. Qed.

Lemma SFadd_normal (sa : bool) (pa : positive) (sb : bool) (pb : positive) :
  Zpos pa < 2 ^ 53 -> Zpos pb < 2 ^ 53 ->
  Z.abs (cond_Zopp sa (Zpos pa) + cond_Zopp sb (Zpos pb)) < 2 ^ 53 ->
  SFadd prec emax (normal sa pa) (normal sb pb)
  = round_Z (cond_Zopp sa (Zpos pa) + cond_Zopp sb (Zpos pb)).
Proof.
  intros Ha Hb Hc.
  pose proof (digits2_small pa Ha) as Hda.
  pose proof (digits2_small pb Hb) as Hdb.
  unfold normal. cbn [SFadd].
  set (da := Zpos (digits2_pos pa)) in *.
  set (db := Zpos (digits2_pos pb)) in *.
  set (ez := Z.min (da - 53) (db - 53)).
  assert (ez <= 0) as Hez by (unfold ez; lia).
  rewrite !shl_align_fst by (unfold ez; lia).
  rewrite !shiftl_shiftl.
  assert (Z.to_N (53 - da) + Z.to_N (da - 53 - ez) = Z.to_N (- ez))%N as ->.
  { apply N2Z.inj. rewrite N2Z.inj_add, !Z2N.id by (unfold ez; lia). lia. }
  assert (Z.to_N (53 - db) + Z.to_N (db - 53 - ez) = Z.to_N (- ez))%N as ->.
  { apply N2Z.inj. rewrite N2Z.inj_add, !Z2N.id by (unfold ez; lia). lia. }
  rewrite !Zpos_shiftl, <- !cond_Zopp_mul, <- Z.mul_add_distr_r.
  replace ez with (- Z.of_N (Z.to_N (- ez))) at 2 by (rewrite Z2N.id; lia).
  apply binary_normalize_scaled. exact Hc.
Qed.

Lemma SFadd_round_Z (a b : Z) :
  Z.abs a < 2 ^ 53 -> Z.abs b < 2 ^ 53 -> Z.abs (a + b) < 2 ^ 53 ->
  SFadd prec emax (round_Z a) (round_Z b) = round_Z (a + b).
Proof.
  intros Ha Hb Hc.
  destruct a as [|pa|pa], b as [|pb|pb]; try reflexivity.
  - change (0 + Zpos pb) with (Zpos pb).
    rewrite round_Z_pos by exact Hb. reflexivity.
  - change (0 + Zneg pb) with (Zneg pb).
    rewrite round_Z_neg by exact Hb. reflexivity.
  - rewrite Z.add_0_r, round_Z_pos by exact Ha. reflexivity.
  - rewrite (round_Z_pos pa), (round_Z_pos pb) by assumption.
    apply (SFadd_normal false pa false pb); assumption.
  - rewrite (round_Z_pos pa), (round_Z_neg pb) by assumption.
    apply (SFadd_normal false pa true pb); assumption.
  - rewrite Z.add_0_r, round_Z_neg by exact Ha. reflexivity.
  - rewrite (round_Z_neg pa), (round_Z_pos pb) by assumption.
    apply (SFadd_normal true pa false pb); assumption.
  - rewrite (round_Z_neg pa), (round_Z_neg pb) by assumption.
    apply (SFadd_normal true pa true pb); assumption.
Qed.

Lemma Prim2SF_of_Z (z : Z) :
  Z.abs z < 2 ^ 53 -> Prim2SF (of_Z z) = round_Z z.
Proof. intros Hz. apply Prim2SF_SF2Prim, round_Z_valid, Hz. Qed.

(** The binary64 sum of two integers is their sum, as long as the three
    of them are below [2^53] in absolute value. *)
Lemma of_Z_add (a b : Z) :
  Z.abs a < 2 ^ 53 -> Z.abs b < 2 ^ 53 -> Z.abs (a + b) < 2 ^ 53 ->
  (of_Z a + of_Z b)%float = of_Z (a + b).
Proof.
  intros Ha Hb Hc. apply Prim2SF_inj.
  rewrite add_spec, !Prim2SF_of_Z by assumption.
  apply SFadd_round_Z; assumption.
Qed.

Lemma to_Z_of_Z (n : Z) : 0 <= n < 2 ^ 53 -> to_Z (of_Z n) = n.
Proof.
  intros Hn. unfold to_Z. rewrite Prim2SF_of_Z by lia.
  destruct n as [|p|p]; [reflexivity| |lia].
  rewrite round_Z_pos by lia. unfold normal. cbn [cond_Zopp].
  pose proof (digits2_small p ltac:(lia)) as Hd.
  rewrite Zpos_shiftl, Z2N.id by lia.
  rewrite Z.shiftl_div_pow2 by lia.
  replace (- (Zpos (digits2_pos p) - 53)) with (53 - Zpos (digits2_pos p))
    by lia.
  apply Z.div_mul. apply Z.pow_nonzero; lia.
Qed.

Lemma count_of_Z (n : Z) : 0 <= n < 2 ^ 53 -> count (of_Z n).
Proof. intros Hn. unfold count. rewrite to_Z_of_Z by exact Hn. done. Qed.

(** Counts add up without rounding while the sum stays below [2^53]. *)
Lemma count_add (x y : float) :
  count x -> count y -> to_Z x + to_Z y < 2 ^ 53 ->
  (x + y)%float = of_Z (to_Z x + to_Z y)
  /\ count (x + y)%float
  /\ to_Z (x + y)%float = to_Z x + to_Z y.
Proof.
  intros [Hx Hxr] [Hy Hyr] Hsum.
  assert ((x + y)%float = of_Z (to_Z x + to_Z y)) as Heq.
  { rewrite Hx, Hy at 1. apply of_Z_add; lia. }
  split; [exact Heq|]. rewrite Heq.
  split; [apply count_of_Z; lia|apply to_Z_of_Z; lia].
Qed.

Lemma count_zero : count 0%float.
Proof. split; [reflexivity|]. vm_compute. split; [discriminate|reflexivity]. Qed.
End IntegersInBinary64.

(** ** Usage accumulation *)

Section UsageAccumulator.
Import Orchestrator Binary64 Accounts.

(** Three counts whose sum stays below [2^53] add up to that sum, in
    either order of the last two. *)
Lemma exact_together_sum (x y z : float) :
  exact_together x y z ->
  (x + y + z)%float = of_Z (to_Z x + to_Z y + to_Z z)
  /\ (x + z + y)%float = of_Z (to_Z x + to_Z y + to_Z z).
Proof.
  intros (Hx & Hy & Hz & Hsum).
  pose proof Hx as [_ Hxr]. pose proof Hy as [_ Hyr].
  pose proof Hz as [_ Hzr].
  destruct (count_add x y Hx Hy ltac:(lia)) as (_ & Hxy & Exy).
  destruct (count_add x z Hx Hz ltac:(lia)) as (_ & Hxz & Exz).
  destruct (count_add (x + y) z Hxy Hz ltac:(lia)) as (-> & _ & _).
  destruct (count_add (x + z) y Hxz Hy ltac:(lia)) as (-> & _ & _).
  rewrite Exy, Exz. split; f_equal; lia.
Qed.

(** C7, on the counts that binary64 adds without rounding. When the
    four counters and the fields of the two usage objects are
    non-negative integers and, for each counter, the counter and its two
    increments add up to less than [2^53], adding [u1] then [u2] gives
    exactly the same four counters as adding [u2] then [u1], whichever
    fields are present. An absent usage object leaves the counters as
    they are, in either order. *)
Theorem addUsage_order_independent
    (acc : TokenUsage) (u1 u2 : option ApiUsage) :
  match u1, u2 with
  | Some a, Some b => exactly_addable acc a b
  | _, _ => True
  end ->
  addUsage (addUsage acc u1) u2 = addUsage (addUsage acc u2) u1.
Proof.
  destruct u1 as [a|], u2 as [b|]; try reflexivity.
  intros (Hi & Ho & Hr & Hc). unfold addUsage.
  cbn [inputTokens outputTokens cacheReadTokens cacheCreationTokens].
  fold (api_input a) (api_input b) (api_output a) (api_output b)
    (api_cache_read a) (api_cache_read b)
    (api_cache_creation a) (api_cache_creation b).
  destruct (exact_together_sum _ _ _ Hi) as [-> ->].
  destruct (exact_together_sum _ _ _ Ho) as [-> ->].
  destruct (exact_together_sum _ _ _ Hr) as [-> ->].
  destruct (exact_together_sum _ _ _ Hc) as [-> ->].
  reflexivity.
Qed.

Lemma addUsage_order_independent_witness :
  addUsage
    (addUsage (mkTokenUsage 100 20 0 7)
       (Some (mkApiUsage (Some 120%float) (Some 30%float) None None)))
    (Some (mkApiUsage (Some 50%float) None (Some 9%float) None))
  = addUsage
      (addUsage (mkTokenUsage 100 20 0 7)
         (Some (mkApiUsage (Some 50%float) None (Some 9%float) None)))
      (Some (mkApiUsage (Some 120%float) (Some 30%float) None None)).
Proof.
  apply (addUsage_order_independent (mkTokenUsage 100 20 0 7)
           (Some (mkApiUsage (Some 120%float) (Some 30%float) None None))
           (Some (mkApiUsage (Some 50%float) None (Some 9%float) None))).
  unfold exactly_addable, exact_together, count.
  repeat split; try reflexivity; vm_compute; try discriminate; reflexivity.
Defined.

(** C7, as stated for every counter set, fails where binary64 rounds:
    from the counter [2^53], adding 1 then 2 gives [2^53 + 2] and adding
    2 then 1 gives [2^53 + 4]. *)
Lemma addUsage_order_matters :
  let acc := mkTokenUsage 9007199254740992 0 0 0 in
  let u1 := Some (mkApiUsage (Some 1%float) None None None) in
  let u2 := Some (mkApiUsage (Some 2%float) None None None) in
  inputTokens (addUsage (addUsage acc u1) u2) = 9007199254740994%float
  /\ inputTokens (addUsage (addUsage acc u2) u1) = 9007199254740996%float
  /\ addUsage (addUsage acc u1) u2 <> addUsage (addUsage acc u2) u1.
Proof.
  split; [reflexivity|]. split; [reflexivity|].
  intros H. apply (f_equal (fun r => Prim2SF (inputTokens r))) in H.
  vm_compute in H. discriminate H.
Qed.
End UsageAccumulator.

(** ** Client-side phase list *)

Section PhaseList.
Import ProgressPanel Observe.

Lemma indexOf_PHASE_ORDER (p : ReviewPhase) :
  indexOf PHASE_ORDER p = Z.of_nat (phase_rank p).
Proof. destruct p; reflexivity. Qed.

Lemma mark_phase_entry (P : ReviewPhase) (msg : string) (p : PhaseInfo) :
  let q :=
    if decide (key p = P)
    then mkPhaseInfo (key p) (label p) PhaseActive (Some msg)
    else if decide (indexOf PHASE_ORDER (key p) < indexOf PHASE_ORDER P)
         then mkPhaseInfo (key p) (label p) PhaseCompleted (message p)
         else p in
  key q = key p /\ label q = label p
  /\ (key p = P -> status q = PhaseActive /\ message q = Some msg)
  /\ ((phase_rank (key p) < phase_rank P)%nat ->
      status q = PhaseCompleted /\ message q = message p)
  /\ ((phase_rank P < phase_rank (key p))%nat -> q = p)
  /\ (key p <> P -> status q = PhaseActive -> q = p).
Proof.
  rewrite !indexOf_PHASE_ORDER.
  destruct (decide (key p = P)) as [Hk|Hk]; simpl.
  - repeat split; try done; intros; subst; lia.
  - destruct (decide (Z.of_nat (phase_rank (key p)) < Z.of_nat (phase_rank P)))
      as [Hlt|Hge]; simpl.
    + repeat split; try done; intros; lia || discriminate.
    + repeat split; try done; intros; lia.
Qed.

(** C9. On a [phase] event naming [P] the handler rewrites the phase list
    entry by entry: keys and labels stay; an entry for [P] becomes active
    with the event's message; an entry strictly before [P] in the fixed
    order becomes completed; an entry strictly after [P] is left as it
    was; and no entry other than one for [P] is turned active. Nothing
    else of the panel changes. *)
Theorem handleEvent_phase_marks
    (panel : Panel) (ts : Z) (P : ReviewPhase) (msg : string) :
  Forall2
    (fun p q =>
       key q = key p /\ label q = label p
       /\ (key p = P -> status q = PhaseActive /\ message q = Some msg)
       /\ ((phase_rank (key p) < phase_rank P)%nat ->
           status q = PhaseCompleted /\ message q = message p)
       /\ ((phase_rank P < phase_rank (key p))%nat -> q = p)
       /\ (key p <> P -> status q = PhaseActive -> q = p))
    (phases panel) (phases (handleEvent (EvPhase ts P msg) panel))
  /\ percent (handleEvent (EvPhase ts P msg) panel) = percent panel
  /\ subagents (handleEvent (EvPhase ts P msg) panel) = subagents panel
  /\ activities (handleEvent (EvPhase ts P msg) panel) = activities panel
  /\ completion_timer (handleEvent (EvPhase ts P msg) panel)
     = completion_timer panel.
Proof.
  split; [|done].
  simpl. unfold mark_phase.
  induction (phases panel) as [|p l IH]; simpl; constructor; [|exact IH].
  apply mark_phase_entry.
Qed.
End PhaseList.

(** ** Routes *)

Section StreamEndpoint.
Import Routes Samples.

(** C4. A client that connects to the stream of a job whose stored status
    is completed or error gets a response made of exactly one [complete]
    event, carrying the stored status and, for an error, the stored error
    (no message otherwise); the response is ended; and the server is left
    exactly as it was: no listener on any emitter, no connection, no
    timer that could attach one later. *)
Theorem stream_route_terminal
    (t : Z) (reviewId : string) (srv : Server) (meta : Storage.ReviewMeta) :
  Storage.getReviewMeta reviewId (disk srv) = Some meta ->
  Storage.status meta = StCompleted \/ Storage.status meta = StError ->
  stream_route t reviewId srv
  = (EventStream
       [FData (EvComplete t (Storage.status meta)
                 (match Storage.status meta with
                  | StError => Storage.error meta
                  | _ => None
                  end))]
       true,
     srv).
Proof.
  intros Hmeta Hst. unfold stream_route. rewrite Hmeta.
  destruct Hst as [-> | ->]; reflexivity.
Qed.

Lemma stream_route_terminal_witness :
  stream_route 7000 "r1" (sample_server StError (Some "boom"))
  = (EventStream [FData (EvComplete 7000 StError (Some "boom"))] true,
     sample_server StError (Some "boom")).
Proof.
  apply (stream_route_terminal 7000 "r1" (sample_server StError (Some "boom"))
           (sample_meta StError (Some "boom"))).
  - reflexivity.
  - right. reflexivity.
Defined.
End StreamEndpoint.

Section Rerun.
Import Routes Samples.


End Rerun.

(** ** Explorer counters *)

Section ExplorerCounters.
Import Orchestrator Observe.

Lemma pending_fit_counters_ok s ids : pending_fit s ids -> counters_ok s.
Proof. unfold pending_fit, counters_ok. lia. Qed.

Lemma is_explorer_insert_ne (m : gmap string TaskInfo) i info x :
  i <> x -> is_explorer (<[i := info]> m) x = is_explorer m x.
Proof. intros Hne. unfold is_explorer. by rewrite lookup_insert_ne. Qed.

Lemma is_explorer_insert_eq (m : gmap string TaskInfo) i info :
  is_explorer (<[i := info]> m) i
  = bool_decide (ti_agentType info = "codebase-explorer").
Proof. unfold is_explorer. by rewrite lookup_insert_eq. Qed.

Lemma filter_is_explorer_empty (ids : list string) :
  List.filter (is_explorer ∅) ids = [].
Proof. induction ids as [|x ids IH]; [reflexivity|exact IH]. Qed.

Lemma filter_insert_absent (m : gmap string TaskInfo) i info ids :
  i ∉ ids ->
  List.filter (is_explorer (<[i := info]> m)) ids
  = List.filter (is_explorer m) ids.
Proof.
  induction ids as [|x ids IH]; intros Hni; [reflexivity|].
  apply not_elem_of_cons in Hni as [Hne Hni].
  simpl. rewrite is_explorer_insert_ne by done.
  rewrite IH by done. reflexivity.
Qed.

Lemma filter_insert_le (m : gmap string TaskInfo) i info ids :
  NoDup ids ->
  (length (List.filter (is_explorer (<[i := info]> m)) ids)
   <= length (List.filter (is_explorer m) ids)
      + (if bool_decide (ti_agentType info = "codebase-explorer")
         then 1 else 0))%nat.
Proof.
  induction 1 as [|x ids Hx Hnd IH]; [simpl; lia|].
  destruct (decide (i = x)) as [->|Hne].
  - simpl. rewrite filter_insert_absent by done.
    rewrite is_explorer_insert_eq.
    destruct (bool_decide (ti_agentType info = "codebase-explorer"));
      destruct (is_explorer m x); simpl; lia.
  - simpl. rewrite is_explorer_insert_ne by done.
    destruct (is_explorer m x); simpl; lia.
Qed.

(** The helpers that only emit, or only touch usage tracking, keep the
    counters and the task map. *)
Lemma emitUsageIfDue_counts t s :
  phases (emitUsageIfDue t s) = phases s
  /\ taskMap (emitUsageIfDue t s) = taskMap s.
Proof. at_one_instant. case_decide; done. Qed.

Lemma subagent_tool_use_counts t p name input s :
  phases (subagent_tool_use t p name input s) = phases s
  /\ taskMap (subagent_tool_use t p name input s) = taskMap s.
Proof.
  at_one_instant.
  case_decide; [|done].
  destruct (truthy _); done.
Qed.

Lemma lead_text_counts t s :
  totalExplorers (phases (lead_text t s)) = totalExplorers (phases s)
  /\ completedExplorers (phases (lead_text t s))
     = completedExplorers (phases s)
  /\ taskMap (lead_text t s) = taskMap s.
Proof. unfold lead_text. destruct (_ && _); done. Qed.

Lemma launch_task_counts cfg t i input s :
  totalExplorers (phases (launch_task cfg t i input s))
  = (totalExplorers (phases s)
     + (if bool_decide (default "unknown" (subagent_type input)
                        = "codebase-explorer") then 1 else 0))%nat
  /\ completedExplorers (phases (launch_task cfg t i input s))
     = completedExplorers (phases s)
  /\ taskMap (launch_task cfg t i input s)
     = <[i := mkTaskInfo (default "unknown" (subagent_type input))
                (default EmptyString (description input))]> (taskMap s).
Proof.
  unfold launch_task, detect_phase.
  case_bool_decide as Hty.
  - rewrite (decide_True _ _ Hty). simpl.
    case_decide; simpl; repeat split; lia.
  - rewrite (decide_False _ _ Hty).
    case_decide; simpl; repeat split; lia.
Qed.

Lemma process_block_pending_fit cfg t parent s b ids :
  NoDup ids -> pending_fit s ids ->
  pending_fit (process_block cfg t parent s b) ids.
Proof.
  intros Hnd Hfit. unfold pending_fit in *.
  destruct b as [text|i name input|]; simpl; [| |done].
  - destruct (_ && _); [|done].
    destruct (lead_text_counts t s) as (-> & -> & ->). done.
  - set (s1 := if decide (name = "Task") then _ else s).
    assert (completedExplorers (phases s1)
            + length (List.filter (is_explorer (taskMap s1)) ids)
            <= totalExplorers (phases s1))%nat as H1.
    { subst s1. case_decide; [|done].
      destruct (launch_task_counts cfg t i input s) as (-> & -> & ->).
      pose proof (filter_insert_le (taskMap s) i
                    (mkTaskInfo (default "unknown" (subagent_type input))
                       (default EmptyString (description input)))
                    ids Hnd) as Hle.
      simpl in Hle. lia. }
    destruct parent as [p|]; [|done].
    destruct (truthy p); [|done].
    destruct (subagent_tool_use_counts t p name input s1) as (-> & ->).
    done.
Qed.

Lemma process_user_block_counts t s b :
  totalExplorers (phases (process_user_block t s b))
  = totalExplorers (phases s)
  /\ taskMap (process_user_block t s b) = taskMap s
  /\ completedExplorers (phases (process_user_block t s b))
     = (completedExplorers (phases s)
        + length (List.filter (is_explorer (taskMap s)) (result_id_of b)))%nat.
Proof.
  destruct b as [[i|]|]; simpl; try (repeat split; lia).
  destruct (truthy i); simpl; [|repeat split; lia].
  unfold is_explorer.
  destruct (taskMap s !! i) as [info|] eqn:Hi; simpl; [|repeat split; lia].
  match goal with
  | |- context [emitUsageIfDue t ?x] =>
      destruct (emitUsageIfDue_counts t x) as (-> & ->)
  end.
  simpl.
  case_bool_decide as Hty.
  - rewrite (decide_True _ _ Hty). simpl. repeat split; lia.
  - rewrite (decide_False _ _ Hty). case_decide; simpl; repeat split; lia.
Qed.

Lemma process_user_block_pending_fit t s b ids :
  NoDup (result_id_of b ++ ids) ->
  pending_fit s (result_id_of b ++ ids) ->
  pending_fit (process_user_block t s b) ids.
Proof.
  intros Hnd Hfit. unfold pending_fit in *.
  destruct (process_user_block_counts t s b) as (-> & -> & ->).
  rewrite List.filter_app, length_app in Hfit. lia.
Qed.

Lemma omap_result_ids blocks :
  omap (fun b => match b with
                 | UToolResult (Some i) => if truthy i then Some i else None
                 | _ => None
                 end) blocks
  = concat (map result_id_of blocks).
Proof.
  induction blocks as [|b blocks IH]; [reflexivity|].
  simpl. rewrite <- IH.
  destruct b as [[i|]|]; simpl; try reflexivity.
  destruct (truthy i); reflexivity.
Qed.

Lemma blocks_pending_fit cfg t parent blocks s ids :
  NoDup ids -> pending_fit s ids ->
  Forall counters_ok (scan (process_block cfg t parent) s blocks)
  /\ pending_fit (foldl (process_block cfg t parent) s blocks) ids.
Proof.
  intros Hnd. revert s.
  induction blocks as [|b blocks IH]; intros s Hfit; simpl; [done|].
  pose proof (process_block_pending_fit cfg t parent s b ids Hnd Hfit) as H1.
  destruct (IH _ H1) as [Hall Hend].
  split; [|done]. constructor; [|done].
  eapply pending_fit_counters_ok; eauto.
Qed.

Lemma user_blocks_pending_fit t blocks s ids :
  NoDup (concat (map result_id_of blocks) ++ ids) ->
  pending_fit s (concat (map result_id_of blocks) ++ ids) ->
  Forall counters_ok (scan (process_user_block t) s blocks)
  /\ pending_fit (foldl (process_user_block t) s blocks) ids.
Proof.
  revert s.
  induction blocks as [|b blocks IH]; intros s Hnd Hfit; simpl in *; [done|].
  rewrite <- app_assoc in Hnd, Hfit.
  pose proof (process_user_block_pending_fit t s b _ Hnd Hfit) as H1.
  apply NoDup_app in Hnd as (_ & _ & Hnd).
  destruct (IH _ Hnd H1) as [Hall Hend].
  split; [|done]. constructor; [|done].
  eapply pending_fit_counters_ok; eauto.
Qed.

Lemma message_pending_fit cfg t s m ids :
  NoDup (result_ids_of m ++ ids) ->
  pending_fit s (result_ids_of m ++ ids) ->
  Forall counters_ok (message_states cfg t s m)
  /\ pending_fit (process_message cfg t s m).1 ids.
Proof.
  intros Hnd Hfit.
  destruct m as [|parent usage content|content|? ? ? ?|? ? ?|];
    simpl in *;
    try (split; [repeat constructor|]; solve
           [ eapply pending_fit_counters_ok; eauto | done ]).
  - set (s1 := set_usages _ s).
    assert (pending_fit s1 ids) as H1 by exact Hfit.
    assert (foldl (process_block cfg t parent) s1 (default [] content)
            = match content with
              | Some blocks => foldl (process_block cfg t parent) s1 blocks
              | None => s1
              end) as Hfold by (destruct content; reflexivity).
    rewrite <- Hfold.
    destruct (blocks_pending_fit cfg t parent (default [] content) s1 ids
                Hnd H1) as [Hall Hend].
    assert (pending_fit
              (emitUsageIfDue t
                 (foldl (process_block cfg t parent) s1 (default [] content)))
              ids) as Hlast.
    { unfold pending_fit in *.
      destruct (emitUsageIfDue_counts t
                  (foldl (process_block cfg t parent) s1
                     (default [] content))) as (-> & ->).
      done. }
    split; [|done].
    constructor; [eapply pending_fit_counters_ok; eauto|].
    apply Forall_app. split; [done|].
    constructor; [eapply pending_fit_counters_ok; eauto|constructor].
  - destruct content as [blocks|]; simpl in *.
    + rewrite omap_result_ids in Hnd, Hfit.
      destruct (user_blocks_pending_fit t blocks s ids Hnd Hfit)
        as [Hall Hend].
      split; [|done].
      apply Forall_app. split; [done|].
      constructor; [eapply pending_fit_counters_ok; eauto|constructor].
    + split; [|done].
      constructor; [eapply pending_fit_counters_ok; eauto|constructor].
Qed.

Lemma history_counters_ok cfg stream s :
  NoDup (result_ids stream) -> pending_fit s (result_ids stream) ->
  Forall counters_ok (history cfg s stream).
Proof.
  revert s.
  induction stream as [|[t [m|e]] rest IH]; intros s Hnd Hfit; simpl;
    [constructor| |constructor].
  unfold result_ids in Hnd, Hfit. simpl in Hnd, Hfit.
  fold (result_ids rest) in Hnd, Hfit.
  destruct (message_pending_fit cfg t s m _ Hnd Hfit) as [Hall Hend].
  apply Forall_app. split; [done|].
  destruct (process_message cfg t s m) as [s' [e|]] eqn:Hpm; [constructor|].
  apply NoDup_app in Hnd as (_ & _ & Hnd).
  apply IH; done.
Qed.

Lemma message_states_last cfg t s m :
  last (message_states cfg t s m) = Some (process_message cfg t s m).1.
Proof.
  destruct m as [|parent u content|content| | |]; try reflexivity.
  - unfold message_states. rewrite app_comm_cons. apply last_snoc.
  - unfold message_states. apply last_snoc.
Qed.

(** The history ends in the state the loop ends in. *)
Lemma history_last cfg stream s :
  default s (last (history cfg s stream)) = (consume cfg s stream).1.
Proof.
  revert s. induction stream as [|[t [m|e]] rest IH]; intros s; simpl;
    [done| |done].
  rewrite last_app.
  pose proof (message_states_last cfg t s m) as Hlast.
  destruct (process_message cfg t s m) as [s' [e|]]; simpl in *.
  - by rewrite Hlast.
  - rewrite <- IH. destruct (last (history cfg s' rest)); simpl; [done|].
    by rewrite Hlast.
Qed.

(** C3, as the code has it. When no id is named by more than one
    [tool_result] block of the stream, the number of completed explorers
    never exceeds the number of delegated explorers: this holds at the
    start and in every state the loop passes through, block by block. *)
Theorem completed_le_total_unique_results
    (cfg : AgentConfig) (t0 : Z) (stream : list (Z * EngineStep)) :
  NoDup (result_ids stream) ->
  Forall (fun s => (completedExplorers (phases s)
                    <= totalExplorers (phases s))%nat)
    (start_state t0 :: history cfg (start_state t0) stream).
Proof.
  intros Hnd.
  assert (pending_fit (start_state t0) (result_ids stream)) as Hfit.
  { unfold pending_fit. simpl. rewrite filter_is_explorer_empty.
    simpl. lia. }
  constructor.
  - eapply pending_fit_counters_ok; eauto.
  - apply history_counters_ok; done.
Qed.
End ExplorerCounters.

(** ** Activity throttle *)

Section ActivityThrottle.
Import Orchestrator Observe.

Lemma new_events_app s s' evs :
  emitted s' = emitted s ++ evs -> new_events s s' = evs.
Proof. intros H. unfold new_events. rewrite H. apply drop_app_length. Qed.

Lemma activity_stamps_app l1 l2 :
  activity_stamps (l1 ++ l2) = activity_stamps l1 ++ activity_stamps l2.
Proof. apply omap_app. Qed.

Lemma silent_refl s : silent s s.
Proof. split; [done|]. exists []. by rewrite app_nil_r. Qed.

Lemma silent_trans s1 s2 s3 : silent s1 s2 -> silent s2 s3 -> silent s1 s3.
Proof.
  intros [H1 (e1 & He1 & Ha1)] [H2 (e2 & He2 & Ha2)].
  split; [congruence|]. exists (e1 ++ e2).
  rewrite He2, He1, app_assoc, activity_stamps_app, Ha1, Ha2. done.
Qed.

Lemma emit_silent ev s :
  activity_stamps [ev] = [] -> silent s (emit ev s).
Proof. intros H. split; [done|]. by exists [ev]. Qed.

Lemma emitPhase_silent t ph msg s : silent s (emitPhase t ph msg s).
Proof. split; [done|]. by exists [EvPhase t ph msg]. Qed.

Lemma emitProgress_silent t s : silent s (emitProgress t s).
Proof. split; [done|]. by eexists [_]. Qed.

Lemma emitUsageIfDue_silent t s : silent s (emitUsageIfDue t s).
Proof.
  at_one_instant.
  case_decide; [apply silent_refl|].
  split; [done|]. by eexists [_].
Qed.

Lemma silent_same s s' :
  activityThrottle s' = activityThrottle s -> emitted s' = emitted s ->
  silent s s'.
Proof. intros H1 H2. split; [done|]. exists []. by rewrite app_nil_r. Qed.

Lemma lead_text_silent t s : silent s (lead_text t s).
Proof.
  unfold lead_text. destruct (_ && _); [|apply silent_refl].
  eapply silent_trans; [apply emitPhase_silent|apply emitProgress_silent].
Qed.

Lemma detect_phase_silent t agentType s : silent s (detect_phase t agentType s).
Proof.
  unfold detect_phase. repeat case_decide; try apply silent_refl.
  - eapply silent_trans; [|apply emitPhase_silent]. by apply silent_same.
  - by apply silent_same.
  - eapply silent_trans; [|apply emitPhase_silent]. by apply silent_same.
Qed.

Lemma launch_task_silent cfg t i input s :
  silent s (launch_task cfg t i input s).
Proof.
  unfold launch_task.
  eapply silent_trans; [|apply emitProgress_silent].
  eapply silent_trans; [|by apply emit_silent].
  eapply silent_trans; [|apply detect_phase_silent].
  by apply silent_same.
Qed.

Lemma process_user_block_silent t s b : silent s (process_user_block t s b).
Proof.
  destruct b as [[i|]|]; simpl; try apply silent_refl.
  destruct (truthy i); simpl; [|apply silent_refl].
  destruct (taskMap s !! i) as [info|]; [|apply silent_refl].
  eapply silent_trans; [|apply emitUsageIfDue_silent].
  eapply silent_trans; [|by apply silent_same].
  eapply silent_trans; [|apply emitProgress_silent].
  eapply silent_trans; [|by apply emit_silent].
  repeat case_decide; by apply silent_same.
Qed.

Lemma silent_stamp s s' k : silent s s' -> stamp s' k = stamp s k.
Proof. intros [H _]. unfold stamp. by rewrite H. Qed.

(** The two outcomes of the throttle on a subagent tool invocation: inside
    the window, measured at the read of the gate, the state is returned
    as it is; outside, the time of the subtask is set to the second read
    and at most the one activity event is appended, stamped with the
    third read. *)
Lemma subagent_tool_use_at_cases r p name input s :
  (gate_read r - stamp s p < ACTIVITY_THROTTLE_MS
   /\ subagent_tool_use_at r p name input s = s)
  \/ (ACTIVITY_THROTTLE_MS <= gate_read r - stamp s p
      /\ activityThrottle (subagent_tool_use_at r p name input s)
         = <[p := stamp_read r]> (activityThrottle s)
      /\ exists evs,
          emitted (subagent_tool_use_at r p name input s) = emitted s ++ evs
          /\ activity_stamps evs
             = if truthy (activity_detail name input)
               then [event_read r] else []).
Proof.
  unfold subagent_tool_use_at. fold (stamp s p).
  case_decide as Hgate; [right|left; split; [lia|done]].
  split; [lia|].
  destruct (truthy (activity_detail name input)); simpl.
  - split; [done|]. by eexists [_].
  - split; [done|]. exists []. by rewrite app_nil_r.
Qed.

Lemma subagent_tool_use_cases t p name input s :
  (t - stamp s p < ACTIVITY_THROTTLE_MS
   /\ subagent_tool_use t p name input s = s)
  \/ (ACTIVITY_THROTTLE_MS <= t - stamp s p
      /\ activityThrottle (subagent_tool_use t p name input s)
         = <[p := t]> (activityThrottle s)
      /\ exists evs,
          emitted (subagent_tool_use t p name input s) = emitted s ++ evs
          /\ activity_stamps evs
             = if truthy (activity_detail name input) then [t] else []).
Proof. apply (subagent_tool_use_at_cases (at_once t)). Qed.

Lemma emitUsageIfDue_at_silent r s : silent s (emitUsageIfDue_at r s).
Proof.
  unfold emitUsageIfDue_at. case_decide; [apply silent_refl|].
  split; [done|]. by eexists [_].
Qed.

Lemma process_user_block_at_silent c i s b :
  silent s (process_user_block_at c i s b).
Proof.
  destruct b as [[x|]|]; simpl; try apply silent_refl.
  destruct (truthy x); simpl; [|apply silent_refl].
  destruct (taskMap s !! x) as [info|]; [|apply silent_refl].
  eapply silent_trans; [|apply emitUsageIfDue_at_silent].
  eapply silent_trans; [|by apply silent_same].
  eapply silent_trans; [|apply emitProgress_silent].
  eapply silent_trans; [|by apply emit_silent].
  repeat case_decide; by apply silent_same.
Qed.

Lemma user_blocks_at_silent c blocks i s :
  silent s (foldl_at (process_user_block_at c) i s blocks).
Proof.
  revert i s. induction blocks as [|b blocks IH]; intros i s; simpl;
    [apply silent_refl|].
  eapply silent_trans; [apply process_user_block_at_silent|apply IH].
Qed.

Lemma spaced_app d l1 l2 :
  spaced d l1 -> spaced d l2 ->
  Forall (fun a => Forall (fun b => d <= b - a) l2) l1 ->
  spaced d (l1 ++ l2).
Proof.
  intros H1 H2 Hx. induction l1 as [|a l1 IH]; [done|].
  apply Forall_cons in Hx as [Ha Hx].
  destruct H1 as [Hh H1]. simpl. split; [|by apply IH].
  destruct l1 as [|b l1]; simpl.
  - destruct l2 as [|b l2]; [done|]. by apply Forall_cons in Ha as [Hb _].
  - done.
Qed.

Lemma paced_at_refl k lag s : paced_at k lag s s.
Proof.
  exists []. rewrite app_nil_r. split; [done|]. split; [lia|].
  split; [constructor|done].
Qed.

Lemma silent_paced_at k lag s s' : silent s s' -> paced_at k lag s s'.
Proof.
  intros Hs. pose proof (silent_stamp s s' k Hs) as Hst.
  destruct Hs as [_ (evs & He & Ha)]. exists evs. split; [done|].
  rewrite Ha. split; [lia|]. split; [constructor|done].
Qed.

Lemma paced_at_trans k lag s1 s2 s3 :
  paced_at k lag s1 s2 -> paced_at k lag s2 s3 -> paced_at k lag s1 s3.
Proof.
  intros (e1 & He1 & Hm1 & Hb1 & Hs1) (e2 & He2 & Hm2 & Hb2 & Hs2).
  exists (e1 ++ e2). rewrite He2, He1, app_assoc, activity_stamps_app.
  split; [done|]. split; [lia|]. split.
  - apply Forall_app. split.
    + eapply Forall_impl; [exact Hb1|]. intros a Ha. simpl in Ha. lia.
    + eapply Forall_impl; [exact Hb2|]. intros a Ha. simpl in Ha. lia.
  - apply spaced_app; [done|done|].
    eapply Forall_impl; [exact Hb1|]. intros a Ha. simpl in Ha.
    eapply Forall_impl; [exact Hb2|]. intros b Hb. simpl in Hb. lia.
Qed.

Lemma subagent_tool_use_at_paced r k lag name input s :
  steady lag r -> paced_at k lag s (subagent_tool_use_at r k name input s).
Proof.
  intros (Hgs & Hse & Hlag).
  destruct (subagent_tool_use_at_cases r k name input s)
    as [[_ ->]|(Hgate & Hmap & evs & He & Ha)]; [apply paced_at_refl|].
  assert (stamp (subagent_tool_use_at r k name input s) k = stamp_read r)
    as Hst by (unfold stamp; by rewrite Hmap, lookup_insert_eq).
  exists evs. split; [done|]. rewrite Hst, Ha.
  unfold ACTIVITY_THROTTLE_MS in *. split; [lia|].
  destruct (truthy _); simpl.
  - split; [|done]. constructor; [lia|constructor].
  - split; [constructor|done].
Qed.

Lemma process_block_at_paced cfg c k lag i s b :
  steady lag (reads c i) ->
  paced_at k lag s (process_block_at cfg c (Some k) i s b).
Proof.
  intros Hr.
  destruct b as [text|x name input|]; simpl; [| |apply paced_at_refl].
  - rewrite andb_false_r. apply paced_at_refl.
  - eapply paced_at_trans with
      (s2 := if decide (name = "Task")
             then launch_task cfg (instant c) x input s else s).
    + case_decide; [|apply paced_at_refl].
      apply silent_paced_at, launch_task_silent.
    + destruct (truthy k); [|apply paced_at_refl].
      by apply subagent_tool_use_at_paced.
Qed.

Lemma blocks_at_paced cfg c k lag blocks i s :
  (forall j, steady lag (reads c j)) ->
  paced_at k lag s (foldl_at (process_block_at cfg c (Some k)) i s blocks).
Proof.
  intros Hr. revert i s.
  induction blocks as [|b blocks IH]; intros i s; simpl;
    [apply paced_at_refl|].
  eapply paced_at_trans; [by apply process_block_at_paced|apply IH].
Qed.

(** A message of subtask [k]. *)
Lemma message_at_paced cfg c k lag s u content :
  (forall j, steady lag (reads c j)) ->
  paced_at k lag s
    (process_message_at cfg c s (MAssistant (Some k) u content)).1.
Proof.
  intros Hr. simpl.
  eapply paced_at_trans; [|apply silent_paced_at, emitUsageIfDue_at_silent].
  eapply paced_at_trans with
    (s2 := set_usages (accumulate_usage (Some k) u (usages s)) s);
    [by apply silent_paced_at, silent_same|].
  destruct content as [blocks|];
    [by apply blocks_at_paced|apply paced_at_refl].
Qed.

Lemma subagent_tool_use_at_other_stamp r p name input s k :
  p <> k -> stamp (subagent_tool_use_at r p name input s) k = stamp s k.
Proof.
  intros Hne.
  destruct (subagent_tool_use_at_cases r p name input s)
    as [[_ ->]|(_ & Hmap & _)]; [done|].
  unfold stamp. by rewrite Hmap, lookup_insert_ne.
Qed.

Lemma process_block_at_other_stamp cfg c parent i s b k :
  parent <> Some k ->
  stamp (process_block_at cfg c parent i s b) k = stamp s k.
Proof.
  intros Hne. destruct b as [text|x name input|]; simpl; [| |done].
  - destruct (_ && _); [|done]. apply silent_stamp, lead_text_silent.
  - assert (stamp (if decide (name = "Task")
                   then launch_task cfg (instant c) x input s else s) k
            = stamp s k) as H1.
    { case_decide; [|done]. apply silent_stamp, launch_task_silent. }
    destruct parent as [p|]; [|done].
    destruct (truthy p); [|done].
    rewrite subagent_tool_use_at_other_stamp; [done|congruence].
Qed.

Lemma blocks_at_other_stamp cfg c parent blocks i s k :
  parent <> Some k ->
  stamp (foldl_at (process_block_at cfg c parent) i s blocks) k = stamp s k.
Proof.
  intros Hne. revert i s.
  induction blocks as [|b blocks IH]; intros i s; simpl; [done|].
  rewrite IH. by apply process_block_at_other_stamp.
Qed.

(** A message that is not of subtask [k] leaves the throttle time of [k]
    alone. *)
Lemma message_at_other_stamp cfg c s m k :
  parent_of m <> Some k ->
  stamp (process_message_at cfg c s m).1 k = stamp s k.
Proof.
  intros Hne.
  destruct m as [|parent usage content|content|? ? ? ?|? ? ?|]; simpl in *;
    try done.
  - rewrite (silent_stamp _ _ k (emitUsageIfDue_at_silent _ _)).
    destruct content as [blocks|]; [|done].
    by rewrite blocks_at_other_stamp.
  - destruct content as [blocks|]; [|done].
    apply silent_stamp, user_blocks_at_silent.
Qed.

Lemma spaced_lookup d l i a b :
  spaced d l -> l !! i = Some a -> l !! S i = Some b -> d <= b - a.
Proof.
  revert i. induction l as [|x l IH]; intros i Hsp Ha Hb; [done|].
  destruct i as [|i].
  - simpl in Ha, Hb. destruct l as [|y l]; [done|].
    simpl in Hb. destruct Hsp as [Hd _]. congruence.
  - simpl in Ha, Hb. destruct Hsp as [_ Hsp]. eapply IH; eauto.
Qed.

(** Every activity event of [k] still to come is a whole interval after
    the time stored now, and two in a row are an interval less the lag
    apart. *)
Lemma activity_times_at_spaced cfg k lag stream s :
  Forall (steady_step lag) stream ->
  Forall (fun a => ACTIVITY_THROTTLE_MS <= a - stamp s k)
    (activity_times_at cfg k s stream)
  /\ spaced (ACTIVITY_THROTTLE_MS - lag) (activity_times_at cfg k s stream).
Proof.
  intros Hst. revert s.
  induction Hst as [|[c [m|e]] rest Hc _ IH]; intros s;
    cbn [activity_times_at]; [done| |done].
  unfold steady_step in Hc. simpl in Hc.
  pose proof (message_at_other_stamp cfg c s m k) as Hother.
  assert (parent_of m = Some k ->
          paced_at k lag s (process_message_at cfg c s m).1) as Hpaced.
  { intros Hp. destruct m as [|parent u content| | | |]; simpl in Hp;
      try discriminate. subst. by apply message_at_paced. }
  destruct (process_message_at cfg c s m) as [s' oe] eqn:Hpm.
  simpl in Hother, Hpaced.
  set (tail := match oe with
               | Some _ => []
               | None => activity_times_at cfg k s' rest
               end).
  assert (Forall (fun a => ACTIVITY_THROTTLE_MS <= a - stamp s' k) tail
          /\ spaced (ACTIVITY_THROTTLE_MS - lag) tail) as [Htail Hsp].
  { subst tail. destruct oe; [done|]. apply IH. }
  case_decide as Hp.
  - destruct (Hpaced Hp) as (evs & He & Hmono & Hb & Hs).
    cbn [fst]. rewrite (new_events_app _ _ _ He). split.
    + apply Forall_app. split.
      * eapply Forall_impl; [exact Hb|]. intros a Ha. simpl in Ha. lia.
      * eapply Forall_impl; [exact Htail|]. intros a Ha. simpl in Ha. lia.
    + apply spaced_app; [done|done|].
      eapply Forall_impl; [exact Hb|]. intros a Ha. simpl in Ha.
      eapply Forall_impl; [exact Htail|]. intros b Hb'. simpl in Hb'. lia.
  - simpl. rewrite <- (Hother Hp). by split.
Qed.

(** The loop with every clock read is the loop of one instant per
    iteration when the clock stands still inside the iterations. *)
Lemma process_block_at_still cfg t parent i s b :
  process_block_at cfg (still t) parent i s b = process_block cfg t parent s b.
Proof. by destruct b. Qed.

Lemma process_user_block_at_still t i s b :
  process_user_block_at (still t) i s b = process_user_block t s b.
Proof. by destruct b. Qed.

Lemma foldl_at_still {B : Type} (f : nat -> State -> B -> State)
    (g : State -> B -> State) (blocks : list B) i s :
  (forall i s b, f i s b = g s b) ->
  foldl_at f i s blocks = foldl g s blocks.
Proof.
  intros Hfg. revert i s.
  induction blocks as [|b blocks IH]; intros i s; simpl; [done|].
  by rewrite Hfg, IH.
Qed.

Lemma process_message_at_still cfg t s m :
  process_message_at cfg (still t) s m = process_message cfg t s m.
Proof.
  destruct m as [|parent usage content|content| | |]; simpl; try done.
  - destruct content as [blocks|]; [|done].
    rewrite (foldl_at_still _ (process_block cfg t parent)); [done|].
    intros. apply process_block_at_still.
  - destruct content as [blocks|]; [|done].
    rewrite (foldl_at_still _ (process_user_block t)); [done|].
    intros. apply process_user_block_at_still.
Qed.

Lemma consume_at_still cfg stream s :
  consume_at cfg s (still_stream stream) = consume cfg s stream.
Proof.
  revert s. induction stream as [|[t [m|e]] rest IH]; intros s; simpl;
    [done| |done].
  rewrite process_message_at_still.
  destruct (process_message cfg t s m) as [s' [e|]]; [done|apply IH].
Qed.

Lemma runReview_at_still cfg t0 stream tend :
  runReview_at cfg t0 (still_stream stream) tend
  = runReview cfg t0 stream tend.
Proof. unfold runReview_at, runReview. by rewrite consume_at_still. Qed.

Lemma still_stream_steady stream :
  Forall (steady_step 0) (still_stream stream).
Proof.
  unfold still_stream. apply Forall_fmap, Forall_forall.
  intros [t e] _ k. unfold steady. simpl. lia.
Qed.

(** On a clock that stands still inside every iteration, the activity
    events of one subtask are a whole interval apart. *)
Lemma activity_times_still_spaced cfg k s stream :
  spaced ACTIVITY_THROTTLE_MS
    (activity_times_at cfg k s (still_stream stream)).
Proof.
  destruct (activity_times_at_spaced cfg k 0 (still_stream stream) s
              (still_stream_steady stream)) as [_ H].
  by rewrite Z.sub_0_r in H.
Qed.

(** C8, with the clock read where the code reads it. The gate of the
    throttle, the time it stores and the timestamp of the event are
    three reads of the clock. On a clock that does not go back between
    them and advances by at most [lag] between the second and the third,
    any two consecutive activity events emitted for one subtask
    correlation id carry timestamps at least the throttle interval less
    [lag] apart, from every starting state and on every stream; and a
    tool invocation whose gate read falls inside the window is dropped
    whole: the state, its log and its throttle map included, is returned
    as it was, so nothing is kept for later. *)
Theorem activity_events_throttled
    (cfg : AgentConfig) (k : string) (lag : Z) (s : State)
    (stream : list (Tick * EngineStep)) (i : nat) (a b : Z)
    (r : Reads) (name : string) (input : ToolInput) (s0 : State) :
  (Forall (steady_step lag) stream ->
   activity_times_at cfg k s stream !! i = Some a ->
   activity_times_at cfg k s stream !! S i = Some b ->
   ACTIVITY_THROTTLE_MS - lag <= b - a)
  /\ (gate_read r - stamp s0 k < ACTIVITY_THROTTLE_MS ->
      subagent_tool_use_at r k name input s0 = s0).
Proof.
  split.
  - intros Hst. apply spaced_lookup. by apply activity_times_at_spaced.
  - intros Hin.
    destruct (subagent_tool_use_at_cases r k name input s0)
      as [[_ H]|[Hout _]]; [done|lia].
Qed.
End ActivityThrottle.

Section IneligibleInvocations.
Import Orchestrator Observe Samples.

Lemma ineligible_detail name input :
  ~ eligible name input -> activity_detail name input = EmptyString.
Proof.
  intros Hne. unfold activity_detail, eligible in *.
  repeat case_bool_decide; simpl;
    destruct (truthy_opt (file_path input)) eqn:Hf;
    destruct (truthy_opt (pattern input)) eqn:Hp;
    simpl; try reflexivity; exfalso; apply Hne; auto.
Qed.

Lemma tool_use_block_split cfg t k s i name input :
  truthy k = true ->
  exists s1,
    silent s s1
    /\ process_block cfg t (Some k) s (BToolUse i name input)
       = subagent_tool_use t k name input s1.
Proof.
  intros Hk. simpl. rewrite Hk.
  exists (if decide (name = "Task") then launch_task cfg t i input s else s).
  split; [|done].
  case_decide; [apply launch_task_silent|apply silent_refl].
Qed.

(** C10, as the code has it. A tool invocation of a subtask that is not
    eligible for an activity event, and that arrives at least the
    throttle interval after the stored timestamp of the subtask, emits no
    activity event and still moves that timestamp to its own instant; any
    invocation of the same subtask, eligible or not, that arrives less
    than the throttle interval later then emits no activity event and
    leaves the timestamp where it is. *)
Theorem ineligible_invocation_takes_the_window
    (cfg : AgentConfig) (t : Z) (k : string) (s : State)
    (i name : string) (input : ToolInput)
    (t' : Z) (i' name' : string) (input' : ToolInput) :
  truthy k = true ->
  ~ eligible name input ->
  ACTIVITY_THROTTLE_MS <= t - stamp s k ->
  t' - t < ACTIVITY_THROTTLE_MS ->
  let s1 := process_block cfg t (Some k) s (BToolUse i name input) in
  let s2 := process_block cfg t' (Some k) s1 (BToolUse i' name' input') in
  activity_stamps (new_events s s1) = []
  /\ stamp s1 k = t
  /\ activity_stamps (new_events s1 s2) = []
  /\ stamp s2 k = t.
Proof.
  intros Hk Hne Hout Hin s1 s2.
  destruct (tool_use_block_split cfg t k s i name input Hk)
    as (sa & Hsa & Heq).
  destruct (tool_use_block_split cfg t' k s1 i' name' input' Hk)
    as (sb & Hsb & Heq').
  fold s1 in Heq. fold s2 in Heq'.
  pose proof (silent_stamp _ _ k Hsa) as Hsta.
  pose proof (silent_stamp _ _ k Hsb) as Hstb.
  destruct Hsa as [_ (ea & Hea & Haa)]. destruct Hsb as [_ (eb & Heb & Hab)].
  assert (activity_stamps (new_events s s1) = [] /\ stamp s1 k = t)
    as [He1 Hs1].
  { rewrite Heq.
    destruct (subagent_tool_use_cases t k name input sa)
      as [[Hgate _]|(_ & Hmap & evs & He & Ha)]; [lia|].
    rewrite (ineligible_detail _ _ Hne) in Ha. simpl in Ha.
    split.
    - rewrite (new_events_app s _ (ea ++ evs)).
      + by rewrite activity_stamps_app, Haa, Ha.
      + by rewrite He, Hea, app_assoc.
    - unfold stamp. by rewrite Hmap, lookup_insert_eq. }
  assert (s2 = sb) as Hs2.
  { rewrite Heq'.
    destruct (subagent_tool_use_cases t' k name' input' sb)
      as [[_ H]|(Hgate & _)]; [done|]. lia. }
  rewrite Hs2, (new_events_app _ _ _ Heb).
  repeat split; try done. congruence.
Qed.

Lemma ineligible_invocation_takes_the_window_witness :
  let s1 := process_block sample_cfg 5000 (Some "e1") (start_state 0)
              run_bash in
  let s2 := process_block sample_cfg 5700 (Some "e1") s1
              (read_file "src/a.ts") in
  activity_stamps (new_events (start_state 0) s1) = []
  /\ stamp s1 "e1" = 5000
  /\ activity_stamps (new_events s1 s2) = []
  /\ stamp s2 "e1" = 5000.
Proof.
  apply (ineligible_invocation_takes_the_window sample_cfg 5000 "e1"
           (start_state 0) "tu" "Bash" (mkToolInput None None None None)
           5700 "tu" "Read" (mkToolInput None None (Some "src/a.ts") None)).
  - reflexivity.
  - intros [[H _]|[[H _]|[H _]]]; discriminate H.
  - vm_compute. discriminate.
  - reflexivity.
Defined.

(** C10, as stated, fails inside the window: a non-eligible invocation
    that arrives 500 ms after an emitted read leaves the timestamp at the
    read's instant, and a read arriving 700 ms after the non-eligible
    invocation is emitted. *)
Lemma ineligible_invocation_inside_window_keeps_stamp :
  ~ eligible "Bash" (mkToolInput None None None None)
  /\ stamp after_first_read "e1" = 5000
  /\ activity_stamps (new_events after_first_read after_bash_in_window) = []
  /\ stamp after_bash_in_window "e1" = 5000
  /\ 6200 - 5500 < ACTIVITY_THROTTLE_MS
  /\ activity_stamps (new_events after_bash_in_window after_second_read)
     = [6200].
Proof.
  split; [intros [[H _]|[[H _]|[H _]]]; discriminate H|].
  vm_compute. repeat split; reflexivity.
Qed.
End IneligibleInvocations.

(** ** Witnesses and counterexamples for the counters and the throttle *)

Section CounterSamples.
Import Orchestrator Observe Samples.

Lemma completed_le_total_unique_results_witness :
  Forall (fun s => (completedExplorers (phases s)
                    <= totalExplorers (phases s))%nat)
    (start_state 0 :: history sample_cfg (start_state 0) three_of_three).
Proof.
  apply (completed_le_total_unique_results sample_cfg 0 three_of_three).
  apply (bool_decide_unpack _). vm_compute. exact I.
Defined.

(** C3, as stated, fails when a result is delivered twice: after the
    second [tool_result] for the only explorer, two completions stand
    against one delegation. *)
Lemma duplicate_result_overcounts :
  ~ NoDup (result_ids result_twice)
  /\ map (fun s => (completedExplorers (phases s),
                    totalExplorers (phases s)))
       (history sample_cfg (start_state 0) result_twice)
     = [(0, 0); (0, 1); (0, 1); (1, 1); (1, 1); (2, 1); (2, 1)]%nat
  /\ ~ Forall (fun s => (completedExplorers (phases s)
                         <= totalExplorers (phases s))%nat)
         (start_state 0 :: history sample_cfg (start_state 0) result_twice).
Proof.
  split; [|split].
  - intros H. apply (bool_decide_pack _) in H. vm_compute in H. exact H.
  - vm_compute. reflexivity.
  - intros H.
    apply (Forall_fmap (fun s => (completedExplorers (phases s),
                                  totalExplorers (phases s)))
             (fun q => (q.1 <= q.2)%nat)) in H.
    apply (bool_decide_pack _) in H. vm_compute in H. exact H.
Qed.

Lemma activity_events_throttled_witness :
  ACTIVITY_THROTTLE_MS - 1 <= 6000 - 5001
  /\ subagent_tool_use_at (mkReads 5400 5401 5402) "e1" "Read"
       (mkToolInput None None (Some "src/b.ts") None) after_first_read
     = after_first_read.
Proof.
  destruct (activity_events_throttled sample_cfg "e1" 1 (start_state 0)
              drifting_reads 0 5001 6000 (mkReads 5400 5401 5402) "Read"
              (mkToolInput None None (Some "src/b.ts") None)
              after_first_read) as [Hgap Hdrop].
  split.
  - apply Hgap; [|vm_compute; reflexivity|vm_compute; reflexivity].
    repeat constructor; unfold steady; simpl; lia.
  - apply Hdrop. vm_compute. reflexivity.
Defined.

Lemma still_reads_times :
  activity_times_at sample_cfg "e1" (start_state 0) still_reads
  = [5000; 6200].
Proof. vm_compute. reflexivity. Qed.

(** C8, as stated, fails when the clock advances between the read that
    the throttle stores and the read that stamps the event: the first
    read is stored at 5000 and stamped 5001, the second passes the gate
    at 6000, a whole interval after the stored time, and the two events
    are 999 ms apart. *)
Lemma activity_events_closer_than_interval :
  Forall (steady_step 1) drifting_reads
  /\ activity_times_at sample_cfg "e1" (start_state 0) drifting_reads
     = [5001; 6000]
  /\ activity_stamps (runReview_at sample_cfg 0 drifting_reads 7000).1
     = [5001; 6000]
  /\ 6000 - 5001 < ACTIVITY_THROTTLE_MS.
Proof.
  split; [repeat constructor; unfold steady; simpl; lia|].
  vm_compute. repeat split; reflexivity.
Qed.
End CounterSamples.

(** ** Phase transitions *)

Section PhaseTransitions.
Import Orchestrator Observe Samples.

Lemma launch_task_phase cfg t i input s :
  let agentType := default "unknown" (subagent_type input) in
  currentPhase (phases (launch_task cfg t i input s))
  = if decide (agentType = "codebase-explorer")
    then (if decide (currentPhase (phases s) = Understanding)
          then Exploring else currentPhase (phases s))
    else if decide (agentType = "senior-developer")
         then Analyzing else currentPhase (phases s).
Proof.
  unfold launch_task, detect_phase. simpl.
  repeat case_decide; simpl in *; congruence.
Qed.

(** Where the phase can step back: every content block of the lead or of
    a subtask moves the current phase forward in the fixed order or
    leaves it, except a senior-developer delegation, which sets it to
    analyzing whatever it was. *)
Lemma process_block_phase_forward cfg t parent s b :
  (phase_rank (currentPhase (phases s))
   <= phase_rank (currentPhase (phases (process_block cfg t parent s b))))%nat
  \/ (exists i input,
         b = BToolUse i "Task" input
         /\ default "unknown" (subagent_type input) = "senior-developer"
         /\ currentPhase (phases s) = Synthesizing
         /\ currentPhase (phases (process_block cfg t parent s b))
            = Analyzing).
Proof.
  destruct b as [text|i name input|]; simpl; [| |left; lia].
  - left. destruct (_ && _); [|lia]. unfold lead_text.
    destruct (_ && _); simpl; [|lia].
    destruct (currentPhase (phases s)); simpl; lia.
  - set (s1 := if decide (name = "Task") then _ else s).
    assert (currentPhase (phases (match parent with
                                  | Some p =>
                                      if truthy p
                                      then subagent_tool_use t p name input s1
                                      else s1
                                  | None => s1
                                  end))
            = currentPhase (phases s1)) as ->.
    { destruct parent as [p|]; [|done]. destruct (truthy p); [|done].
      by destruct (subagent_tool_use_counts t p name input s1) as [-> _]. }
    subst s1. case_decide as Hname; [|left; lia]. subst name.
    rewrite launch_task_phase. cbv zeta.
    destruct (decide (default "unknown" (subagent_type input)
                      = "codebase-explorer")) as [Hex|Hex].
    + left.
      destruct (decide (currentPhase (phases s) = Understanding))
        as [Hu|Hu]; [rewrite Hu; simpl; lia|lia].
    + destruct (decide (default "unknown" (subagent_type input)
                        = "senior-developer")) as [Hsd|Hsd];
        [|left; lia].
      destruct (currentPhase (phases s)) eqn:Hph; simpl;
        try (left; lia).
      right. exists i, input. done.
Qed.

(** Results of delegations never change the current phase. *)
Lemma process_user_block_phase t s b :
  currentPhase (phases (process_user_block t s b)) = currentPhase (phases s).
Proof.
  destruct b as [[i|]|]; simpl; try done.
  destruct (truthy i); simpl; [|done].
  destruct (taskMap s !! i) as [info|]; [|done].
  match goal with
  | |- context [emitUsageIfDue t ?x] =>
      destruct (emitUsageIfDue_counts t x) as (-> & _)
  end.
  simpl. repeat case_decide; done.
Qed.

(** C1 on the code. A second senior-developer delegation that follows
    the lead's first text after the first senior-developer result makes
    [runReview] emit the phases understanding, analyzing, synthesizing,
    analyzing: the last [phase] event names an earlier phase than the one
    before it. *)
Theorem phase_steps_back_on_second_senior_developer :
  phase_events (runReview sample_cfg 0 second_opinion 5000).1
  = [Understanding; Analyzing; Synthesizing; Analyzing]
  /\ ~ never_decreases
         (phase_events (runReview sample_cfg 0 second_opinion 5000).1).
Proof.
  assert (phase_events (runReview sample_cfg 0 second_opinion 5000).1
          = [Understanding; Analyzing; Synthesizing; Analyzing]) as Hev
    by (vm_compute; reflexivity).
  split; [exact Hev|].
  rewrite Hev. intros Hmono.
  specialize (Hmono 2%nat 3%nat Synthesizing Analyzing).
  simpl in Hmono. specialize (Hmono ltac:(lia) eq_refl eq_refl). lia.
Qed.
End PhaseTransitions.

(** ** Progress percentage *)

Section ProgressPercent.
Import Orchestrator Observe Samples.

Lemma progress_percents_app l1 l2 :
  progress_percents (l1 ++ l2) = progress_percents l1 ++ progress_percents l2.
Proof. apply omap_app. Qed.

Lemma js_round_rounds_to (x : Q) : rounds_to x (js_round x).
Proof.
  unfold rounds_to, js_round.
  pose proof (Qfloor_le (x + (1 # 2))) as Hle.
  pose proof (Qlt_floor (x + (1 # 2))) as Hlt.
  rewrite inject_Z_plus in Hlt.
  split.
  - apply Qplus_le_l with (z := (1 # 2)%Q). ring_simplify.
    ring_simplify in Hle. exact Hle.
  - apply Qplus_lt_l with (z := (1 # 2)%Q).
    eapply Qlt_le_trans; [exact Hlt|].
    apply Qle_lteq. right. ring.
Qed.


(** Exhibit the events a step appended, flattening nested appends. *)
Ltac appended_events :=
  eexists; split; [simpl; rewrite <- ?app_assoc; reflexivity|reflexivity].

Lemma calm_same s s' :
  phases s' = phases s -> emitted s' = emitted s -> calm s s'.
Proof. intros H1 H2. split; [done|]. exists []. by rewrite app_nil_r. Qed.

Lemma calm_trans s1 s2 s3 : calm s1 s2 -> calm s2 s3 -> calm s1 s3.
Proof.
  intros [H1 (e1 & He1 & Hp1)] [H2 (e2 & He2 & Hp2)].
  split; [congruence|]. exists (e1 ++ e2).
  rewrite He2, He1, app_assoc, progress_percents_app, Hp1, Hp2. done.
Qed.

Lemma reported_calm s1 s2 s3 : reported s1 s2 -> calm s2 s3 -> reported s1 s3.
Proof.
  intros (e1 & He1 & Hp1) [H2 (e2 & He2 & Hp2)].
  exists (e1 ++ e2).
  rewrite He2, He1, app_assoc, progress_percents_app, Hp1, Hp2, H2. done.
Qed.

Lemma emitUsageIfDue_calm t s : calm s (emitUsageIfDue t s).
Proof.
  at_one_instant.
  case_decide; [by apply calm_same|].
  split; [done|]. by eexists [_].
Qed.

Lemma subagent_tool_use_calm t p name input s :
  calm s (subagent_tool_use t p name input s).
Proof.
  at_one_instant.
  case_decide; [|by apply calm_same].
  destruct (truthy _); [|by apply calm_same].
  split; [done|]. by eexists [_].
Qed.

Lemma lead_text_reported t s : lead_text t s = s \/ reported s (lead_text t s).
Proof.
  unfold lead_text. destruct (_ && _); [right|by left].
  appended_events.
Qed.

Lemma launch_task_reported cfg t i input s :
  reported s (launch_task cfg t i input s).
Proof.
  unfold launch_task, detect_phase.
  repeat case_decide; appended_events.
Qed.

(** Every content block of an assistant message appends at most one
    progress event, and that event carries the policy's percent for the
    state the block leaves. *)
Lemma process_block_progress cfg t parent s b :
  let s' := process_block cfg t parent s b in
  progress_percents (new_events s s') = []
  \/ progress_percents (new_events s s') = [(progress_of (phases s')).1].
Proof.
  assert (forall s', calm s s' -> progress_percents (new_events s s') = [])
    as Hcalm.
  { intros s' [_ (evs & He & Hp)]. by rewrite (new_events_app _ _ _ He). }
  assert (forall s', reported s s' ->
            progress_percents (new_events s s')
            = [(progress_of (phases s')).1]) as Hrep.
  { intros s' (evs & He & Hp). by rewrite (new_events_app _ _ _ He). }
  destruct b as [text|i name input|]; simpl.
  - destruct (_ && _); [|left; by apply Hcalm, calm_same].
    destruct (lead_text_reported t s) as [->|H];
      [left; by apply Hcalm, calm_same|right; by apply Hrep].
  - case_decide.
    + right. apply Hrep.
      eapply reported_calm; [apply launch_task_reported|].
      destruct parent as [p|]; [|by apply calm_same].
      destruct (truthy p); [|by apply calm_same].
      apply subagent_tool_use_calm.
    + left. apply Hcalm.
      destruct parent as [p|]; [|by apply calm_same].
      destruct (truthy p); [|by apply calm_same].
      apply subagent_tool_use_calm.
  - left. by apply Hcalm, calm_same.
Qed.

(** The same for every content block of a user message. *)
Lemma process_user_block_progress t s b :
  let s' := process_user_block t s b in
  progress_percents (new_events s s') = []
  \/ progress_percents (new_events s s') = [(progress_of (phases s')).1].
Proof.
  assert (progress_percents (new_events s s) = []) as Hsame.
  { rewrite (new_events_app s s []); [done|by rewrite app_nil_r]. }
  destruct b as [[i|]|]; simpl; try (by left).
  destruct (truthy i); simpl; [|by left].
  destruct (taskMap s !! i) as [info|]; [|by left].
  right.
  match goal with
  | |- context [emitUsageIfDue t (set_usages ?u (emitProgress t ?x))] =>
      assert (reported s (emitUsageIfDue t (set_usages u (emitProgress t x))))
        as (evs & He & Hp)
  end.
  { eapply reported_calm; [|apply emitUsageIfDue_calm].
    eapply reported_calm; [|by apply calm_same].
    repeat case_decide; appended_events. }
  by rewrite (new_events_app _ _ _ He).
Qed.




(** With more completions than delegations the two can differ: at 41
    completions of 20 delegations the interpolation is 112.5 exactly and
    rounds to 113, while binary64 computes 112.49999999999999 and
    rounds to 112. *)
Lemma percent64_tie :
  percent64 41 20 = Some 112
  /\ js_round (10 + 50 * (nat_to_Q 41 / nat_to_Q 20))%Q = 113.
Proof. split; vm_compute; reflexivity. Qed.



End ProgressPercent.

(** ** Failure handling *)

Section Failures.
Import Orchestrator Observe Routes Samples.

Lemma process_message_failure cfg t s m :
  (process_message cfg t s m).2
  = match m with
    | MResultFailure subtype errors_json _ =>
        Some (agent_failed subtype errors_json)
    | _ => None
    end.
Proof. destruct m; reflexivity. Qed.

(** The loop ends with the first failure of the stream, if there is one. *)
Lemma consume_failure cfg stream s :
  (consume cfg s stream).2 = engine_failure stream.
Proof.
  revert s. induction stream as [|[t [m|e]] rest IH]; intros s; simpl;
    [done| |done].
  pose proof (process_message_failure cfg t s m) as Hm.
  destruct (process_message cfg t s m) as [s' oe]. simpl in Hm. subst oe.
  destruct m; simpl; try apply IH. reflexivity.
Qed.

Lemma write_disk cid f srv : disk (write cid f srv) = disk srv.
Proof. unfold write. by destruct (connections srv !! cid). Qed.

Lemma emit_progress_disk em ev srv : disk (emit_progress em ev srv) = disk srv.
Proof.
  unfold emit_progress. generalize (listeners_of em srv). intros l.
  revert srv. induction l as [|x l IH]; intros srv; simpl; [done|].
  by rewrite IH, write_disk.
Qed.

Lemma publish_disk em events srv :
  disk (foldl (fun acc ev => emit_progress em ev acc) srv events) = disk srv.
Proof.
  revert srv. induction events as [|ev events IH]; intros srv; simpl; [done|].
  by rewrite IH, emit_progress_disk.
Qed.

(** C5, as the code has it. When the engine throws, or yields a
    non-success result, while [runReview] consumes its stream, the
    events of [runReview] end with a [complete] event of status error
    that carries the failure's message, and the call raises that same
    failure; the background process then stores status error for the
    job, and stores the message as the job's error when the message is
    not empty (an empty message leaves the stored error as it was). *)
Theorem engine_failure_reported_and_recorded
    (cfg : AgentConfig) (env : RunEnv) (run : BackgroundRun) (srv : Server)
    (meta : Storage.ReviewMeta) (content : string) (t : Z) (e : Thrown) :
  Storage.getReviewMeta (run_reviewId run) (disk srv) = Some meta ->
  prd env = Ok content ->
  engine_failure (engine env) = Some (t, e) ->
  (exists log,
      runReview cfg (t_start env) (engine env) (t_end env)
      = (log ++ [EvComplete t StError (Some (failure_message e))],
         Raised e))
  /\ (exists meta',
         Storage.getReviewMeta (run_reviewId run)
           (disk (review_process cfg env run srv)) = Some meta'
         /\ Storage.status meta' = StError
         /\ (failure_message e <> EmptyString ->
             Storage.error meta' = Some (failure_message e))
         /\ (failure_message e = EmptyString ->
             Storage.error meta' = Storage.error meta)).
Proof.
  intros Hmeta Hprd Hfail.
  pose proof (consume_failure cfg (engine env) (start_state (t_start env)))
    as Hcons.
  rewrite Hfail in Hcons.
  assert (exists s,
             runReview cfg (t_start env) (engine env) (t_end env)
             = (emitted s ++ [EvComplete t StError (Some (failure_message e))],
                Raised e)) as [s Hrun].
  { unfold runReview.
    destruct (consume cfg (start_state (t_start env)) (engine env))
      as [s oe]. simpl in Hcons. subst oe. by exists s. }
  split; [by exists (emitted s)|].
  unfold review_process, Storage.updateReviewStatus at 1.
  rewrite Hmeta, Hprd, Hrun. simpl.
  unfold record_failure, Storage.updateReviewStatus, Storage.getReviewMeta.
  rewrite publish_disk. simpl. rewrite lookup_insert_eq. simpl.
  rewrite lookup_insert_eq.
  eexists. split; [reflexivity|]. simpl. split; [reflexivity|].
  destruct (failure_message e) as [|c m]; simpl; split; done.
Qed.

Lemma engine_failure_reported_and_recorded_witness :
  (exists log,
      runReview sample_cfg 600 throws_boom 9000
      = (log ++ [EvComplete 5000 StError (Some "boom")],
         Raised (ThrownError "boom")))
  /\ (exists meta',
         Storage.getReviewMeta "r1"
           (disk (review_process sample_cfg (env_with throws_boom) sample_run
                    (sample_server StPending None))) = Some meta'
         /\ Storage.status meta' = StError
         /\ ("boom" <> EmptyString -> Storage.error meta' = Some "boom")
         /\ ("boom" = EmptyString -> Storage.error meta' = None)).
Proof.
  apply (engine_failure_reported_and_recorded sample_cfg
           (env_with throws_boom) sample_run (sample_server StPending None)
           (sample_meta StPending None) "the document" 5000
           (ThrownError "boom")).
  - reflexivity.
  - reflexivity.
  - reflexivity.
Defined.

(** C5, as stated, fails for a failure with an empty message: the
    [complete] event carries the empty message, and the job, which had
    failed once before with another message, still has that older
    message stored as its error after the run. *)
Lemma empty_failure_message_not_recorded :
  (runReview sample_cfg 600 throws_empty 9000).2
  = Raised (ThrownError EmptyString)
  /\ last (runReview sample_cfg 600 throws_empty 9000).1
     = Some (EvComplete 5000 StError (Some EmptyString))
  /\ (Storage.status <$>
        Storage.getReviewMeta "r1"
          (disk (review_process sample_cfg (env_with throws_empty) sample_run
                   (sample_server StPending (Some "an older failure")))))
     = Some StError
  /\ (Storage.error <$>
        Storage.getReviewMeta "r1"
          (disk (review_process sample_cfg (env_with throws_empty) sample_run
                   (sample_server StPending (Some "an older failure")))))
     = Some (Some "an older failure").
Proof. vm_compute. repeat split; reflexivity. Qed.
End Failures.

(** * Further properties *)

From Stdlib Require Import Lqa.

(** ** Shape of the event log *)

Section LogShape.
Import Orchestrator Observe Ledger.

Section Appends.
Variable P : ProgressEvent -> Prop.
Hypothesis P_phase : forall t p m, P (EvPhase t p m).
Hypothesis P_subagent : forall t a d st, P (EvSubagent t a d st).
Hypothesis P_activity : forall t a tool d, P (EvActivity t a tool d).
Hypothesis P_progress : forall t p m, P (EvProgress t p m).
Hypothesis P_usage : forall t s l c, P (EvUsage t s l c).

Lemma appends_same s s' : emitted s' = emitted s -> appends P s s'.
Proof. intros H. exists []. by rewrite app_nil_r. Qed.

Lemma appends_trans s1 s2 s3 :
  appends P s1 s2 -> appends P s2 s3 -> appends P s1 s3.
Proof.
  intros (e1 & H1 & F1) (e2 & H2 & F2). exists (e1 ++ e2).
  split; [by rewrite H2, H1, app_assoc|by apply Forall_app].
Qed.

Lemma emit_appends ev s : P ev -> appends P s (emit ev s).
Proof. intros H. exists [ev]. split; [done|by constructor]. Qed.

Lemma emitPhase_appends t ph msg s : appends P s (emitPhase t ph msg s).
Proof. exists [EvPhase t ph msg]. split; [done|]. constructor; auto. Qed.

Lemma emitProgress_appends t s : appends P s (emitProgress t s).
Proof. eexists [_]. split; [done|]. constructor; auto. Qed.

Lemma emitUsageIfDue_appends t s : appends P s (emitUsageIfDue t s).
Proof.
  at_one_instant.
  case_decide; [by apply appends_same|].
  eexists [_]. split; [done|]. constructor; auto.
Qed.

Lemma lead_text_appends t s : appends P s (lead_text t s).
Proof.
  unfold lead_text. destruct (_ && _); [|by apply appends_same].
  eapply appends_trans; [apply emitPhase_appends|apply emitProgress_appends].
Qed.

Lemma detect_phase_appends t agentType s :
  appends P s (detect_phase t agentType s).
Proof.
  unfold detect_phase. repeat case_decide; try (by apply appends_same).
  - eapply appends_trans; [|apply emitPhase_appends]. by apply appends_same.
  - eapply appends_trans; [|apply emitPhase_appends]. by apply appends_same.
Qed.

Lemma launch_task_appends cfg t i input s :
  appends P s (launch_task cfg t i input s).
Proof.
  unfold launch_task.
  eapply appends_trans; [|apply emitProgress_appends].
  eapply appends_trans; [|apply emit_appends; auto].
  eapply appends_trans; [|apply detect_phase_appends].
  by apply appends_same.
Qed.

Lemma subagent_tool_use_appends t p name input s :
  appends P s (subagent_tool_use t p name input s).
Proof.
  at_one_instant.
  case_decide; [|by apply appends_same].
  destruct (truthy _); [|by apply appends_same].
  eapply appends_trans; [|apply emit_appends; auto]. by apply appends_same.
Qed.

Lemma process_block_appends cfg t parent s b :
  appends P s (process_block cfg t parent s b).
Proof.
  destruct b as [text|i name input|]; simpl; [| |by apply appends_same].
  - destruct (_ && _); [apply lead_text_appends|by apply appends_same].
  - eapply appends_trans with
      (s2 := if decide (name = "Task") then launch_task cfg t i input s
             else s).
    + case_decide; [apply launch_task_appends|by apply appends_same].
    + destruct parent as [p|]; [|by apply appends_same].
      destruct (truthy p); [|by apply appends_same].
      apply subagent_tool_use_appends.
Qed.

Lemma process_user_block_appends t s b :
  appends P s (process_user_block t s b).
Proof.
  destruct b as [[i|]|]; simpl; try (by apply appends_same).
  destruct (truthy i); simpl; [|by apply appends_same].
  destruct (taskMap s !! i) as [info|]; [|by apply appends_same].
  eapply appends_trans; [|apply emitUsageIfDue_appends].
  eapply appends_trans; [|by apply appends_same].
  eapply appends_trans; [|apply emitProgress_appends].
  eapply appends_trans; [|apply emit_appends; auto].
  repeat case_decide; by apply appends_same.
Qed.

Lemma process_message_appends cfg t s m :
  appends P s (process_message cfg t s m).1.
Proof.
  destruct m as [|parent u content|content| | |]; simpl;
    try (by apply appends_same).
  - eapply appends_trans; [|apply emitUsageIfDue_appends].
    eapply appends_trans with
      (s2 := set_usages (accumulate_usage parent u (usages s)) s);
      [by apply appends_same|].
    destruct content as [blocks|]; [|by apply appends_same].
    generalize (set_usages (accumulate_usage parent u (usages s)) s).
    induction blocks as [|b blocks IH]; intros s0; simpl;
      [by apply appends_same|].
    eapply appends_trans; [apply process_block_appends|apply IH].
  - destruct content as [blocks|]; [|by apply appends_same].
    revert s. induction blocks as [|b blocks IH]; intros s; simpl;
      [by apply appends_same|].
    eapply appends_trans; [apply process_user_block_appends|apply IH].
Qed.

Lemma consume_appends cfg stream s :
  appends P s (consume cfg s stream).1.
Proof.
  revert s. induction stream as [|[t [m|e]] rest IH]; intros s; simpl;
    try (by apply appends_same).
  pose proof (process_message_appends cfg t s m) as Hm.
  destruct (process_message cfg t s m) as [s' [e|]]; [exact Hm|].
  eapply appends_trans; [exact Hm|apply IH].
Qed.
End Appends.

(** X1. Whatever the engine does, the log of [runReview] opens with the
    understanding phase and its 5% progress, carries no [complete] event
    in its body, and closes with the one [complete] event: with status
    error and the failure's message when the call raises, and with the
    100% progress followed by status completed when it returns. *)
Theorem runReview_log_frame
    (cfg : AgentConfig) (t0 : Z) (stream : list (Z * EngineStep)) (tend : Z) :
  exists body,
    Forall (fun ev => ~ is_complete ev) body
    /\ match engine_failure stream with
       | Some (t, e) =>
           runReview cfg t0 stream tend
           = (EvPhase t0 Understanding "Reading and understanding the PRD..."
              :: EvProgress t0 5 "Reading and understanding the PRD..."
              :: body
              ++ [EvComplete t StError (Some (failure_message e))],
              Raised e)
       | None =>
           exists r,
             runReview cfg t0 stream tend
             = (EvPhase t0 Understanding
                  "Reading and understanding the PRD..."
                :: EvProgress t0 5 "Reading and understanding the PRD..."
                :: body
                ++ [EvProgress tend 100 "Review complete!";
                    EvComplete tend StCompleted None],
                Returned r)
       end.
Proof.
  destruct (consume_appends (fun ev => ~ is_complete ev)
              ltac:(intros; intros H; exact H)
              ltac:(intros; intros H; exact H)
              ltac:(intros; intros H; exact H)
              ltac:(intros; intros H; exact H)
              ltac:(intros; intros H; exact H) cfg stream (start_state t0))
    as (body & Hbody & Hquiet).
  exists body. split; [done|].
  pose proof (consume_failure cfg stream (start_state t0)) as Hfail.
  unfold runReview.
  destruct (consume cfg (start_state t0) stream) as [s oe].
  simpl in Hbody, Hfail. subst oe.
  destruct (engine_failure stream) as [[t e]|].
  - simpl. rewrite Hbody. reflexivity.
  - eexists. simpl. rewrite Hbody. rewrite <- app_assoc. reflexivity.
Qed.
End LogShape.

(** ** Lifecycle of subagent events *)

Section SubagentLifecycle.
Import Orchestrator Observe Ledger.

Lemma fas_app_quiet log evs :
  finished_after_started log ->
  Forall (fun ev => ~ is_subagent ev) evs ->
  finished_after_started (log ++ evs).
Proof.
  intros Hlog Hq i t a d Hi.
  destruct (decide (i < length log)%nat) as [Hlt|Hge].
  - rewrite lookup_app_l in Hi by done.
    destruct (Hlog i t a d Hi) as (j & t' & Hj & Hjl).
    exists j, t'. split; [done|]. rewrite lookup_app_l by lia. done.
  - rewrite lookup_app_r in Hi by lia.
    apply list_elem_of_lookup_2 in Hi.
    rewrite Forall_forall in Hq. destruct (Hq _ Hi). exact I.
Qed.

Lemma fas_snoc_started log t a d :
  finished_after_started log ->
  finished_after_started (log ++ [EvSubagent t a d Started]).
Proof.
  intros Hlog i t1 a1 d1 Hi.
  destruct (decide (i < length log)%nat) as [Hlt|Hge].
  - rewrite lookup_app_l in Hi by done.
    destruct (Hlog i t1 a1 d1 Hi) as (j & t' & Hj & Hjl).
    exists j, t'. split; [done|]. rewrite lookup_app_l by lia. done.
  - rewrite lookup_app_r in Hi by lia.
    destruct (i - length log)%nat as [|n]; simpl in Hi; [|done].
    discriminate Hi.
Qed.

Lemma fas_snoc_finished log t a d :
  finished_after_started log ->
  (exists t', EvSubagent t' a d Started ∈ log) ->
  finished_after_started (log ++ [EvSubagent t a d Finished]).
Proof.
  intros Hlog [t' Hin] i t1 a1 d1 Hi.
  destruct (decide (i < length log)%nat) as [Hlt|Hge].
  - rewrite lookup_app_l in Hi by done.
    destruct (Hlog i t1 a1 d1 Hi) as (j & t2 & Hj & Hjl).
    exists j, t2. split; [done|]. rewrite lookup_app_l by lia. done.
  - rewrite lookup_app_r in Hi by lia.
    destruct (i - length log)%nat as [|n] eqn:Hn; simpl in Hi; [|done].
    injection Hi as <- <- <-.
    apply list_elem_of_lookup_1 in Hin as [j Hj].
    pose proof (lookup_lt_Some _ _ _ Hj) as Hjlt.
    exists j, t'. split; [lia|]. rewrite lookup_app_l by done. done.
Qed.

(** The invariant: recorded tasks were announced, and completions follow
    their announcements. *)
Definition lifecycle_ok (s : State) : Prop :=
  tasks_announced s /\ finished_after_started (emitted s).

Lemma lifecycle_quiet s s' :
  lifecycle_ok s -> taskMap s' = taskMap s ->
  appends (fun ev => ~ is_subagent ev) s s' ->
  lifecycle_ok s'.
Proof.
  intros [Hann Hfas] Hmap (evs & He & Hq). split.
  - intros i info Hi. rewrite Hmap in Hi.
    destruct (Hann i info Hi) as [t Ht]. exists t.
    rewrite He. apply elem_of_app. by left.
  - rewrite He. by apply fas_app_quiet.
Qed.

Lemma not_subagent_phase t p m : ~ is_subagent (EvPhase t p m).
Proof. intros H. exact H. Qed.

Lemma not_subagent_activity t a tool d : ~ is_subagent (EvActivity t a tool d).
Proof. intros H. exact H. Qed.

Lemma not_subagent_progress t p m : ~ is_subagent (EvProgress t p m).
Proof. intros H. exact H. Qed.

Lemma not_subagent_usage t s l c : ~ is_subagent (EvUsage t s l c).
Proof. intros H. exact H. Qed.

Lemma emitted_emit ev s : emitted (emit ev s) = emitted s ++ [ev].
Proof. reflexivity. Qed.

Lemma emitted_emitProgress t s :
  emitted (emitProgress t s)
  = emitted s ++ [EvProgress t (progress_of (phases s)).1
                    (progress_of (phases s)).2].
Proof. reflexivity. Qed.

Lemma detect_phase_taskMap t agentType s :
  taskMap (detect_phase t agentType s) = taskMap s.
Proof. unfold detect_phase. repeat case_decide; reflexivity. Qed.

Lemma launch_task_lifecycle cfg t i input s :
  lifecycle_ok s -> lifecycle_ok (launch_task cfg t i input s).
Proof.
  intros [Hann Hfas].
  set (agentType := default "unknown" (subagent_type input)).
  set (descr := default EmptyString (description input)).
  assert (exists pre,
             Forall (fun ev => ~ is_subagent ev) pre
             /\ emitted (launch_task cfg t i input s)
                = ((emitted s ++ pre) ++ [EvSubagent t agentType descr Started])
                  ++ [EvProgress t
                        (progress_of (phases (launch_task cfg t i input s))).1
                        (progress_of (phases (launch_task cfg t i input s))).2])
    as (pre & Hpre & He).
  { unfold launch_task.
    match goal with
    | |- context [detect_phase t ?a ?x] =>
        destruct (detect_phase_appends (fun ev => ~ is_subagent ev)
                    not_subagent_phase t a x) as (pre & Hp & Hq)
    end.
    exists pre. split; [done|].
    rewrite emitted_emitProgress, emitted_emit, Hp. reflexivity. }
  split.
  - intros j info Hj.
    destruct (launch_task_counts cfg t i input s) as (_ & _ & Hmap).
    rewrite Hmap in Hj.
    destruct (decide (i = j)) as [->|Hne].
    + rewrite lookup_insert_eq in Hj. injection Hj as <-.
      exists t. rewrite He. apply elem_of_app. left.
      apply elem_of_app. right. apply list_elem_of_here.
    + rewrite lookup_insert_ne in Hj by done.
      destruct (Hann j info Hj) as [t' Ht']. exists t'.
      rewrite He. apply elem_of_app. left. apply elem_of_app. left.
      apply elem_of_app. by left.
  - rewrite He.
    apply fas_app_quiet; [|constructor; [intros H; exact H|constructor]].
    apply fas_snoc_started. by apply fas_app_quiet.
Qed.

Lemma process_block_lifecycle cfg t parent s b :
  lifecycle_ok s -> lifecycle_ok (process_block cfg t parent s b).
Proof.
  intros Hok. destruct b as [text|i name input|]; simpl; [| |done].
  - destruct (_ && _); [|done].
    eapply lifecycle_quiet; [exact Hok| |].
    + by destruct (lead_text_counts t s) as (_ & _ & ->).
    + apply lead_text_appends; intros; intros H; exact H.
  - assert (lifecycle_ok (if decide (name = "Task")
                          then launch_task cfg t i input s else s)) as H1.
    { case_decide; [by apply launch_task_lifecycle|done]. }
    destruct parent as [p|]; [|done]. destruct (truthy p); [|done].
    eapply lifecycle_quiet; [exact H1| |].
    + by destruct (subagent_tool_use_counts t p name input
                     (if decide (name = "Task")
                      then launch_task cfg t i input s else s)) as [_ ->].
    + apply subagent_tool_use_appends. intros; intros H; exact H.
Qed.

Lemma process_user_block_lifecycle t s b :
  lifecycle_ok s -> lifecycle_ok (process_user_block t s b).
Proof.
  intros Hok. destruct b as [[i|]|]; simpl; try done.
  destruct (truthy i); simpl; [|done].
  destruct (taskMap s !! i) as [info|] eqn:Hi; [|done].
  destruct Hok as [Hann Hfas].
  set (s1 := if decide (ti_agentType info = "codebase-explorer") then _
             else _).
  assert (taskMap s1 = taskMap s /\ emitted s1 = emitted s) as [Hm1 He1].
  { subst s1. repeat case_decide; done. }
  assert (lifecycle_ok
            (emit (EvSubagent t (ti_agentType info) (ti_description info)
                     Finished) s1)) as H2.
  { split.
    - intros j info' Hj. simpl in Hj. rewrite Hm1 in Hj.
      destruct (Hann j info' Hj) as [t' Ht']. exists t'. simpl.
      rewrite He1. apply elem_of_app. by left.
    - simpl. rewrite He1. apply fas_snoc_finished; [done|].
      exact (Hann i info Hi). }
  eapply lifecycle_quiet; [exact H2| |].
  - match goal with
    | |- context [emitUsageIfDue t ?x] =>
        destruct (emitUsageIfDue_counts t x) as (_ & ->)
    end.
    reflexivity.
  - eapply appends_trans; [|apply emitUsageIfDue_appends;
                             intros; intros H; exact H].
    eapply appends_trans; [|by apply appends_same].
    apply emitProgress_appends. intros; intros H; exact H.
Qed.

Lemma process_message_lifecycle cfg t s m :
  lifecycle_ok s -> lifecycle_ok (process_message cfg t s m).1.
Proof.
  intros Hok.
  destruct m as [|parent u content|content| | |]; simpl; try done.
  - eapply lifecycle_quiet with
      (s := match content with
            | Some blocks =>
                foldl (process_block cfg t parent)
                  (set_usages (accumulate_usage parent u (usages s)) s)
                  blocks
            | None => set_usages (accumulate_usage parent u (usages s)) s
            end).
    + assert (lifecycle_ok
                (set_usages (accumulate_usage parent u (usages s)) s))
        as H1 by exact Hok.
      destruct content as [blocks|]; [|done].
      revert H1.
      generalize (set_usages (accumulate_usage parent u (usages s)) s).
      induction blocks as [|b blocks IH]; intros s0 H0; simpl; [done|].
      apply IH. by apply process_block_lifecycle.
    + by destruct (emitUsageIfDue_counts t
                     (match content with
                      | Some blocks =>
                          foldl (process_block cfg t parent)
                            (set_usages
                               (accumulate_usage parent u (usages s)) s)
                            blocks
                      | None =>
                          set_usages (accumulate_usage parent u (usages s)) s
                      end)) as [_ ->].
    + apply emitUsageIfDue_appends. intros; intros H; exact H.
  - destruct content as [blocks|]; [|done].
    revert s Hok. induction blocks as [|b blocks IH]; intros s Hok; simpl;
      [done|].
    apply IH. by apply process_user_block_lifecycle.
Qed.

Lemma consume_lifecycle cfg stream s :
  lifecycle_ok s -> lifecycle_ok (consume cfg s stream).1.
Proof.
  revert s. induction stream as [|[t [m|e]] rest IH]; intros s Hok; simpl;
    try done.
  pose proof (process_message_lifecycle cfg t s m Hok) as Hm.
  destruct (process_message cfg t s m) as [s' [e|]]; [exact Hm|].
  by apply IH.
Qed.

(** X2. In the log of every run, each [completed] subagent event comes
    after a [started] event with the same kind and description, so a
    client that upserts subagents by that identity never sees a
    completion for a subagent it was not told about. *)
Theorem completions_follow_starts
    (cfg : AgentConfig) (t0 : Z) (stream : list (Z * EngineStep)) (tend : Z) :
  finished_after_started (runReview cfg t0 stream tend).1.
Proof.
  assert (lifecycle_ok (start_state t0)) as H0.
  { split.
    - intros i info Hi. simpl in Hi. by rewrite lookup_empty in Hi.
    - intros i t a d Hi. simpl in Hi.
      destruct i as [|[|i]]; simpl in Hi; discriminate Hi. }
  pose proof (consume_lifecycle cfg stream _ H0) as [_ Hfas].
  unfold runReview.
  destruct (consume cfg (start_state t0) stream) as [s [[t e]|]];
    simpl in *.
  - apply fas_app_quiet; [done|].
    constructor; [intros H; exact H|constructor].
  - rewrite <- app_assoc. apply fas_app_quiet; [done|].
    constructor; [intros H; exact H|].
    constructor; [intros H; exact H|constructor].
Qed.
End SubagentLifecycle.

(** ** Invariants along the loop *)

Section LoopInvariant.
Import Orchestrator Observe Ledger.

Variable Inv : State -> Prop.
Hypothesis Inv_usage :
  forall parent u s,
    Inv s -> Inv (set_usages (accumulate_usage parent u (usages s)) s).
Hypothesis Inv_block :
  forall cfg t parent s b, Inv s -> Inv (process_block cfg t parent s b).
Hypothesis Inv_user_block :
  forall t s b, Inv s -> Inv (process_user_block t s b).
Hypothesis Inv_emitUsage : forall t s, Inv s -> Inv (emitUsageIfDue t s).
Hypothesis Inv_results : forall r s, Inv s -> Inv (set_results r s).

Lemma scan_invariant {B : Type} (f : State -> B -> State) (l : list B) s :
  (forall s b, Inv s -> Inv (f s b)) -> Inv s ->
  Forall Inv (scan f s l) /\ Inv (foldl f s l).
Proof.
  intros Hf. revert s. induction l as [|b l IH]; intros s Hs; simpl;
    [by split|].
  destruct (IH (f s b) (Hf _ _ Hs)) as [Hall Hend].
  split; [constructor; auto|done].
Qed.

Lemma message_invariant cfg t s m :
  Inv s ->
  Forall Inv (message_states cfg t s m) /\ Inv (process_message cfg t s m).1.
Proof.
  intros Hs.
  destruct m as [|parent u content|content|? ? ? ?|? ? ?|]; simpl.
  - split; [constructor; [done|constructor]|done].
  - pose proof (Inv_usage parent u s Hs) as H1.
    destruct (scan_invariant (process_block cfg t parent) (default [] content)
                _ (Inv_block cfg t parent) H1) as [Hall Hend].
    assert (Inv (emitUsageIfDue t
                   match content with
                   | Some blocks =>
                       foldl (process_block cfg t parent)
                         (set_usages (accumulate_usage parent u (usages s)) s)
                         blocks
                   | None =>
                       set_usages (accumulate_usage parent u (usages s)) s
                   end)) as Hlast.
    { apply Inv_emitUsage. destruct content; [exact Hend|exact H1]. }
    split; [|exact Hlast].
    constructor; [exact H1|]. apply Forall_app. split; [exact Hall|].
    constructor; [exact Hlast|constructor].
  - destruct (scan_invariant (process_user_block t) (default [] content)
                s (Inv_user_block t) Hs) as [Hall Hend].
    assert (Inv match content with
                | Some blocks => foldl (process_user_block t) s blocks
                | None => s
                end) as Hlast by (destruct content; [exact Hend|exact Hs]).
    split; [|exact Hlast].
    apply Forall_app. split; [exact Hall|].
    constructor; [exact Hlast|constructor].
  - split; [constructor; [|constructor]|]; by apply Inv_results.
  - split; [constructor; [|constructor]|]; by apply Inv_results.
  - split; [constructor; [done|constructor]|done].
Qed.

(** An invariant of every step holds in every state the loop passes
    through, and in the state it ends in. *)
Lemma loop_invariant cfg stream s :
  Inv s ->
  Forall Inv (history cfg s stream) /\ Inv (consume cfg s stream).1.
Proof.
  revert s. induction stream as [|[t [m|e]] rest IH]; intros s Hs; simpl;
    try (split; [constructor|done]).
  destruct (message_invariant cfg t s m Hs) as [Hall Hend].
  destruct (process_message cfg t s m) as [s' [e|]]; simpl in *.
  - split; [|done]. apply Forall_app. split; [done|constructor].
  - destruct (IH s' Hend) as [Hrest Hfin].
    split; [|done]. apply Forall_app. by split.
Qed.
End LoopInvariant.

(** ** Usage trackers *)

Section UsageTrackers.
Import Orchestrator Observe Ledger.

Lemma omap_get_None {V : Type} k (l : list (string * V)) :
  omap_get k l = None <-> k ∉ l.*1.
Proof.
  induction l as [|[k' v] l IH].
  - split; [intros _; apply not_elem_of_nil|done].
  - cbn [omap_get]. rewrite fmap_cons, not_elem_of_cons.
    case_decide as Hk.
    + subst. split; [done|]. by intros [Hne _].
    + rewrite IH. split; [by split|by intros [_ Hni]].
Qed.

Lemma omap_get_set {V : Type} k (v : V) l i :
  omap_get i (omap_set k v l)
  = if decide (i = k) then Some v else omap_get i l.
Proof.
  induction l as [|[k' v'] l IH]; simpl.
  - repeat case_decide; done.
  - destruct (decide (k = k')) as [->|Hkk]; simpl.
    + repeat case_decide; congruence.
    + rewrite IH. repeat case_decide; congruence.
Qed.

Lemma omap_set_keys {V : Type} k (v : V) l :
  (omap_set k v l).*1
  = match omap_get k l with
    | Some _ => l.*1
    | None => l.*1 ++ [k]
    end.
Proof.
  induction l as [|[k' v'] l IH]; [done|].
  cbn [omap_set omap_get].
  destruct (decide (k = k')) as [->|Hkk]; [done|].
  rewrite !fmap_cons, IH. by destruct (omap_get k l).
Qed.

Lemma omap_set_NoDup {V : Type} k (v : V) l :
  NoDup l.*1 -> NoDup (omap_set k v l).*1.
Proof.
  intros Hnd. rewrite omap_set_keys.
  destruct (omap_get k l) eqn:Hk; [done|].
  apply NoDup_app. split; [done|]. split; [|apply NoDup_singleton].
  intros x Hx Hx'. apply list_elem_of_singleton in Hx' as ->.
  by apply omap_get_None in Hk.
Qed.

Lemma trackers_same s s' :
  taskMap s' = taskMap s ->
  subagentTokens (usages s') = subagentTokens (usages s) ->
  trackers_match s -> trackers_match s'.
Proof. unfold trackers_match. by intros -> ->. Qed.

Lemma accumulate_usage_trackers parent u s :
  trackers_match s ->
  trackers_match (set_usages (accumulate_usage parent u (usages s)) s).
Proof.
  intros [Hnd Hm]. unfold accumulate_usage.
  destruct u as [u|]; [|by split].
  destruct parent as [p|]; [|by split].
  destruct (truthy p); [|by split].
  destruct (omap_get p (subagentTokens (usages s))) as [entry|] eqn:Hp;
    [|by split].
  split; simpl.
  - by apply omap_set_NoDup.
  - intros i. rewrite omap_get_set. specialize (Hm i).
    destruct (decide (i = p)) as [->|Hne]; [|done].
    rewrite Hp in Hm. by destruct (taskMap s !! p).
Qed.

Lemma detect_phase_usages t agentType s :
  usages (detect_phase t agentType s) = usages s.
Proof. unfold detect_phase. repeat case_decide; reflexivity. Qed.

Lemma launch_task_trackers cfg t i input s :
  trackers_match s -> trackers_match (launch_task cfg t i input s).
Proof.
  intros [Hnd Hm].
  destruct (launch_task_counts cfg t i input s) as (_ & _ & Hmap).
  unfold trackers_match. rewrite Hmap.
  unfold launch_task. simpl. rewrite detect_phase_usages. simpl.
  split; [by apply omap_set_NoDup|].
  intros j. rewrite omap_get_set. specialize (Hm j).
  destruct (decide (j = i)) as [->|Hne].
  - rewrite lookup_insert_eq. by simpl.
  - by rewrite lookup_insert_ne.
Qed.

Lemma subagent_tool_use_usages t p name input s :
  usages (subagent_tool_use t p name input s) = usages s.
Proof.
  at_one_instant.
  case_decide; [|done]. by destruct (truthy _).
Qed.

Lemma lead_text_usages t s : usages (lead_text t s) = usages s.
Proof. unfold lead_text. by destruct (_ && _). Qed.

Lemma emitUsageIfDue_trackers t s :
  subagentTokens (usages (emitUsageIfDue t s)) = subagentTokens (usages s).
Proof. at_one_instant. by case_decide. Qed.

Lemma process_block_trackers cfg t parent s b :
  trackers_match s -> trackers_match (process_block cfg t parent s b).
Proof.
  intros Hs. destruct b as [text|i name input|]; simpl; [| |done].
  - destruct (_ && _); [|done].
    eapply trackers_same; [| |exact Hs].
    + by destruct (lead_text_counts t s) as (_ & _ & ->).
    + by rewrite lead_text_usages.
  - assert (trackers_match (if decide (name = "Task")
                            then launch_task cfg t i input s else s)) as H1.
    { case_decide; [by apply launch_task_trackers|done]. }
    destruct parent as [p|]; [|done]. destruct (truthy p); [|done].
    eapply trackers_same; [| |exact H1].
    + by destruct (subagent_tool_use_counts t p name input
                     (if decide (name = "Task")
                      then launch_task cfg t i input s else s)) as [_ ->].
    + by rewrite subagent_tool_use_usages.
Qed.

Lemma process_user_block_trackers t s b :
  trackers_match s -> trackers_match (process_user_block t s b).
Proof.
  intros Hs.
  destruct (process_user_block_counts t s b) as (_ & Hmap & _).
  eapply trackers_same; [exact Hmap| |exact Hs].
  destruct b as [[i|]|]; simpl; try done.
  destruct (truthy i); simpl; [|done].
  destruct (taskMap s !! i) as [info|]; [|done].
  rewrite emitUsageIfDue_trackers. simpl. repeat case_decide; done.
Qed.

(** X3. In every state the loop passes through, the usage trackers and
    the recorded delegations name exactly the same correlation ids, each
    tracker carries the kind and description of the delegation recorded
    for its id, and no id has two trackers: a usage event lists every
    delegated id once. *)
Theorem trackers_match_delegations
    (cfg : AgentConfig) (t0 : Z) (stream : list (Z * EngineStep)) :
  Forall trackers_match
    (start_state t0 :: history cfg (start_state t0) stream).
Proof.
  assert (trackers_match (start_state t0)) as H0.
  { split; [constructor|]. intros i. simpl. by rewrite lookup_empty. }
  constructor; [exact H0|].
  apply (loop_invariant trackers_match); try done.
  - apply accumulate_usage_trackers.
  - apply process_block_trackers.
  - apply process_user_block_trackers.
  - intros t s Hs. eapply trackers_same; [| |exact Hs].
    + by destruct (emitUsageIfDue_counts t s) as [_ ->].
    + apply emitUsageIfDue_trackers.
Qed.
End UsageTrackers.

(** ** Usage totals *)

Section UsageTotals.
Import Orchestrator Observe Ledger Binary64 Accounts.

(** A step that leaves the session and lead totals alone. *)
Definition totals_kept (s s' : State) : Prop :=
  sessionTokens (usages s') = sessionTokens (usages s)
  /\ leadAgentTokens (usages s') = leadAgentTokens (usages s).

Lemma totals_kept_trans s1 s2 s3 :
  totals_kept s1 s2 -> totals_kept s2 s3 -> totals_kept s1 s3.
Proof. intros [H1 H2] [H3 H4]. split; congruence. Qed.

Lemma emitUsageIfDue_totals t s : totals_kept s (emitUsageIfDue t s).
Proof. at_one_instant. by case_decide. Qed.

Lemma launch_task_totals cfg t i input s :
  totals_kept s (launch_task cfg t i input s).
Proof.
  unfold totals_kept, launch_task. simpl. rewrite detect_phase_usages. done.
Qed.

Lemma process_block_totals cfg t parent s b :
  totals_kept s (process_block cfg t parent s b).
Proof.
  destruct b as [text|i name input|]; simpl; [| |done].
  - destruct (_ && _); [|done]. unfold totals_kept.
    by rewrite lead_text_usages.
  - eapply totals_kept_trans with
      (s2 := if decide (name = "Task") then launch_task cfg t i input s
             else s).
    + case_decide; [apply launch_task_totals|done].
    + destruct parent as [p|]; [|done]. destruct (truthy p); [|done].
      unfold totals_kept. by rewrite subagent_tool_use_usages.
Qed.

Lemma process_user_block_totals t s b :
  totals_kept s (process_user_block t s b).
Proof.
  destruct b as [[i|]|]; simpl; try done.
  destruct (truthy i); simpl; [|done].
  destruct (taskMap s !! i) as [info|]; [|done].
  eapply totals_kept_trans; [|apply emitUsageIfDue_totals].
  unfold totals_kept. simpl. repeat case_decide; done.
Qed.

Lemma foldl_totals {B : Type} (f : State -> B -> State) (l : list B) s :
  (forall s b, totals_kept s (f s b)) -> totals_kept s (foldl f s l).
Proof.
  intros Hf. revert s. induction l as [|b l IH]; intros s; simpl; [done|].
  eapply totals_kept_trans; [apply Hf|apply IH].
Qed.

Lemma accumulate_usage_totals parent u us :
  sessionTokens (accumulate_usage parent u us)
  = addUsage (sessionTokens us) u
  /\ leadAgentTokens (accumulate_usage parent u us)
     = match parent with
       | None => addUsage (leadAgentTokens us) u
       | Some _ => leadAgentTokens us
       end.
Proof.
  unfold accumulate_usage. destruct u as [u|].
  - destruct parent as [p|]; [|done].
    destruct (truthy p); [|done].
    by destruct (omap_get p (subagentTokens us)).
  - by destruct parent.
Qed.

Lemma process_message_totals cfg t s m :
  sessionTokens (usages (process_message cfg t s m).1)
  = add_message_usage (sessionTokens (usages s)) m
  /\ leadAgentTokens (usages (process_message cfg t s m).1)
     = add_lead_usage (leadAgentTokens (usages s)) m.
Proof.
  destruct m as [|parent u content|content| | |]; simpl; try done.
  - destruct (emitUsageIfDue_totals t
                match content with
                | Some blocks =>
                    foldl (process_block cfg t parent)
                      (set_usages (accumulate_usage parent u (usages s)) s)
                      blocks
                | None => set_usages (accumulate_usage parent u (usages s)) s
                end) as [-> ->].
    assert (totals_kept
              (set_usages (accumulate_usage parent u (usages s)) s)
              match content with
              | Some blocks =>
                  foldl (process_block cfg t parent)
                    (set_usages (accumulate_usage parent u (usages s)) s)
                    blocks
              | None => set_usages (accumulate_usage parent u (usages s)) s
              end) as [-> ->].
    { destruct content; [|done].
      apply foldl_totals. apply process_block_totals. }
    simpl.
    destruct (accumulate_usage_totals parent u (usages s)) as [-> ->].
    by destruct parent.
  - destruct content as [blocks|]; [|done].
    apply foldl_totals. apply process_user_block_totals.
Qed.

Lemma consume_totals cfg stream s :
  sessionTokens (usages (consume cfg s stream).1)
  = foldl add_message_usage (sessionTokens (usages s)) (handled stream)
  /\ leadAgentTokens (usages (consume cfg s stream).1)
     = foldl add_lead_usage (leadAgentTokens (usages s)) (handled stream).
Proof.
  revert s. induction stream as [|[t [m|e]] rest IH]; intros s; simpl;
    try done.
  destruct (process_message_totals cfg t s m) as [Hs Hl].
  pose proof (process_message_failure cfg t s m) as Hf.
  destruct (process_message cfg t s m) as [s' oe]. simpl in *.
  rewrite <- Hs, <- Hl.
  destruct m; simpl in Hf; subst oe; try apply IH. done.
Qed.

(** What [addUsage] adds: to each of the four counters, the field of
    the usage object that goes with it, a missing field counting as
    [0]. *)
Lemma addUsage_adds acc u :
  inputTokens (addUsage acc (Some u))
  = (inputTokens acc + api_input u)%float
  /\ outputTokens (addUsage acc (Some u))
     = (outputTokens acc + api_output u)%float
  /\ cacheReadTokens (addUsage acc (Some u))
     = (cacheReadTokens acc + api_cache_read u)%float
  /\ cacheCreationTokens (addUsage acc (Some u))
     = (cacheCreationTokens acc + api_cache_creation u)%float.
Proof. done. Qed.

Section OneTotal.
Variable f : TokenUsage -> float.
Variable g : ApiUsage -> float.
Hypothesis f_add :
  forall acc u, f (addUsage acc (Some u)) = (f acc + g u)%float.

(** Adding a count to a counter that holds a count, below [2^53]. *)
Lemma addUsage_count acc u :
  count (f acc) -> count (g u) -> to_Z (f acc) + to_Z (g u) < 2 ^ 53 ->
  f (addUsage acc (Some u)) = of_Z (to_Z (f acc) + to_Z (g u))
  /\ count (f (addUsage acc (Some u)))
  /\ to_Z (f (addUsage acc (Some u))) = to_Z (f acc) + to_Z (g u).
Proof. intros Ha Hu Hsum. rewrite f_add. by apply count_add. Qed.

Definition counted_by (m : Message) : Prop :=
  match m with
  | MAssistant _ (Some u) _ => count (g u)
  | _ => True
  end.

Lemma total_nonneg msgs : Forall counted_by msgs -> 0 <= total g msgs.
Proof.
  induction 1 as [|m msgs Hm _ IH]; simpl; [done|].
  destruct m as [|parent [u|] content| | | |]; simpl in *; try lia.
  destruct Hm as [_ Hm]. lia.
Qed.

Lemma total_filter_le (sel : Message -> bool) msgs :
  Forall counted_by msgs ->
  total g (List.filter sel msgs) <= total g msgs.
Proof.
  induction 1 as [|m msgs Hm Hall IH]; simpl; [done|].
  assert (0 <= message_count g m) as Hnn.
  { destruct m as [|parent [u|] content| | | |]; simpl in *; try lia.
    destruct Hm as [_ Hm]. lia. }
  destruct (sel m); simpl; lia.
Qed.

(** One counter after the usage of a list of messages was added. *)
Lemma foldl_add_message_usage_total msgs acc :
  count (f acc) -> Forall counted_by msgs ->
  to_Z (f acc) + total g msgs < 2 ^ 53 ->
  f (foldl add_message_usage acc msgs) = of_Z (to_Z (f acc) + total g msgs).
Proof.
  intros Hacc Hall. revert acc Hacc.
  induction Hall as [|m msgs Hm Hall IH]; intros acc Hacc Hsum;
    cbn [foldl total foldr] in *.
  - rewrite Z.add_0_r. apply Hacc.
  - pose proof (total_nonneg msgs Hall) as Hnn.
    fold (total g msgs) in *.
    destruct m as [|parent [u|] content| | | |];
      cbn [add_message_usage message_count counted_by] in *;
      try (rewrite IH; [f_equal; lia|done|lia]).
    + destruct (addUsage_count acc u Hacc Hm ltac:(lia)) as (_ & Hc & Hz).
      rewrite IH; [|done|lia]. f_equal. lia.
    + change (addUsage acc None) with acc.
      rewrite IH; [f_equal; lia|done|lia].
Qed.
End OneTotal.

Lemma Forall_list_filter {A : Type} (P : A -> Prop) (sel : A -> bool) l :
  Forall P l -> Forall P (List.filter sel l).
Proof.
  induction 1 as [|x l Hx _ IH]; simpl; [constructor|].
  destruct (sel x); [by constructor|done].
Qed.

Lemma add_lead_usage_filter msgs acc :
  foldl add_lead_usage acc msgs
  = foldl add_message_usage acc (List.filter is_lead msgs).
Proof.
  revert acc. induction msgs as [|m msgs IH]; intros acc; simpl; [done|].
  destruct m as [|[p|] u content| | | |]; simpl; by rewrite IH.
Qed.

Lemma counted_message_by msgs :
  Forall counted_message msgs ->
  Forall (counted_by api_input) msgs
  /\ Forall (counted_by api_output) msgs
  /\ Forall (counted_by api_cache_read) msgs
  /\ Forall (counted_by api_cache_creation) msgs.
Proof.
  intros H. repeat split; (eapply Forall_impl; [exact H|]);
    intros [|parent [u|] content| | | |]; simpl; try done;
    by intros (? & ? & ? & ?).
Qed.

(** The usage of a list of messages added up from zero. *)
Lemma foldl_add_message_usage_sum msgs :
  Forall counted_message msgs -> fits msgs ->
  foldl add_message_usage emptyTokenUsage msgs = sum_usage msgs.
Proof.
  intros Hall (Hi & Ho & Hr & Hc).
  destruct (counted_message_by msgs Hall) as (Ci & Co & Cr & Cc).
  pose proof (foldl_add_message_usage_total inputTokens api_input
                ltac:(done) msgs emptyTokenUsage count_zero Ci) as Ei.
  pose proof (foldl_add_message_usage_total outputTokens api_output
                ltac:(done) msgs emptyTokenUsage count_zero Co) as Eo.
  pose proof (foldl_add_message_usage_total cacheReadTokens api_cache_read
                ltac:(done) msgs emptyTokenUsage count_zero Cr) as Er.
  pose proof (foldl_add_message_usage_total cacheCreationTokens
                api_cache_creation ltac:(done) msgs emptyTokenUsage
                count_zero Cc) as Ec.
  change (to_Z (inputTokens emptyTokenUsage)) with 0 in Ei.
  change (to_Z (outputTokens emptyTokenUsage)) with 0 in Eo.
  change (to_Z (cacheReadTokens emptyTokenUsage)) with 0 in Er.
  change (to_Z (cacheCreationTokens emptyTokenUsage)) with 0 in Ec.
  rewrite Z.add_0_l in Ei, Eo, Er, Ec.
  destruct (foldl add_message_usage emptyTokenUsage msgs) as [a b c d].
  simpl in *. unfold sum_usage.
  rewrite <- Ei, <- Eo, <- Er, <- Ec by lia. done.
Qed.

Lemma fits_filter (sel : Message -> bool) msgs :
  Forall counted_message msgs -> fits msgs -> fits (List.filter sel msgs).
Proof.
  intros Hall (Hi & Ho & Hr & Hc).
  destruct (counted_message_by msgs Hall) as (Ci & Co & Cr & Cc).
  pose proof (total_filter_le api_input sel msgs Ci).
  pose proof (total_filter_le api_output sel msgs Co).
  pose proof (total_filter_le api_cache_read sel msgs Cr).
  pose proof (total_filter_le api_cache_creation sel msgs Cc).
  unfold fits. lia.
Qed.

(** X4. When every count of the usage objects the loop handles is a
    non-negative integer and each of the four sums stays below [2^53],
    the session totals of a run are these sums, taken over all the
    assistant messages handled up to the first failure, and the lead's
    totals are the sums over the messages without a parent: delegations,
    results, activity and usage emissions never touch either. *)
Theorem session_totals_are_sums
    (cfg : AgentConfig) (t0 : Z) (stream : list (Z * EngineStep)) :
  Forall counted_message (handled stream) ->
  fits (handled stream) ->
  sessionTokens (usages (consume cfg (start_state t0) stream).1)
  = sum_usage (handled stream)
  /\ leadAgentTokens (usages (consume cfg (start_state t0) stream).1)
     = sum_usage (List.filter is_lead (handled stream)).
Proof.
  intros Hall Hfits.
  destruct (consume_totals cfg stream (start_state t0)) as [-> ->].
  split.
  - by apply foldl_add_message_usage_sum.
  - change (leadAgentTokens (usages (start_state t0)))
      with emptyTokenUsage.
    rewrite add_lead_usage_filter.
    apply foldl_add_message_usage_sum.
    + by apply Forall_list_filter.
    + by apply fits_filter.
Qed.

Lemma session_totals_are_sums_witness :
  sessionTokens
    (usages (consume Samples.sample_cfg (start_state 0)
               Samples.usage_of_three).1)
  = mkTokenUsage 370 115 9 0
  /\ leadAgentTokens
       (usages (consume Samples.sample_cfg (start_state 0)
                  Samples.usage_of_three).1)
     = mkTokenUsage 200 80 0 0.
Proof.
  apply (session_totals_are_sums Samples.sample_cfg 0
           Samples.usage_of_three).
  - repeat constructor; unfold count; simpl;
      try reflexivity; vm_compute; try discriminate; reflexivity.
  - unfold fits. vm_compute. repeat split; reflexivity.
Defined.
End UsageTotals.

(** ** Periodic usage emission *)

Section UsageEmission.
Import Orchestrator Observe Ledger Samples.

Lemma usage_stamps_app l1 l2 :
  usage_stamps (l1 ++ l2) = usage_stamps l1 ++ usage_stamps l2.
Proof. apply omap_app. Qed.

Definition no_usage (ev : ProgressEvent) : Prop :=
  match ev with EvUsage _ _ _ _ => False | _ => True end.

Lemma no_usage_stamps evs : Forall no_usage evs -> usage_stamps evs = [].
Proof.
  induction 1 as [|ev evs Hev _ IH]; [done|].
  destruct ev; simpl in *; done.
Qed.

Lemma launch_task_lastEmit cfg t i input s :
  lastUsageEmitTime (usages (launch_task cfg t i input s))
  = lastUsageEmitTime (usages s).
Proof. unfold launch_task. simpl. by rewrite detect_phase_usages. Qed.

(** A step that keeps the time of the last usage emission and appends
    no usage event. *)
Definition quiet (s s' : State) : Prop :=
  lastUsageEmitTime (usages s') = lastUsageEmitTime (usages s)
  /\ appends no_usage s s'.

Lemma quiet_refl s : quiet s s.
Proof. split; [done|]. exists []. by rewrite app_nil_r. Qed.

Lemma quiet_trans s1 s2 s3 : quiet s1 s2 -> quiet s2 s3 -> quiet s1 s3.
Proof.
  intros [H1 A1] [H2 A2]. split; [congruence|].
  eapply appends_trans; eauto.
Qed.

Lemma subagent_tool_use_at_quiet r p name input s :
  quiet s (subagent_tool_use_at r p name input s).
Proof.
  unfold subagent_tool_use_at. case_decide; [|apply quiet_refl].
  destruct (truthy _); split; try done.
  - eexists [_]. split; [done|]. by constructor.
  - exists []. by rewrite app_nil_r.
Qed.

Lemma process_block_at_quiet cfg c parent i s b :
  quiet s (process_block_at cfg c parent i s b).
Proof.
  destruct b as [text|x name input|]; simpl; [| |apply quiet_refl].
  - destruct (_ && _); [|apply quiet_refl]. split.
    + by rewrite lead_text_usages.
    + apply lead_text_appends; by intros.
  - eapply quiet_trans with
      (s2 := if decide (name = "Task")
             then launch_task cfg (instant c) x input s else s).
    + case_decide; [|apply quiet_refl]. split.
      * apply launch_task_lastEmit.
      * apply launch_task_appends; by intros.
    + destruct parent as [p|]; [|apply quiet_refl].
      destruct (truthy p); [|apply quiet_refl].
      apply subagent_tool_use_at_quiet.
Qed.

Lemma blocks_at_quiet cfg c parent blocks i s :
  quiet s (foldl_at (process_block_at cfg c parent) i s blocks).
Proof.
  revert i s. induction blocks as [|b blocks IH]; intros i s; simpl;
    [apply quiet_refl|].
  eapply quiet_trans; [apply process_block_at_quiet|apply IH].
Qed.

Lemma accumulate_usage_lastEmit parent u us :
  lastUsageEmitTime (accumulate_usage parent u us) = lastUsageEmitTime us.
Proof.
  unfold accumulate_usage. destruct u; [|done].
  destruct parent as [p|]; [|done].
  destruct (truthy p); [|done]. by destruct (omap_get _ _).
Qed.

(** What one loop iteration that is not a user message does to the
    usage gate, on a clock that is [lag]-steady: it emits no usage event
    and keeps the time of the last emission, or it emits exactly one,
    stamped a full interval after the time stored before and at most
    [lag] after the time stored now, which is not earlier. *)
Lemma message_usage_gate_at cfg c lag s m :
  not_user_at (c, Yields m) ->
  (forall j, steady lag (reads c j)) ->
  exists evs,
    emitted (process_message_at cfg c s m).1 = emitted s ++ evs
    /\ ((usage_stamps evs = []
         /\ lastUsageEmitTime (usages (process_message_at cfg c s m).1)
            = lastUsageEmitTime (usages s))
        \/ (exists e,
             usage_stamps evs = [e]
             /\ lastUsageEmitTime (usages s)
                <= lastUsageEmitTime (usages (process_message_at cfg c s m).1)
             /\ USAGE_EMIT_INTERVAL_MS <= e - lastUsageEmitTime (usages s)
             /\ e <= lastUsageEmitTime
                       (usages (process_message_at cfg c s m).1) + lag)).
Proof.
  intros Hnu Hst.
  destruct m as [|parent u content|content| | |]; simpl in *;
    try done;
    try (exists []; rewrite app_nil_r; split; [done|by left]).
  set (s1 := set_usages (accumulate_usage parent u (usages s)) s).
  set (s2 := match content with
             | Some blocks =>
                 foldl_at (process_block_at cfg c parent) 0 s1 blocks
             | None => s1
             end).
  assert (quiet s s2) as [Hlast (evs & He & Hq)].
  { eapply quiet_trans with (s2 := s1).
    - split; [apply accumulate_usage_lastEmit|].
      exists []. by rewrite app_nil_r.
    - subst s2. destruct content; [apply blocks_at_quiet|apply quiet_refl]. }
  destruct (Hst (length (default [] content))) as (Hgs & Hse & Hlag).
  unfold emitUsageIfDue_at. rewrite Hlast.
  case_decide as Hgate.
  - exists evs. split; [done|]. left. split; [by apply no_usage_stamps|done].
  - eexists (evs ++ [_]). simpl. rewrite He, <- app_assoc.
    split; [reflexivity|]. right. eexists.
    rewrite usage_stamps_app, (no_usage_stamps _ Hq). simpl.
    split; [reflexivity|]. unfold USAGE_EMIT_INTERVAL_MS in *. lia.
Qed.

Lemma consume_at_usage_spaced cfg lag stream s :
  Forall not_user_at stream -> Forall (steady_step lag) stream ->
  exists evs,
    emitted (consume_at cfg s stream).1 = emitted s ++ evs
    /\ Forall (fun a => USAGE_EMIT_INTERVAL_MS
                        <= a - lastUsageEmitTime (usages s))
         (usage_stamps evs)
    /\ spaced (USAGE_EMIT_INTERVAL_MS - lag) (usage_stamps evs).
Proof.
  intros Hnu Hst. revert s Hst.
  induction Hnu as [|[c [m|e]] rest Hm _ IH]; intros s Hst; simpl;
    try (exists []; rewrite app_nil_r; by repeat split).
  apply Forall_cons in Hst as [Hc Hst].
  destruct (message_usage_gate_at cfg c lag s m Hm Hc) as (e1 & He1 & Hcase).
  destruct (process_message_at cfg c s m) as [s' [e|]]; simpl in *.
  - exists e1. split; [done|].
    destruct Hcase as [[-> _]|(a & -> & _ & Hg & _)]; simpl;
      repeat split; auto.
  - destruct (IH s' Hst) as (e2 & He2 & Hall & Hsp).
    exists (e1 ++ e2). rewrite He2, He1, app_assoc, usage_stamps_app.
    split; [done|]. unfold USAGE_EMIT_INTERVAL_MS in *.
    destruct Hcase as [[-> Hl]|(a & -> & Hmono & Hg & Hlag)]; simpl.
    + rewrite Hl in Hall. by split.
    + split; [constructor; [lia|]|].
      * eapply Forall_impl; [exact Hall|]. intros b Hb. simpl in Hb. lia.
      * split; [|done]. destruct (usage_stamps e2) as [|b r]; [done|].
        apply Forall_cons in Hall as [Hb _]. simpl in Hb. lia.
Qed.

(** X5. The gate of the usage throttle, the time it stores and the
    timestamp of the event are three reads of the clock. On a stream
    without user messages (no subtask completes, so no emission is
    forced), and on a clock that does not go back between these reads
    and advances by at most [lag] between the second and the third, any
    two consecutive usage events of the run are at least the usage
    interval of 5000 ms less [lag] apart. *)
Theorem usage_events_spaced
    (cfg : AgentConfig) (lag : Z) (t0 : Z)
    (stream : list (Tick * EngineStep)) (tend : Z) (i : nat) (a b : Z) :
  Forall not_user_at stream ->
  Forall (steady_step lag) stream ->
  usage_stamps (runReview_at cfg t0 stream tend).1 !! i = Some a ->
  usage_stamps (runReview_at cfg t0 stream tend).1 !! S i = Some b ->
  USAGE_EMIT_INTERVAL_MS - lag <= b - a.
Proof.
  intros Hnu Hst.
  destruct (consume_at_usage_spaced cfg lag stream (start_state t0) Hnu Hst)
    as (evs & He & _ & Hsp).
  assert (usage_stamps (runReview_at cfg t0 stream tend).1
          = usage_stamps evs) as ->.
  { unfold runReview_at.
    destruct (consume_at cfg (start_state t0) stream) as [s [[t e]|]];
      simpl in *; rewrite He, !usage_stamps_app; simpl;
      by rewrite ?app_nil_r. }
  by apply spaced_lookup.
Qed.

Lemma usage_events_spaced_witness :
  USAGE_EMIT_INTERVAL_MS - 2 <= 11000 - 6002.
Proof.
  apply (usage_events_spaced sample_cfg 2 0 drifting_usage 13000 0
           6002 11000).
  - repeat constructor.
  - repeat constructor; unfold steady; simpl; lia.
  - vm_compute. reflexivity.
  - vm_compute. reflexivity.
Defined.

(** Without the lag the bound fails: the first usage event is stored at
    6000 and stamped 6002, the next passes the gate at 11000, and the
    two are 4998 ms apart. *)
Lemma usage_events_closer_than_interval :
  usage_stamps (runReview_at sample_cfg 0 drifting_usage 13000).1
  = [6002; 11000]
  /\ 11000 - 6002 < USAGE_EMIT_INTERVAL_MS.
Proof. vm_compute. split; reflexivity. Qed.
End UsageEmission.

(** ** Bounds of the progress percentage *)

Section ProgressBounds.
Import Orchestrator Observe Ledger Samples.

Lemma ratio_unit (c n : nat) :
  (0 < n)%nat -> (c <= n)%nat ->
  (0 <= nat_to_Q c / nat_to_Q n)%Q /\ (nat_to_Q c / nat_to_Q n <= 1)%Q.
Proof.
  intros Hn Hc. unfold nat_to_Q.
  assert (0 < inject_Z (Z.of_nat n))%Q as Hpos.
  { rewrite <- (Zlt_Qlt 0). lia. }
  split.
  - apply Qle_shift_div_l; [done|]. rewrite Qmult_0_l.
    rewrite <- (Zle_Qle 0). lia.
  - apply Qle_shift_div_r; [done|]. rewrite Qmult_1_l.
    rewrite <- Zle_Qle. lia.
Qed.

Lemma rounds_to_band (x : Q) (p lo hi : Z) :
  (inject_Z lo <= x)%Q -> (x <= inject_Z hi)%Q -> rounds_to x p ->
  lo <= p <= hi.
Proof.
  intros Hlo Hhi [H1 H2].
  assert (inject_Z lo < inject_Z p + (1 # 2))%Q as A by lra.
  assert (inject_Z p - (1 # 2) <= inject_Z hi)%Q as B by lra.
  unfold Qlt, Qle, Qplus, Qminus, Qopp, inject_Z in A, B.
  simpl in A, B. lia.
Qed.

(** With no more completions than delegations, the policy's percent
    stays between 5 and 92, and between 10 and 60 while exploring. *)
Lemma progress_of_band (p : PhaseTracking) :
  (completedExplorers p <= totalExplorers p)%nat ->
  5 <= (progress_of p).1 <= 92
  /\ (currentPhase p = Exploring -> 10 <= (progress_of p).1 <= 60).
Proof.
  intros Hc. unfold progress_of.
  destruct (currentPhase p); simpl; try (split; [lia|done]).
  - assert (10 <= (if decide (0 < totalExplorers p)%nat
                   then js_round
                          (10 + 50 * (nat_to_Q (completedExplorers p)
                                      / nat_to_Q (totalExplorers p)))%Q
                   else 15) <= 60) as Hb.
    { case_decide as Hn; [|lia].
      destruct (ratio_unit _ _ Hn Hc) as [H0 H1].
      eapply rounds_to_band; [| |apply js_round_rounds_to].
      - change (inject_Z 10) with 10%Q. lra.
      - change (inject_Z 60) with 60%Q. lra. }
    split; [lia|done].
  - destruct (seniorDevCompleted p); split; (lia || done).
Qed.

Section WithCounters.
Variable Q : State -> Prop.
Hypothesis Q_block :
  forall cfg t parent s b,
    Q s -> counters_ok (process_block cfg t parent s b) ->
    Q (process_block cfg t parent s b).
Hypothesis Q_user_block :
  forall t s b,
    Q s -> counters_ok (process_user_block t s b) ->
    Q (process_user_block t s b).
Hypothesis Q_usage :
  forall parent u s,
    Q s -> Q (set_usages (accumulate_usage parent u (usages s)) s).
Hypothesis Q_emitUsage : forall t s, Q s -> Q (emitUsageIfDue t s).
Hypothesis Q_results : forall r s, Q s -> Q (set_results r s).

Lemma blocks_with_counters cfg t parent blocks s ids :
  NoDup ids -> pending_fit s ids -> Q s ->
  pending_fit (foldl (process_block cfg t parent) s blocks) ids
  /\ Q (foldl (process_block cfg t parent) s blocks).
Proof.
  intros Hnd. revert s.
  induction blocks as [|b blocks IH]; intros s Hfit Hq; simpl; [done|].
  pose proof (process_block_pending_fit cfg t parent s b ids Hnd Hfit) as H1.
  apply IH; [done|].
  apply Q_block; [done|]. by eapply pending_fit_counters_ok.
Qed.

Lemma user_blocks_with_counters t blocks s ids :
  NoDup (concat (map result_id_of blocks) ++ ids) ->
  pending_fit s (concat (map result_id_of blocks) ++ ids) -> Q s ->
  pending_fit (foldl (process_user_block t) s blocks) ids
  /\ Q (foldl (process_user_block t) s blocks).
Proof.
  revert s.
  induction blocks as [|b blocks IH]; intros s Hnd Hfit Hq; simpl in *;
    [done|].
  rewrite <- app_assoc in Hnd, Hfit.
  pose proof (process_user_block_pending_fit t s b _ Hnd Hfit) as H1.
  apply NoDup_app in Hnd as (_ & _ & Hnd).
  apply IH; [done|done|].
  apply Q_user_block; [done|]. by eapply pending_fit_counters_ok.
Qed.

Lemma message_with_counters cfg t s m ids :
  NoDup (result_ids_of m ++ ids) ->
  pending_fit s (result_ids_of m ++ ids) -> Q s ->
  pending_fit (process_message cfg t s m).1 ids
  /\ Q (process_message cfg t s m).1.
Proof.
  intros Hnd Hfit Hq.
  destruct m as [|parent u content|content|? ? ? ?|? ? ?|]; simpl in *.
  - done.
  - assert (pending_fit (set_usages (accumulate_usage parent u (usages s)) s)
              ids) as H1 by exact Hfit.
    pose proof (Q_usage parent u s Hq) as H2.
    assert (pending_fit
              match content with
              | Some blocks =>
                  foldl (process_block cfg t parent)
                    (set_usages (accumulate_usage parent u (usages s)) s)
                    blocks
              | None => set_usages (accumulate_usage parent u (usages s)) s
              end ids
            /\ Q match content with
                 | Some blocks =>
                     foldl (process_block cfg t parent)
                       (set_usages (accumulate_usage parent u (usages s)) s)
                       blocks
                 | None =>
                     set_usages (accumulate_usage parent u (usages s)) s
                 end) as [H3 H4].
    { destruct content; [by apply blocks_with_counters|done]. }
    split; [|by apply Q_emitUsage].
    unfold pending_fit in *.
    match goal with
    | |- context [emitUsageIfDue t ?x] =>
        destruct (emitUsageIfDue_counts t x) as (-> & ->)
    end.
    done.
  - destruct content as [blocks|]; simpl in *; [|done].
    rewrite omap_result_ids in Hnd, Hfit.
    by apply user_blocks_with_counters.
  - split; [done|by apply Q_results].
  - split; [done|by apply Q_results].
  - done.
Qed.

Lemma consume_with_counters cfg stream s :
  NoDup (result_ids stream) -> pending_fit s (result_ids stream) -> Q s ->
  Q (consume cfg s stream).1.
Proof.
  revert s.
  induction stream as [|[t [m|e]] rest IH]; intros s Hnd Hfit Hq; simpl;
    try done.
  unfold result_ids in Hnd, Hfit. simpl in Hnd, Hfit.
  fold (result_ids rest) in Hnd, Hfit.
  destruct (message_with_counters cfg t s m _ Hnd Hfit Hq) as [H1 H2].
  destruct (process_message cfg t s m) as [s' [e|]]; [done|].
  apply NoDup_app in Hnd as (_ & _ & Hnd).
  by apply IH.
Qed.
End WithCounters.

Definition percents_within (s : State) : Prop :=
  Forall (fun p => 5 <= p <= 100) (progress_percents (emitted s)).

Lemma percents_within_quiet s s' :
  appends (fun ev => match ev with EvProgress _ _ _ => False | _ => True end)
    s s' ->
  percents_within s -> percents_within s'.
Proof.
  intros (evs & He & Hq) Hs. unfold percents_within.
  rewrite He, progress_percents_app. apply Forall_app. split; [done|].
  clear He. induction Hq as [|ev evs Hev _ IH]; [constructor|].
  destruct ev; simpl in *; done.
Qed.

Lemma percents_within_step s s' :
  (exists evs, emitted s' = emitted s ++ evs) ->
  progress_percents (new_events s s') = []
  \/ progress_percents (new_events s s') = [(progress_of (phases s')).1] ->
  counters_ok s' -> percents_within s -> percents_within s'.
Proof.
  intros [evs He] Hnew Hok Hs. unfold percents_within.
  rewrite (new_events_app _ _ _ He) in Hnew.
  rewrite He, progress_percents_app. apply Forall_app. split; [done|].
  destruct Hnew as [->| ->]; [constructor|].
  constructor; [|constructor].
  destruct (progress_of_band (phases s') Hok) as [Hb _]. lia.
Qed.

(** X6. On a stream in which no id is named by two [tool_result]
    blocks, every progress event of [runReview] carries a percent
    between 5 and 100. *)
Theorem progress_percent_within_bounds
    (cfg : AgentConfig) (t0 : Z) (stream : list (Z * EngineStep)) (tend : Z) :
  NoDup (result_ids stream) ->
  Forall (fun p => 5 <= p <= 100)
    (progress_percents (runReview cfg t0 stream tend).1).
Proof.
  intros Hnd.
  assert (percents_within (consume cfg (start_state t0) stream).1) as Hq.
  { apply (consume_with_counters percents_within); try done.
    - intros c t parent s b Hs Hok.
      eapply percents_within_step; [| |exact Hok|exact Hs].
      + destruct (process_block_appends (fun _ => True) ltac:(done)
                    ltac:(done) ltac:(done) ltac:(done) c t parent s b)
          as (evs & He & _). by exists evs.
      + apply process_block_progress.
    - intros t s b Hs Hok.
      eapply percents_within_step; [| |exact Hok|exact Hs].
      + destruct (process_user_block_appends (fun _ => True) ltac:(done)
                    ltac:(done) ltac:(done) t s b) as (evs & He & _).
        by exists evs.
      + apply process_user_block_progress.
    - intros t s Hs. eapply percents_within_quiet; [|exact Hs].
      apply emitUsageIfDue_appends. done.
    - unfold pending_fit. simpl. rewrite filter_is_explorer_empty.
      simpl. lia.
    - unfold percents_within. simpl. constructor; [lia|constructor]. }
  unfold runReview.
  destruct (consume cfg (start_state t0) stream) as [s [[t e]|]];
    simpl in *; rewrite !progress_percents_app; simpl.
  - by rewrite app_nil_r.
  - apply Forall_app. split; [|constructor].
    apply Forall_app. split; [done|constructor; [lia|constructor]].
Qed.

Lemma progress_percent_within_bounds_witness :
  Forall (fun p => 5 <= p <= 100)
    (progress_percents (runReview sample_cfg 0 three_of_three 5000).1).
Proof.
  apply (progress_percent_within_bounds sample_cfg 0 three_of_three 5000).
  apply (bool_decide_unpack _). vm_compute. exact I.
Defined.

(** Without that uniqueness the bound fails: the second result for the
    only explorer makes the next progress event carry 110. *)
Lemma duplicate_result_percent :
  progress_percents (runReview sample_cfg 0 result_twice 4000).1
  = [5; 10; 60; 110; 100].
Proof. vm_compute. reflexivity. Qed.
End ProgressBounds.

(** ** Phases with a single senior-developer delegation *)

Section SingleSeniorDeveloper.
Import Orchestrator Observe Ledger Samples.

Lemma phase_events_app l1 l2 :
  phase_events (l1 ++ l2) = phase_events l1 ++ phase_events l2.
Proof. apply omap_app. Qed.

Lemma never_decreases_snoc l p q :
  never_decreases l -> last l = Some p ->
  (phase_rank p <= phase_rank q)%nat ->
  never_decreases (l ++ [q]).
Proof.
  intros Hl Hlast Hpq i j x y Hij Hi Hj.
  rewrite last_lookup in Hlast.
  pose proof (lookup_lt_Some _ _ _ Hlast) as Hlen.
  destruct (decide (j < length l)%nat) as [Hjl|Hjl].
  - rewrite lookup_app_l in Hi, Hj by lia. eauto.
  - rewrite lookup_app_r in Hj by lia.
    destruct (j - length l)%nat as [|k] eqn:Hk; simpl in Hj; [|done].
    injection Hj as <-.
    destruct (decide (i < length l)%nat) as [Hil|Hil].
    + rewrite lookup_app_l in Hi by lia.
      pose proof (Hl i (pred (length l)) x p ltac:(lia) Hi Hlast). lia.
    + rewrite lookup_app_r in Hi by lia.
      replace (i - length l)%nat with 0%nat in Hi by lia.
      injection Hi as <-. lia.
Qed.

(** A step that keeps the current phase and appends no phase event, and
    a step whose one phase event names the phase it leaves. *)
Definition phase_kept (s s' : State) : Prop :=
  currentPhase (phases s') = currentPhase (phases s)
  /\ exists evs, emitted s' = emitted s ++ evs /\ phase_events evs = [].

Definition phase_moved (s s' : State) : Prop :=
  exists evs,
    emitted s' = emitted s ++ evs
    /\ phase_events evs = [currentPhase (phases s')].

Lemma phase_kept_same s s' :
  currentPhase (phases s') = currentPhase (phases s) ->
  emitted s' = emitted s -> phase_kept s s'.
Proof. intros H1 H2. split; [done|]. exists []. by rewrite app_nil_r. Qed.

Lemma phase_kept_trans s1 s2 s3 :
  phase_kept s1 s2 -> phase_kept s2 s3 -> phase_kept s1 s3.
Proof.
  intros [H1 (e1 & He1 & Hp1)] [H2 (e2 & He2 & Hp2)].
  split; [congruence|]. exists (e1 ++ e2).
  by rewrite He2, He1, app_assoc, phase_events_app, Hp1, Hp2.
Qed.

Lemma phase_moved_kept s1 s2 s3 :
  phase_moved s1 s2 -> phase_kept s2 s3 -> phase_moved s1 s3.
Proof.
  intros (e1 & He1 & Hp1) [H2 (e2 & He2 & Hp2)].
  exists (e1 ++ e2).
  by rewrite He2, He1, app_assoc, phase_events_app, Hp1, Hp2, H2.
Qed.

Lemma phase_kept_moved s1 s2 s3 :
  phase_kept s1 s2 -> phase_moved s2 s3 -> phase_moved s1 s3.
Proof.
  intros [H1 (e1 & He1 & Hp1)] (e2 & He2 & Hp2).
  exists (e1 ++ e2).
  by rewrite He2, He1, app_assoc, phase_events_app, Hp1, Hp2.
Qed.

Lemma emitUsageIfDue_phase_kept t s : phase_kept s (emitUsageIfDue t s).
Proof.
  at_one_instant.
  case_decide; [by apply phase_kept_same|].
  split; [done|]. by eexists [_].
Qed.

Lemma subagent_tool_use_phase_kept t p name input s :
  phase_kept s (subagent_tool_use t p name input s).
Proof.
  at_one_instant.
  case_decide; [|by apply phase_kept_same].
  destruct (truthy _); [|by apply phase_kept_same].
  split; [done|]. by eexists [_].
Qed.

Lemma lead_text_phase t s :
  phase_kept s (lead_text t s) \/ phase_moved s (lead_text t s).
Proof.
  unfold lead_text. destruct (_ && _); [right|left; by apply phase_kept_same].
  eexists. split; [simpl; rewrite <- ?app_assoc; reflexivity|reflexivity].
Qed.

Lemma launch_task_phase_events cfg t i input s :
  phase_kept s (launch_task cfg t i input s)
  \/ phase_moved s (launch_task cfg t i input s).
Proof.
  unfold launch_task, detect_phase.
  repeat case_decide;
    first
      [ right; eexists;
        split; [simpl; rewrite <- ?app_assoc; reflexivity|reflexivity]
      | left; split; [simpl; congruence|];
        eexists;
        split; [simpl; rewrite <- ?app_assoc; reflexivity|reflexivity] ].
Qed.

Lemma process_block_phase_events cfg t parent s b :
  phase_kept s (process_block cfg t parent s b)
  \/ phase_moved s (process_block cfg t parent s b).
Proof.
  destruct b as [text|i name input|]; simpl;
    [| |left; by apply phase_kept_same].
  - destruct (_ && _); [apply lead_text_phase|left; by apply phase_kept_same].
  - assert (phase_kept
              (if decide (name = "Task") then launch_task cfg t i input s
               else s)
              match parent with
              | Some p =>
                  if truthy p
                  then subagent_tool_use t p name input
                         (if decide (name = "Task")
                          then launch_task cfg t i input s else s)
                  else if decide (name = "Task")
                       then launch_task cfg t i input s else s
              | None =>
                  if decide (name = "Task")
                  then launch_task cfg t i input s else s
              end) as Htail.
    { destruct parent as [p|]; [|by apply phase_kept_same].
      destruct (truthy p); [|by apply phase_kept_same].
      apply subagent_tool_use_phase_kept. }
    case_decide.
    + destruct (launch_task_phase_events cfg t i input s) as [H1|H1].
      * left. eapply phase_kept_trans; eauto.
      * right. eapply phase_moved_kept; eauto.
    + by left.
Qed.

Lemma process_user_block_phase_kept t s b :
  phase_kept s (process_user_block t s b).
Proof.
  split; [apply process_user_block_phase|].
  destruct (process_user_block_appends
              (fun ev => match ev with EvPhase _ _ _ => False | _ => True end)
              ltac:(done) ltac:(done) ltac:(done) t s b) as (evs & He & Hq).
  exists evs. split; [done|]. clear He.
  induction Hq as [|ev evs Hev _ IH]; [done|].
  destruct ev; simpl in *; done.
Qed.

(** The invariant. [n] is the number of senior-developer delegations
    still ahead in the stream. *)
Definition phases_ascend (s : State) : Prop :=
  never_decreases (phase_events (emitted s))
  /\ last (phase_events (emitted s)) = Some (currentPhase (phases s)).

Definition senior_budget (s : State) (n : nat) : Prop :=
  (seniorDevCompleted (phases s) = true \/ has_senior (taskMap s) ->
   n = 0%nat)
  /\ (currentPhase (phases s) = Synthesizing ->
      seniorDevCompleted (phases s) = true)
  /\ (n <= 1)%nat.

Lemma phases_ascend_kept s s' :
  phase_kept s s' -> phases_ascend s -> phases_ascend s'.
Proof.
  intros [Hph (evs & He & Hpe)] [Hnd Hlast]. unfold phases_ascend.
  rewrite He, phase_events_app, Hpe, app_nil_r, Hph. by split.
Qed.

Lemma phases_ascend_moved s s' :
  phase_moved s s' ->
  (phase_rank (currentPhase (phases s))
   <= phase_rank (currentPhase (phases s')))%nat ->
  phases_ascend s -> phases_ascend s'.
Proof.
  intros (evs & He & Hpe) Hrank [Hnd Hlast]. unfold phases_ascend.
  rewrite He, phase_events_app, Hpe. split.
  - eapply never_decreases_snoc; eauto.
  - apply last_snoc.
Qed.

Lemma process_block_seniorDevCompleted cfg t parent s b :
  seniorDevCompleted (phases (process_block cfg t parent s b))
  = seniorDevCompleted (phases s).
Proof.
  destruct b as [text|i name input|]; simpl; [| |done].
  - destruct (_ && _); [|done]. unfold lead_text.
    by destruct (_ && _).
  - assert (seniorDevCompleted
              (phases (if decide (name = "Task")
                       then launch_task cfg t i input s else s))
            = seniorDevCompleted (phases s)) as H1.
    { case_decide; [|done]. unfold launch_task, detect_phase.
      repeat case_decide; done. }
    destruct parent as [p|]; [|done]. destruct (truthy p); [|done].
    by destruct (subagent_tool_use_counts t p name input
                   (if decide (name = "Task")
                    then launch_task cfg t i input s else s)) as [-> _].
Qed.

Lemma process_block_has_senior cfg t parent s b :
  has_senior (taskMap (process_block cfg t parent s b)) ->
  has_senior (taskMap s) \/ is_senior_delegation b = true.
Proof.
  destruct b as [text|i name input|]; simpl; [| |by left].
  - destruct (_ && _); [|by left].
    destruct (lead_text_counts t s) as (_ & _ & ->). by left.
  - assert (taskMap match parent with
                    | Some p =>
                        if truthy p
                        then subagent_tool_use t p name input
                               (if decide (name = "Task")
                                then launch_task cfg t i input s else s)
                        else if decide (name = "Task")
                             then launch_task cfg t i input s else s
                    | None =>
                        if decide (name = "Task")
                        then launch_task cfg t i input s else s
                    end
            = taskMap (if decide (name = "Task")
                       then launch_task cfg t i input s else s)) as ->.
    { destruct parent as [p|]; [|done]. destruct (truthy p); [|done].
      by destruct (subagent_tool_use_counts t p name input
                     (if decide (name = "Task")
                      then launch_task cfg t i input s else s)) as [_ ->]. }
    case_decide as Hname; [|rewrite bool_decide_eq_false_2 by done; by left].
    rewrite (bool_decide_eq_true_2 _ Hname). cbn [andb].
    destruct (launch_task_counts cfg t i input s) as (_ & _ & ->).
    intros (j & info & Hj & Hty).
    destruct (decide (i = j)) as [->|Hne].
    + rewrite lookup_insert_eq in Hj. injection Hj as <-. simpl in Hty.
      right. by apply bool_decide_eq_true_2.
    + rewrite lookup_insert_ne in Hj by done. left. by exists j, info.
Qed.

Lemma process_block_single_senior cfg t parent s b n :
  phases_ascend s ->
  senior_budget s ((if is_senior_delegation b then 1 else 0) + n) ->
  phases_ascend (process_block cfg t parent s b)
  /\ senior_budget (process_block cfg t parent s b) n.
Proof.
  intros Hasc (Hzero & Hsyn & Hle).
  pose proof (process_block_seniorDevCompleted cfg t parent s b) as Hdone.
  assert (phase_rank (currentPhase (phases s))
          <= phase_rank (currentPhase (phases (process_block cfg t parent s b))))%nat
    as Hrank.
  { destruct (process_block_phase_forward cfg t parent s b)
      as [H|(i & input & -> & Hty & Hph & _)]; [done|].
    exfalso.
    assert (is_senior_delegation (BToolUse i "Task" input) = true) as Hsd.
    { unfold is_senior_delegation. apply andb_true_intro.
      split; by apply bool_decide_eq_true_2. }
    rewrite Hsd in Hzero.
    specialize (Hzero (or_introl (Hsyn Hph))). lia. }
  split.
  - destruct (process_block_phase_events cfg t parent s b) as [H|H].
    + by eapply phases_ascend_kept.
    + by eapply phases_ascend_moved.
  - split; [|split].
    + rewrite Hdone. intros [Hc|Hs].
      * specialize (Hzero (or_introl Hc)). lia.
      * destruct (process_block_has_senior cfg t parent s b Hs) as [H|H].
        -- specialize (Hzero (or_intror H)). lia.
        -- rewrite H in Hle. lia.
    + rewrite Hdone. intros Hph.
      destruct (decide (currentPhase (phases s) = Synthesizing)) as [H|H];
        [by apply Hsyn|].
      destruct b as [text|i name input|]; simpl in *; [| |done].
      * destruct (truthy text && _); [|done]. unfold lead_text in Hph.
        destruct (seniorDevCompleted (phases s)) eqn:Hc; [done|].
        simpl in Hph. done.
      * exfalso.
        assert (currentPhase
                  (phases (if decide (name = "Task")
                           then launch_task cfg t i input s else s))
                = Synthesizing) as Hph'.
        { destruct parent as [p|]; [|done]. destruct (truthy p); [|done].
          by destruct (subagent_tool_use_counts t p name input
                         (if decide (name = "Task")
                          then launch_task cfg t i input s else s))
            as [<- _]. }
        case_decide; [|done].
        rewrite launch_task_phase in Hph'. cbv zeta in Hph'.
        repeat case_decide; done.
    + destruct (is_senior_delegation b); lia.
Qed.

Lemma process_user_block_single_senior t s b n :
  phases_ascend s -> senior_budget s n ->
  phases_ascend (process_user_block t s b)
  /\ senior_budget (process_user_block t s b) n.
Proof.
  intros Hasc (Hzero & Hsyn & Hle).
  split; [eapply phases_ascend_kept; [apply process_user_block_phase_kept|done]|].
  destruct (process_user_block_counts t s b) as (_ & Hmap & _).
  unfold senior_budget. rewrite Hmap, process_user_block_phase.
  assert (seniorDevCompleted (phases (process_user_block t s b)) = true ->
          seniorDevCompleted (phases s) = true \/ has_senior (taskMap s))
    as Hc.
  { destruct b as [[i|]|]; simpl; try (by left).
    destruct (truthy i); simpl; [|by left].
    destruct (taskMap s !! i) as [info|] eqn:Hi; [|by left].
    match goal with
    | |- context [emitUsageIfDue t ?x] =>
        destruct (emitUsageIfDue_counts t x) as (-> & _)
    end.
    simpl. case_decide; simpl; [by left|].
    case_decide; simpl; [|by left].
    intros _. right. by exists i, info. }
  split; [|split; [|done]].
  - intros [H|H]; [|by apply Hzero; right].
    apply Hzero. by apply Hc.
  - intros Hph. specialize (Hsyn Hph).
    destruct b as [[i|]|]; simpl; try done.
    destruct (truthy i); simpl; [|done].
    destruct (taskMap s !! i) as [info|]; [|done].
    match goal with
    | |- context [emitUsageIfDue t ?x] =>
        destruct (emitUsageIfDue_counts t x) as (-> & _)
    end.
    simpl. repeat case_decide; done.
Qed.

Lemma blocks_single_senior cfg t parent blocks s n :
  phases_ascend s ->
  senior_budget s (length (List.filter is_senior_delegation blocks) + n) ->
  phases_ascend (foldl (process_block cfg t parent) s blocks)
  /\ senior_budget (foldl (process_block cfg t parent) s blocks) n.
Proof.
  revert s. induction blocks as [|b blocks IH]; intros s Hasc Hb; simpl in *;
    [done|].
  assert (senior_budget s
            ((if is_senior_delegation b then 1 else 0)
             + (length (List.filter is_senior_delegation blocks) + n)))
    as Hb'.
  { destruct (is_senior_delegation b); simpl in *; [|done].
    by replace (S (length (List.filter is_senior_delegation blocks) + n))
      with (S (length (List.filter is_senior_delegation blocks)) + n)%nat
      by lia. }
  destruct (process_block_single_senior cfg t parent s b _ Hasc Hb')
    as [H1 H2].
  by apply IH.
Qed.

Lemma message_single_senior cfg t s m n :
  phases_ascend s -> senior_budget s (senior_in_message m + n) ->
  phases_ascend (process_message cfg t s m).1
  /\ senior_budget (process_message cfg t s m).1 n.
Proof.
  intros Hasc Hb.
  destruct m as [|parent u content|content| | |]; simpl in *; try done.
  - assert (phases_ascend
              match content with
              | Some blocks =>
                  foldl (process_block cfg t parent)
                    (set_usages (accumulate_usage parent u (usages s)) s)
                    blocks
              | None => set_usages (accumulate_usage parent u (usages s)) s
              end
            /\ senior_budget
                 match content with
                 | Some blocks =>
                     foldl (process_block cfg t parent)
                       (set_usages (accumulate_usage parent u (usages s)) s)
                       blocks
                 | None =>
                     set_usages (accumulate_usage parent u (usages s)) s
                 end n) as [H1 H2].
    { destruct content as [blocks|]; [|done].
      by apply blocks_single_senior. }
    split; [eapply phases_ascend_kept;
            [apply emitUsageIfDue_phase_kept|done]|].
    unfold senior_budget in *.
    match goal with
    | |- context [emitUsageIfDue t ?x] =>
        destruct (emitUsageIfDue_counts t x) as (-> & ->)
    end.
    done.
  - destruct content as [blocks|]; [|done].
    revert s Hasc Hb. induction blocks as [|b blocks IH]; intros s Hasc Hb;
      simpl; [done|].
    destruct (process_user_block_single_senior t s b n Hasc Hb) as [H1 H2].
    by apply IH.
Qed.

Lemma consume_single_senior cfg stream s :
  phases_ascend s -> senior_budget s (senior_delegations stream) ->
  phases_ascend (consume cfg s stream).1.
Proof.
  revert s. induction stream as [|[t [m|e]] rest IH]; intros s Hasc Hb;
    simpl; try done.
  unfold senior_delegations in Hb. simpl in Hb.
  fold (senior_delegations rest) in Hb.
  destruct (message_single_senior cfg t s m _ Hasc Hb) as [H1 H2].
  destruct (process_message cfg t s m) as [s' [e|]]; [done|].
  by apply IH.
Qed.

(** X7. When the lead delegates to the senior developer at most once,
    the phases carried by the [phase] events of [runReview] never step
    back in the order understanding, exploring, analyzing, synthesizing,
    whatever else the stream contains. *)
Theorem phases_never_decrease_single_senior
    (cfg : AgentConfig) (t0 : Z) (stream : list (Z * EngineStep)) (tend : Z) :
  (senior_delegations stream <= 1)%nat ->
  never_decreases (phase_events (runReview cfg t0 stream tend).1).
Proof.
  intros Hle.
  assert (phases_ascend (start_state t0)) as H0.
  { split; [|reflexivity].
    intros i j p q Hij Hi Hj. simpl in Hi, Hj.
    destruct i as [|i], j as [|j]; simpl in *; try done.
    by injection Hi as <-; injection Hj as <-. }
  assert (senior_budget (start_state t0) (senior_delegations stream)) as Hb.
  { split; [|split; [done|done]].
    intros [H|(i & info & Hi & _)]; [done|].
    simpl in Hi. by rewrite lookup_empty in Hi. }
  pose proof (consume_single_senior cfg stream _ H0 Hb) as [Hnd _].
  unfold runReview.
  destruct (consume cfg (start_state t0) stream) as [s [[t e]|]];
    simpl in *; rewrite !phase_events_app; simpl; by rewrite ?app_nil_r.
Qed.

Lemma phases_never_decrease_single_senior_witness :
  never_decreases
    (phase_events
       (runReview sample_cfg 0
          [ (1000, lead [delegate "e1" "codebase-explorer"]);
            (2000, tool_result "e1");
            (3000, lead [delegate "sd1" "senior-developer"]);
            (4000, tool_result "sd1");
            (5000, lead [BText "The review follows."]) ] 6000).1).
Proof.
  apply phases_never_decrease_single_senior.
  vm_compute. lia.
Defined.
End SingleSeniorDeveloper.

(** ** The background process and the store *)

Section BackgroundProcess.
Import Orchestrator Routes Journal Samples.

Lemma write_registry cid f srv :
  reviewEmitters (write cid f srv) = reviewEmitters srv
  /\ listeners (write cid f srv) = listeners srv
  /\ emitters_made (write cid f srv) = emitters_made srv
  /\ background (write cid f srv) = background srv
  /\ connections_made (write cid f srv) = connections_made srv.
Proof. unfold write. by destruct (connections srv !! cid). Qed.

Lemma emit_progress_registry em ev srv :
  reviewEmitters (emit_progress em ev srv) = reviewEmitters srv
  /\ listeners (emit_progress em ev srv) = listeners srv
  /\ emitters_made (emit_progress em ev srv) = emitters_made srv
  /\ background (emit_progress em ev srv) = background srv
  /\ connections_made (emit_progress em ev srv) = connections_made srv.
Proof.
  unfold emit_progress. generalize (listeners_of em srv). intros l.
  revert srv. induction l as [|x l IH]; intros srv; simpl; [done|].
  destruct (IH (write x (FData ev) srv)) as (-> & -> & -> & -> & ->).
  apply write_registry.
Qed.

Lemma publish_registry em events srv :
  let srv' := foldl (fun acc ev => emit_progress em ev acc) srv events in
  reviewEmitters srv' = reviewEmitters srv
  /\ listeners srv' = listeners srv
  /\ emitters_made srv' = emitters_made srv
  /\ background srv' = background srv
  /\ connections_made srv' = connections_made srv.
Proof.
  revert srv. induction events as [|ev events IH]; intros srv; simpl; [done|].
  destruct (IH (emit_progress em ev srv)) as (-> & -> & -> & -> & ->).
  apply emit_progress_registry.
Qed.

Lemma record_failure_registry t i e srv :
  reviewEmitters (record_failure t i e srv) = reviewEmitters srv
  /\ listeners (record_failure t i e srv) = listeners srv
  /\ emitters_made (record_failure t i e srv) = emitters_made srv
  /\ background (record_failure t i e srv) = background srv
  /\ connections_made (record_failure t i e srv) = connections_made srv.
Proof. unfold record_failure. by destruct (Storage.updateReviewStatus _ _ _ _ _). Qed.

(** What the process leaves in the store, in one equation. *)
Lemma review_process_disk cfg env run srv meta :
  Storage.getReviewMeta (run_reviewId run) (disk srv) = Some meta ->
  disk (review_process cfg env run srv)
  = match attempt cfg env with
    | Ok r =>
        Storage.mkDisk
          (<[run_reviewId run :=
               with_run meta StCompleted (Some (t_settled env))
                 (Storage.error meta) (Some (usage r))]>
             (Storage.metas (disk srv)))
          (<[run_reviewId run := output r]> (Storage.outputs (disk srv)))
    | Throw e =>
        Storage.mkDisk
          (<[run_reviewId run :=
               with_run meta StError (Some (t_settled env))
                 (if truthy (failure_message e)
                  then Some (failure_message e) else Storage.error meta)
                 (Storage.usage meta)]>
             (Storage.metas (disk srv)))
          (Storage.outputs (disk srv))
    end.
Proof.
  intros Hm. unfold review_process, attempt.
  unfold Storage.updateReviewStatus at 1. rewrite Hm. simpl.
  destruct (prd env) as [content|e].
  - destruct (runReview cfg (t_start env) (engine env) (t_end env))
      as [events [r|e]]; simpl.
    + unfold Storage.saveReviewUsage, Storage.saveReviewOutput,
        Storage.updateReviewStatus, Storage.getReviewMeta.
      rewrite publish_disk. simpl. rewrite lookup_insert_eq. simpl.
      rewrite lookup_insert_eq. simpl. by rewrite !insert_insert_eq.
    + unfold record_failure, Storage.updateReviewStatus,
        Storage.getReviewMeta.
      rewrite publish_disk. simpl. rewrite lookup_insert_eq. simpl.
      by rewrite !insert_insert_eq.
  - unfold record_failure, Storage.updateReviewStatus, Storage.getReviewMeta.
    simpl. rewrite lookup_insert_eq. simpl. by rewrite !insert_insert_eq.
Qed.

(** X8. The background process of a stored job always ends with the job
    settled: the stored status is completed when the document parsed and
    [runReview] returned, and error in every other case; the completion
    time is the instant of the last status update; the job's id, file
    name, repository paths and creation time are as before. *)
Theorem review_process_settles
    (cfg : AgentConfig) (env : RunEnv) (run : BackgroundRun) (srv : Server)
    (meta : Storage.ReviewMeta) :
  Storage.getReviewMeta (run_reviewId run) (disk srv) = Some meta ->
  exists meta',
    Storage.getReviewMeta (run_reviewId run)
      (disk (review_process cfg env run srv)) = Some meta'
    /\ Storage.status meta'
       = match attempt cfg env with
         | Ok _ => StCompleted
         | Throw _ => StError
         end
    /\ Storage.completedAt meta' = Some (t_settled env)
    /\ Storage.id meta' = Storage.id meta
    /\ Storage.fileName meta' = Storage.fileName meta
    /\ Storage.originalName meta' = Storage.originalName meta
    /\ Storage.repoPaths meta' = Storage.repoPaths meta
    /\ Storage.createdAt meta' = Storage.createdAt meta.
Proof.
  intros Hm. rewrite (review_process_disk cfg env run srv meta Hm).
  unfold Storage.getReviewMeta.
  destruct (attempt cfg env) as [r|e]; simpl; rewrite lookup_insert_eq;
    eexists; (split; [reflexivity|]); simpl; done.
Qed.

Lemma review_process_settles_witness :
  exists meta',
    Storage.getReviewMeta "r1"
      (disk (review_process sample_cfg (env_with explorer_then_done)
               sample_run (sample_server StPending None))) = Some meta'
    /\ Storage.status meta' = StCompleted
    /\ Storage.completedAt meta' = Some 9100.
Proof.
  destruct (review_process_settles sample_cfg (env_with explorer_then_done)
              sample_run (sample_server StPending None)
              (sample_meta StPending None) eq_refl)
    as (meta' & H1 & H2 & H3 & _).
  exists meta'. split; [exact H1|]. split; [exact H2|exact H3].
Defined.

(** X9. What a run stores for its job. A run that succeeds stores the
    returned markdown as the job's output and the returned usage in the
    job's record, and leaves the record's error field as it was, so the
    message of an earlier failure stays. A run that fails leaves the
    job's output and usage as they were. *)
Theorem review_process_stores
    (cfg : AgentConfig) (env : RunEnv) (run : BackgroundRun) (srv : Server)
    (meta : Storage.ReviewMeta) :
  Storage.getReviewMeta (run_reviewId run) (disk srv) = Some meta ->
  exists meta',
    Storage.getReviewMeta (run_reviewId run)
      (disk (review_process cfg env run srv)) = Some meta'
    /\ match attempt cfg env with
       | Ok r =>
           Storage.outputs (disk (review_process cfg env run srv))
             !! run_reviewId run = Some (output r)
           /\ Storage.usage meta' = Some (usage r)
           /\ Storage.error meta' = Storage.error meta
       | Throw _ =>
           Storage.outputs (disk (review_process cfg env run srv))
             !! run_reviewId run
           = Storage.outputs (disk srv) !! run_reviewId run
           /\ Storage.usage meta' = Storage.usage meta
       end.
Proof.
  intros Hm. rewrite (review_process_disk cfg env run srv meta Hm).
  unfold Storage.getReviewMeta.
  destruct (attempt cfg env) as [r|e]; simpl; rewrite !lookup_insert_eq;
    eexists; (split; [reflexivity|]); simpl; done.
Qed.

Lemma review_process_stores_witness :
  exists meta',
    Storage.getReviewMeta "r1"
      (disk (review_process sample_cfg (env_with explorer_then_done)
               sample_run (sample_server StError (Some "boom"))))
    = Some meta'
    /\ Storage.outputs
         (disk (review_process sample_cfg (env_with explorer_then_done)
                  sample_run (sample_server StError (Some "boom"))))
         !! "r1" = Some "the review"
    /\ Storage.error meta' = Some "boom".
Proof.
  destruct (review_process_stores sample_cfg (env_with explorer_then_done)
              sample_run (sample_server StError (Some "boom"))
              (sample_meta StError (Some "boom")) eq_refl)
    as (meta' & H1 & H2).
  exists meta'. split; [exact H1|].
  change (attempt sample_cfg (env_with explorer_then_done))
    with (Ok (A := OrchestratorResult)
            match (runReview sample_cfg 600 explorer_then_done 9000).2 with
            | Returned r => r
            | Raised _ => mkOrchestratorResult EmptyString 0 0
                            (mkSessionUsage 0 emptyTokenUsage [] 0 0 0)
            end) in H2.
  destruct H2 as (H2 & _ & H3). split; [exact H2|exact H3].
Defined.

(** X10. The background process touches one job only: the records and
    outputs of every other job are as before, whether or not the job
    itself is in the store, and the emitter registry, the listeners, the
    list of background runs and both counters are unchanged. *)
Theorem review_process_touches_one_job
    (cfg : AgentConfig) (env : RunEnv) (run : BackgroundRun) (srv : Server) :
  delete (run_reviewId run)
    (Storage.metas (disk (review_process cfg env run srv)))
  = delete (run_reviewId run) (Storage.metas (disk srv))
  /\ delete (run_reviewId run)
       (Storage.outputs (disk (review_process cfg env run srv)))
     = delete (run_reviewId run) (Storage.outputs (disk srv))
  /\ reviewEmitters (review_process cfg env run srv) = reviewEmitters srv
  /\ listeners (review_process cfg env run srv) = listeners srv
  /\ emitters_made (review_process cfg env run srv) = emitters_made srv
  /\ background (review_process cfg env run srv) = background srv
  /\ connections_made (review_process cfg env run srv)
     = connections_made srv.
Proof.
  split; [|split].
  - destruct (Storage.getReviewMeta (run_reviewId run) (disk srv))
      as [meta|] eqn:Hm.
    + rewrite (review_process_disk cfg env run srv meta Hm).
      destruct (attempt cfg env); simpl; by rewrite delete_insert_eq.
    + unfold review_process, record_failure, Storage.updateReviewStatus.
      by rewrite Hm.
  - destruct (Storage.getReviewMeta (run_reviewId run) (disk srv))
      as [meta|] eqn:Hm.
    + rewrite (review_process_disk cfg env run srv meta Hm).
      destruct (attempt cfg env); simpl; by rewrite ?delete_insert_eq.
    + unfold review_process, record_failure, Storage.updateReviewStatus.
      by rewrite Hm.
  - unfold review_process.
    destruct (Storage.updateReviewStatus (t_running env) _ _ _ _)
      as [d1|e]; [|apply record_failure_registry].
    destruct (prd env) as [content|e];
      [|apply (record_failure_registry _ _ _ (set_disk d1 srv))].
    destruct (runReview cfg (t_start env) (engine env) (t_end env))
      as [events outcome].
    pose proof (publish_registry (run_emitter run) events (set_disk d1 srv))
      as Hp. cbv zeta in Hp.
    set (srv2 := foldl _ _ events) in *.
    destruct outcome as [r|e].
    + destruct (Storage.saveReviewUsage _ _ _) as [d3|e].
      * destruct (Storage.updateReviewStatus (t_settled env) _ _ _ _)
          as [d4|e].
        -- exact Hp.
        -- destruct (record_failure_registry (t_settled env)
                       (run_reviewId run) e (set_disk d3 srv2))
             as (-> & -> & -> & -> & ->).
           exact Hp.
      * match goal with
        | |- context [record_failure ?a ?b ?c ?d] =>
            destruct (record_failure_registry a b c d)
              as (-> & -> & -> & -> & ->)
        end.
        exact Hp.
    + destruct (record_failure_registry (t_settled env)
                  (run_reviewId run) e srv2) as (-> & -> & -> & -> & ->).
      exact Hp.
Qed.
End BackgroundProcess.

(** ** Event streams *)

Section EventStreams.
Import Orchestrator Routes Journal Samples.

Lemma add_frames_nil c : add_frames [] c = c.
Proof. destruct c. unfold add_frames. simpl. by rewrite app_nil_r. Qed.

Lemma add_frames_app fs1 fs2 c :
  add_frames fs2 (add_frames fs1 c) = add_frames (fs1 ++ fs2) c.
Proof. unfold add_frames. simpl. by rewrite app_assoc. Qed.

Lemma write_connections x f srv cid :
  connections (write x f srv) !! cid
  = add_frames (if decide (x = cid) then [f] else [])
      <$> connections srv !! cid.
Proof.
  unfold write. destruct (connections srv !! x) as [c|] eqn:Hx.
  - simpl. case_decide as Hxc.
    + subst x. by rewrite lookup_insert_eq, Hx.
    + rewrite lookup_insert_ne by done.
      destruct (connections srv !! cid) as [c'|]; simpl; [|done].
      by rewrite add_frames_nil.
  - case_decide as Hxc.
    + subst x. by rewrite Hx.
    + destruct (connections srv !! cid) as [c'|]; simpl; [|done].
      by rewrite add_frames_nil.
Qed.

Lemma fan_out_connections l f srv cid :
  connections (foldl (fun acc x => write x f acc) srv l) !! cid
  = add_frames (replicate (count_occ Nat.eq_dec l cid) f)
      <$> connections srv !! cid.
Proof.
  revert srv. induction l as [|x l IH]; intros srv; simpl.
  - destruct (connections srv !! cid); simpl; [|done].
    by rewrite add_frames_nil.
  - rewrite IH, write_connections.
    destruct (connections srv !! cid) as [c|]; simpl; [|done].
    rewrite add_frames_app. f_equal. f_equal.
    destruct (Nat.eq_dec x cid) as [->|Hne].
    + by rewrite decide_True.
    + by rewrite decide_False.
Qed.

Lemma emit_progress_listeners_of em em' ev srv :
  listeners_of em' (emit_progress em ev srv) = listeners_of em' srv.
Proof.
  unfold listeners_of.
  by destruct (emit_progress_registry em ev srv) as (_ & -> & _).
Qed.

(** X11. Publishing a run's events: every open connection receives each
    event once per attachment of its listener to the run's emitter, in
    the order of emission and after what it had already received; a
    connection whose listener is not attached receives nothing, and no
    connection is opened or closed. *)
Theorem publish_delivers_in_order
    (em : nat) (events : list ProgressEvent) (srv : Server) (cid : nat) :
  connections (foldl (fun acc ev => emit_progress em ev acc) srv events)
    !! cid
  = add_frames
      (flat_map (fun ev => replicate (attachments cid em srv) (FData ev))
         events)
      <$> connections srv !! cid.
Proof.
  revert srv. induction events as [|ev events IH]; intros srv; simpl.
  - destruct (connections srv !! cid); simpl; [|done].
    by rewrite add_frames_nil.
  - rewrite IH. unfold attachments at 1.
    rewrite emit_progress_listeners_of.
    unfold emit_progress at 1. rewrite fan_out_connections.
    destruct (connections srv !! cid) as [c|]; simpl; [|done].
    by rewrite add_frames_app.
Qed.

Lemma remove_last_snoc x l : remove_last x (l ++ [x]) = l.
Proof.
  unfold remove_last. rewrite rev_app_distr. simpl.
  rewrite decide_True by done. apply rev_involutive.
Qed.

Lemma listeners_of_insert em em' l srv :
  listeners_of em' (set_listeners (<[em := l]> (listeners srv)) srv)
  = if decide (em = em') then l else listeners_of em' srv.
Proof.
  unfold listeners_of. simpl. case_decide as H.
  - subst. by rewrite lookup_insert_eq.
  - by rewrite lookup_insert_ne.
Qed.

(** X12. Opening the event stream of a job that is not settled and then
    closing it leaves the server as it was, the connection counter
    apart: the connection is gone, every emitter has the listeners it
    had, in the same order, and the store and the emitter registry are
    untouched. The connection number is the next free one. *)
Theorem stream_then_close_restores
    (t : Z) (reviewId : string) (srv : Server) (meta : Storage.ReviewMeta) :
  Storage.getReviewMeta reviewId (disk srv) = Some meta ->
  Storage.status meta <> StCompleted ->
  Storage.status meta <> StError ->
  connections srv !! connections_made srv = None ->
  let srv' := on_close (connections_made srv) (stream_route t reviewId srv).2 in
  connections srv' = connections srv
  /\ (forall em, listeners_of em srv' = listeners_of em srv)
  /\ disk srv' = disk srv
  /\ reviewEmitters srv' = reviewEmitters srv
  /\ background srv' = background srv.
Proof.
  intros Hm Hc He Hfresh. destruct srv as [d re ls n bg conns cm].
  unfold stream_route. rewrite Hm.
  rewrite (bool_decide_eq_false_2 _ Hc), (bool_decide_eq_false_2 _ He).
  simpl in *. unfold on_close. simpl. rewrite lookup_insert_eq. simpl.
  destruct (re !! reviewId) as [em|] eqn:Hem; simpl; rewrite Hem; simpl.
  - rewrite decide_True by done. simpl.
    rewrite delete_insert_id by done.
    repeat split; try done.
    intros em'. unfold listeners_of. simpl. unfold listeners_of. simpl.
    rewrite lookup_insert_eq. simpl.
    rewrite insert_insert_eq, remove_last_snoc.
    destruct (decide (em = em')) as [->|Hne].
    + by rewrite lookup_insert_eq.
    + by rewrite lookup_insert_ne.
  - rewrite delete_insert_id by done. done.
Qed.

Lemma stream_then_close_restores_witness :
  let srv :=
    startReviewProcess "r1" "r1_prd.md" ["/repo"]
      (sample_server StRunning None) in
  let srv' := on_close 0 (stream_route 700 "r1" srv).2 in
  connections srv' = connections srv
  /\ (forall em, listeners_of em srv' = listeners_of em srv)
  /\ disk srv' = disk srv
  /\ reviewEmitters srv' = reviewEmitters srv
  /\ background srv' = background srv.
Proof.
  apply (stream_then_close_restores 700 "r1"
           (startReviewProcess "r1" "r1_prd.md" ["/repo"]
              (sample_server StRunning None))
           (sample_meta StRunning None)); done.
Defined.
End EventStreams.

(** ** Streams opened before the emitter exists, and reruns *)

Section LateAttachment.
Import Orchestrator Routes Journal Samples.

Ltac run_server :=
  repeat
    (progress
       (unfold frames_of, poll_tick, emit_progress, listeners_of, on_close,
          on_progress, removeListener, removeAllListeners, emitter_cleanup,
          set_listeners, set_connections, set_disk, startReviewProcess,
          write;
        simpl;
        rewrite ?lookup_insert_eq, ?lookup_delete_eq, ?insert_insert_eq)).

(** X13. A stream opened for an unsettled job that has no emitter yet
    is told to wait and polls. Once the job's process has registered its
    emitter, an event published before the next poll tick does not
    reach the stream; after the tick every event does; a further tick
    changes nothing; and closing the stream detaches its listener from
    the emitter it found by polling. *)
Theorem late_stream_attaches_at_poll
    (t : Z) (reviewId filePath : string) (paths : list string)
    (ev : ProgressEvent) (srv : Server) (meta : Storage.ReviewMeta) :
  Storage.getReviewMeta reviewId (disk srv) = Some meta ->
  Storage.status meta <> StCompleted ->
  Storage.status meta <> StError ->
  reviewEmitters srv !! reviewId = None ->
  let cid := connections_made srv in
  let em := emitters_made srv in
  let srv1 := (stream_route t reviewId srv).2 in
  let srv2 := startReviewProcess reviewId filePath paths srv1 in
  let srv3 := poll_tick cid srv2 in
  frames_of cid srv1 = Some [waiting t]
  /\ frames_of cid (emit_progress em ev srv2) = Some [waiting t]
  /\ frames_of cid (emit_progress em ev srv3) = Some [waiting t; FData ev]
  /\ poll_tick cid srv3 = srv3
  /\ listeners_of em (on_close cid srv3) = [].
Proof.
  intros Hm Hc He Hem. destruct srv as [d re ls n bg conns cm].
  unfold stream_route. rewrite Hm.
  rewrite (bool_decide_eq_false_2 _ Hc), (bool_decide_eq_false_2 _ He).
  simpl in *. rewrite Hem. simpl.
  repeat split; run_server; try done.
  unfold remove_last. simpl. by rewrite decide_True.
Qed.

Lemma late_stream_attaches_at_poll_witness :
  frames_of 0
    (emit_progress 0 (EvProgress 900 5 "Analyzing PRD...")
       (poll_tick 0
          (startReviewProcess "r1" "r1_prd.md" ["/repo"]
             (stream_route 700 "r1" (sample_server StPending None)).2)))
  = Some [waiting 700; FData (EvProgress 900 5 "Analyzing PRD...")].
Proof.
  apply (late_stream_attaches_at_poll 700 "r1" "r1_prd.md" ["/repo"]
           (EvProgress 900 5 "Analyzing PRD...")
           (sample_server StPending None) (sample_meta StPending None));
    done.
Defined.

(** X14. A rerun started before the cleanup timer of the job's earlier
    run has fired loses its registration: when that timer fires it
    deletes the registry entry of the job, which by then names the
    rerun's emitter. The rerun is in the list of background runs, but a
    stream opened afterwards finds no emitter, is told to wait, finds
    none at its poll tick either, and receives nothing of what the rerun
    publishes. *)
Theorem stale_cleanup_unregisters_rerun
    (t t' : Z) (reviewId : string) (old : BackgroundRun)
    (ev : ProgressEvent) (srv : Server) (meta : Storage.ReviewMeta) :
  Storage.getReviewMeta reviewId (disk srv) = Some meta ->
  Storage.id meta = reviewId ->
  Storage.status meta <> StRunning ->
  run_reviewId old = reviewId ->
  let em := emitters_made srv in
  let cid := connections_made srv in
  let srv1 := emitter_cleanup old (rerun_route t reviewId srv).2 in
  let srv2 := poll_tick cid (stream_route t' reviewId srv1).2 in
  last (background srv1)
  = Some (mkBackgroundRun reviewId em
            (uploadedFilePath reviewId (Storage.fileName meta))
            (Storage.repoPaths meta))
  /\ reviewEmitters srv1 !! reviewId = None
  /\ (stream_route t' reviewId srv1).1 = EventStream [waiting t'] false
  /\ frames_of cid (emit_progress em ev srv2) = Some [waiting t'].
Proof.
  intros Hm Hid Hst Hold. destruct srv as [d re ls n bg conns cm].
  unfold rerun_route. rewrite Hm. rewrite decide_False by done.
  unfold Storage.updateReviewStatus. rewrite Hid, Hm.
  simpl in *. run_server. rewrite Hold. run_server.
  rewrite last_snoc.
  unfold stream_route, Storage.getReviewMeta. run_server.
  repeat split.
  destruct (decide (run_emitter old = n)) as [->|Hne].
  - by run_server.
  - rewrite lookup_insert_ne by done. by run_server.
Qed.

Lemma stale_cleanup_unregisters_rerun_witness :
  reviewEmitters
    (emitter_cleanup sample_run
       (rerun_route 20000 "r1" (sample_server StCompleted None)).2)
    !! "r1" = None.
Proof.
  apply (stale_cleanup_unregisters_rerun 20000 21000 "r1" sample_run
           (EvProgress 900 5 "Analyzing PRD...")
           (sample_server StCompleted None) (sample_meta StCompleted None));
    done.
Defined.

(** X15. A rerun keeps what the earlier run left: the record answered by
    the rerun route, which is the stored one, has status pending and the
    completion time, error message and usage of the earlier run, the
    stored output stays, and the status route goes on answering with
    the earlier error message. *)
Theorem rerun_keeps_previous_results
    (t : Z) (reviewId : string) (srv : Server) (meta : Storage.ReviewMeta) :
  Storage.getReviewMeta reviewId (disk srv) = Some meta ->
  Storage.id meta = reviewId ->
  Storage.status meta <> StRunning ->
  let kept :=
    with_run meta StPending (Storage.completedAt meta) (Storage.error meta)
      (Storage.usage meta) in
  (rerun_route t reviewId srv).1 = Json 200 (BodyMeta (Some kept))
  /\ Storage.getReviewMeta reviewId (disk (rerun_route t reviewId srv).2)
     = Some kept
  /\ Storage.outputs (disk (rerun_route t reviewId srv).2)
     = Storage.outputs (disk srv)
  /\ status_route reviewId (rerun_route t reviewId srv).2
     = Json 200 (BodyStatus reviewId StPending (Storage.error meta)).
Proof.
  intros Hm Hid Hst. unfold rerun_route. rewrite Hm.
  rewrite decide_False by done.
  unfold Storage.updateReviewStatus. rewrite Hid, Hm.
  unfold status_route, Storage.getReviewMeta. simpl.
  rewrite !lookup_insert_eq. simpl.
  repeat split. by rewrite Hid.
Qed.

Lemma rerun_keeps_previous_results_witness :
  status_route "r1"
    (rerun_route 20000 "r1" (sample_server StError (Some "boom"))).2
  = Json 200 (BodyStatus "r1" StPending (Some "boom")).
Proof.
  apply (rerun_keeps_previous_results 20000 "r1"
           (sample_server StError (Some "boom"))
           (sample_meta StError (Some "boom"))); done.
Defined.
End LateAttachment.

(** ** The progress panel over a whole log *)

Section PanelOverLog.
Import ProgressPanel Observe Ledger Screen.

Lemma handle_all_snoc events ev p :
  handle_all (events ++ [ev]) p = handleEvent ev (handle_all events p).
Proof. unfold handle_all. by rewrite foldl_app. Qed.

Lemma keep_last_fits {A} (n : nat) (l : list A) :
  (length l <= n)%nat -> keep_last n l = l.
Proof.
  intros H. unfold keep_last.
  by replace (length l - n)%nat with 0%nat by lia.
Qed.

Lemma keep_last_app {A} (n : nat) (l r : list A) :
  keep_last n (keep_last n l ++ r) = keep_last n (l ++ r).
Proof.
  destruct (decide (length l <= n)%nat) as [H|H].
  - by rewrite (keep_last_fits n l H).
  - unfold keep_last. rewrite !length_app, length_drop.
    rewrite <- (drop_app_le l r (length l - n)) by lia.
    rewrite drop_drop. f_equal. lia.
Qed.

Lemma push_activity_keep_last e prev :
  push_activity e prev = keep_last 50 (prev ++ [e]).
Proof.
  unfold push_activity. case_decide as H; [done|].
  by rewrite keep_last_fits by lia.
Qed.

(** X16. The activity feed is the last 50 activity entries: after any
    sequence of events, the feed holds the entries it had followed by
    those of the sequence's [activity] events, in order, cut down to the
    50 most recent; no other event touches it. *)
Theorem activity_feed_keeps_last_50
    (events : list ProgressEvent) (p : Panel) :
  (length (activities p) <= 50)%nat ->
  activities (handle_all events p)
  = keep_last 50 (activities p ++ activity_entries events).
Proof.
  revert p. induction events as [|ev events IH]; intros p Hp.
  - change (activities p = keep_last 50 (activities p ++ [])).
    by rewrite app_nil_r, keep_last_fits.
  - assert (forall q, activities q = activities p ->
              activities (handle_all events q)
              = keep_last 50 (activities p ++ activity_entries events))
      as Hsame.
    { intros q Hq. rewrite IH, Hq by (rewrite Hq; exact Hp). done. }
    destruct ev as [ts ph msg|ts a d st|ts a tool detail|ts pc msg
                    |ts sess subs cost|ts st msg];
      try (apply Hsame; reflexivity).
    + change (activities
                (handle_all events
                   (handleEvent (EvActivity ts a tool detail) p))
              = keep_last 50
                  (activities p
                   ++ mkActivityEntry ts a tool detail
                      :: activity_entries events)).
      rewrite IH.
      * cbn [handleEvent activities]. rewrite push_activity_keep_last.
        rewrite keep_last_app. by rewrite <- app_assoc.
      * cbn [handleEvent activities]. rewrite push_activity_keep_last.
        unfold keep_last. rewrite length_drop. lia.
    + apply Hsame. simpl. by case_decide.
Qed.

Lemma activity_feed_keeps_last_50_witness :
  activities
    (handle_all
       [EvActivity 1000 "codebase-explorer" "Read" "src/a.ts";
        EvProgress 1100 15 "Exploring codebase...";
        EvActivity 2100 "codebase-explorer" "Grep" "pattern: x"]
       initial_panel)
  = keep_last 50
      (activities initial_panel
       ++ activity_entries
            [EvActivity 1000 "codebase-explorer" "Read" "src/a.ts";
             EvProgress 1100 15 "Exploring codebase...";
             EvActivity 2100 "codebase-explorer" "Grep" "pattern: x"]).
Proof.
  apply activity_feed_keeps_last_50. simpl. lia.
Defined.

(** The entries of the stepper for a phase reached. *)
Definition stepper (cur : ReviewPhase) (l : list PhaseInfo) : Prop :=
  Forall2 (fun k p =>
             key p = k /\ label p = PHASE_LABELS k
             /\ status p = stepper_status cur k)
    PHASE_ORDER l.

Lemma mark_phase_stepper cur q msg l :
  (phase_rank cur <= phase_rank q)%nat ->
  stepper cur l -> stepper q (mark_phase q msg l).
Proof.
  intros Hle Hl. unfold stepper, mark_phase in *.
  apply Forall2_fmap_r.
  eapply Forall2_impl; [exact Hl|].
  intros k p (Hk & Hlab & Hst). subst k.
  unfold compose, stepper_status in *. rewrite !indexOf_PHASE_ORDER.
  destruct (decide (key p = q)) as [Hq|Hq]; simpl; [done|].
  destruct (decide (Z.of_nat (phase_rank (key p)) < Z.of_nat (phase_rank q)))
    as [Hlt|Hlt]; simpl.
  - rewrite decide_True by lia. done.
  - repeat split; [done|]. rewrite Hst.
    assert (phase_rank (key p) <> phase_rank q) as Hne.
    { intros Heq. apply Hq. destruct (key p), q; simpl in Heq; congruence. }
    repeat case_decide; try done; try lia.
    exfalso. apply Hne. replace (key p) with cur in *. lia.
Qed.

Lemma never_decreases_snoc_inv l q :
  never_decreases (l ++ [q]) ->
  never_decreases l
  /\ (phase_rank (default Understanding (last l)) <= phase_rank q)%nat.
Proof.
  intros H. split.
  - intros i j x y Hij Hi Hj.
    apply (H i j x y Hij); by apply lookup_app_l_Some.
  - destruct (last l) as [x|] eqn:Hlast; simpl; [|lia].
    rewrite last_lookup in Hlast.
    pose proof (lookup_lt_Some _ _ _ Hlast) as Hlen.
    apply (H (pred (length l)) (length l) x q); [lia| |].
    + by apply lookup_app_l_Some.
    + rewrite lookup_app_r by lia. by rewrite Nat.sub_diag.
Qed.

(** X17. While the phases of the [phase] events handled so far have not
    stepped back and no [complete] event has been handled, the stepper
    shows exactly the phase reached: the entry of the last [phase]
    event (understanding before any) is active, every earlier entry is
    completed and every later one pending, in the fixed order and with
    the fixed labels. *)
Theorem stepper_shows_phase_reached (events : list ProgressEvent) :
  never_decreases (phase_events events) ->
  Forall (fun ev => ~ is_complete ev) events ->
  Forall2 (fun k p =>
             key p = k /\ label p = PHASE_LABELS k
             /\ status p = stepper_status (current_phase events) k)
    PHASE_ORDER (phases (handle_all events initial_panel)).
Proof.
  induction events as [|ev events IH] using rev_ind; intros Hnd Hnc.
  - unfold current_phase. simpl. repeat constructor.
  - apply Forall_app in Hnc as [Hnc Hev]. apply Forall_cons in Hev as [Hev _].
    rewrite handle_all_snoc. unfold current_phase in *.
    unfold phase_events in *. rewrite omap_app in *.
    destruct ev as [ts ph msg|ts a d st|ts a tool detail|ts pc msg
                    |ts sess subs cost|ts st msg];
      simpl in *; rewrite ?app_nil_r in *; try (by apply IH).
    + apply never_decreases_snoc_inv in Hnd as [Hnd Hle].
      rewrite last_snoc. simpl.
      apply (mark_phase_stepper _ _ _ _ Hle). by apply IH.
    + by destruct Hev.
Qed.

Lemma stepper_shows_phase_reached_witness :
  Forall2 (fun k p =>
             key p = k /\ label p = PHASE_LABELS k
             /\ status p = stepper_status Analyzing k)
    PHASE_ORDER
    (phases
       (handle_all
          [EvPhase 1000 Exploring "Exploring codebase (0/1 sections)...";
           EvProgress 1000 10 "Exploring codebase (0/1 complete)";
           EvPhase 5000 Analyzing "Senior developer analyzing findings..."]
          initial_panel)).
Proof.
  apply (stepper_shows_phase_reached
           [EvPhase 1000 Exploring "Exploring codebase (0/1 sections)...";
            EvProgress 1000 10 "Exploring codebase (0/1 complete)";
            EvPhase 5000 Analyzing "Senior developer analyzing findings..."]).
  - intros i j p q Hij Hi Hj.
    destruct i as [|[|i]], j as [|[|j]]; simpl in *;
      try discriminate; try lia;
      injection Hi as <-; injection Hj as <-; simpl; lia.
  - repeat (constructor; [intros H; exact H|]). constructor.
Defined.

(** A phase that steps back leaves two entries active. *)
Lemma stepper_after_step_back :
  map status
    (phases
       (handle_all
          [EvPhase 1000 Analyzing "Senior developer analyzing findings...";
           EvPhase 2000 Synthesizing "Synthesizing final review...";
           EvPhase 3000 Analyzing "Senior developer analyzing findings..."]
          initial_panel))
  = [PhaseCompleted; PhaseCompleted; PhaseActive; PhaseActive].
Proof. reflexivity. Qed.
End PanelOverLog.


(** ** The subagent list of the panel *)

Section SubagentList.
Import ProgressPanel Observe Ledger Screen.

Lemma same_is_identity agentType descr s :
  bool_decide (sa_agentType s = agentType)
  && bool_decide (sa_description s = descr)
  = bool_decide (identity s = (agentType, descr)).
Proof.
  unfold identity. destruct s as [a d st]. simpl.
  repeat case_bool_decide; simpl; congruence.
Qed.

Lemma existsb_same {A} (f g : A -> bool) (l : list A) :
  (forall a, f a = g a) -> existsb f l = existsb g l.
Proof. intros H. induction l as [|a l IH]; simpl; [done|]. by rewrite H, IH. Qed.

Lemma existsb_identity k (l : list SubagentInfo) :
  existsb (fun s => bool_decide (identity s = k)) l = true
  <-> k ∈ map identity l.
Proof.
  induction l as [|s l IH]; simpl.
  - split; [done|by intros H%elem_of_nil].
  - rewrite orb_true_iff, IH, bool_decide_eq_true, elem_of_cons.
    split; (intros [H|H]; [by left|by right]).
Qed.

Lemma shown_absent k l :
  existsb (fun s => bool_decide (identity s = k)) l = false ->
  shown k l = None.
Proof.
  unfold shown. induction l as [|s l IH]; simpl; [done|].
  intros [H1 H2]%orb_false_iff. rewrite H1. by apply IH.
Qed.

Lemma shown_restamped k0 st k prev :
  shown k
    (map (fun s =>
            if bool_decide (identity s = k0)
            then mkSubagentInfo (sa_agentType s) (sa_description s) st
            else s) prev)
  = if bool_decide (k0 = k)
    then (if existsb (fun s => bool_decide (identity s = k0)) prev
          then Some st else None)
    else shown k prev.
Proof.
  unfold shown. induction prev as [|s prev IH]; simpl.
  - by case_bool_decide.
  - destruct (bool_decide (identity s = k0)) eqn:Hs0.
    + apply bool_decide_eq_true_1 in Hs0.
      change (identity (mkSubagentInfo (sa_agentType s) (sa_description s) st))
        with (identity s).
      rewrite Hs0. simpl. by case_bool_decide.
    + apply bool_decide_eq_false_1 in Hs0. simpl.
      destruct (bool_decide (identity s = k)) eqn:Hsk.
      * apply bool_decide_eq_true_1 in Hsk. simpl.
        by rewrite (bool_decide_eq_false_2 (k0 = k)) by congruence.
      * exact IH.
Qed.

Lemma shown_snoc k s prev :
  shown k (prev ++ [s])
  = match shown k prev with
    | Some st => Some st
    | None => if bool_decide (identity s = k) then Some (sa_status s) else None
    end.
Proof.
  unfold shown. induction prev as [|s' prev IH]; simpl.
  - by case_bool_decide.
  - destruct (bool_decide (identity s' = k)); simpl; [done|apply IH].
Qed.

Lemma upsert_subagent_shown agentType descr st prev k :
  shown k (upsert_subagent agentType descr st prev)
  = if bool_decide ((agentType, descr) = k) then Some st else shown k prev.
Proof.
  unfold upsert_subagent.
  rewrite (existsb_same _ (fun s => bool_decide (identity s = (agentType, descr))))
    by (intros s; apply same_is_identity).
  rewrite (map_ext _ (fun s =>
            if bool_decide (identity s = (agentType, descr))
            then mkSubagentInfo (sa_agentType s) (sa_description s) st
            else s))
    by (intros s; by rewrite same_is_identity).
  destruct (existsb _ prev) eqn:Hin.
  - rewrite shown_restamped, Hin. done.
  - rewrite shown_snoc. simpl. unfold identity at 1. simpl.
    destruct (decide ((agentType, descr) = k)) as [<-|Hk].
    + rewrite !bool_decide_eq_true_2 by done. by rewrite shown_absent.
    + rewrite !bool_decide_eq_false_2 by done. by destruct (shown k prev).
Qed.

Lemma upsert_subagent_NoDup agentType descr st prev :
  NoDup (map identity prev) ->
  NoDup (map identity (upsert_subagent agentType descr st prev)).
Proof.
  intros Hnd. unfold upsert_subagent.
  rewrite (existsb_same _ (fun s => bool_decide (identity s = (agentType, descr))))
    by (intros s; apply same_is_identity).
  destruct (existsb _ prev) eqn:Hin.
  - rewrite map_map.
    rewrite (map_ext _ identity); [done|].
    intros s. by destruct (_ && _).
  - rewrite map_app. simpl. apply NoDup_app. repeat split; [done| |].
    + intros k Hk Hk'. apply list_elem_of_singleton in Hk'. subst k.
      apply (proj2 (existsb_identity _ _)) in Hk.
      change (existsb
                (fun s => bool_decide (identity s = (agentType, descr)))
                prev = true) in Hk.
      rewrite Hin in Hk. discriminate Hk.
    + apply NoDup_singleton.
Qed.

Lemma latest_snoc k events ev :
  latest k (events ++ [ev])
  = match ev with
    | EvSubagent _ agentType descr st =>
        if bool_decide ((agentType, descr) = k) then Some st
        else latest k events
    | _ => latest k events
    end.
Proof.
  unfold latest. rewrite omap_app.
  destruct ev; simpl; rewrite ?app_nil_r; try done.
  case_bool_decide; simpl; [|by rewrite app_nil_r].
  by rewrite last_snoc.
Qed.

(** X18. The subagent list of the panel is a map from identities (agent
    type and description) to statuses: after any sequence of events
    handled from the initial panel, no two entries have the same
    identity, and the status shown for an identity is that of the last
    [subagent] event with that identity, with no entry when there was
    none. *)
Theorem subagent_list_shows_latest_status (events : list ProgressEvent) :
  NoDup (map identity (subagents (handle_all events initial_panel)))
  /\ forall k,
       shown k (subagents (handle_all events initial_panel))
       = latest k events.
Proof.
  induction events as [|ev events [IHn IHs]] using rev_ind.
  - split; [constructor|done].
  - rewrite handle_all_snoc. split.
    + destruct ev; simpl; try done.
      * by apply upsert_subagent_NoDup.
      * by case_decide.
    + intros k. rewrite latest_snoc.
      destruct ev; simpl; try apply IHs.
      * rewrite upsert_subagent_shown. by rewrite IHs.
      * case_decide; apply IHs.
Qed.
End SubagentList.

(** ** The panel at the end of a run *)

Section PanelAtEnd.
Import Orchestrator Observe Ledger Screen.

Lemma handle_all_app l1 l2 p :
  handle_all (l1 ++ l2) p = handle_all l2 (handle_all l1 p).
Proof. unfold handle_all. by rewrite foldl_app. Qed.

Lemma mark_phase_keys q msg l :
  map ProgressPanel.key (ProgressPanel.mark_phase q msg l)
  = map ProgressPanel.key l.
Proof.
  unfold ProgressPanel.mark_phase. rewrite map_map. apply map_ext.
  intros p. repeat case_decide; done.
Qed.

Lemma handle_all_keys events p :
  map ProgressPanel.key (ProgressPanel.phases (handle_all events p))
  = map ProgressPanel.key (ProgressPanel.phases p).
Proof.
  revert p. induction events as [|ev events IH]; intros p; [done|].
  change (handle_all (ev :: events) p)
    with (handle_all events (ProgressPanel.handleEvent ev p)).
  rewrite IH. destruct ev; simpl; try done.
  - apply mark_phase_keys.
  - case_decide; simpl; [|done]. rewrite map_map. by apply map_ext.
Qed.

Lemma mark_phase_active q msg l :
  q ∈ map ProgressPanel.key l ->
  Exists (fun p => ProgressPanel.status p = ProgressPanel.PhaseActive)
    (ProgressPanel.mark_phase q msg l).
Proof.
  induction l as [|p l IH]; simpl; [by intros H%elem_of_nil|].
  intros [Hq|Hq]%elem_of_cons.
  - apply Exists_cons_hd. by rewrite decide_True.
  - apply Exists_cons_tl. by apply IH.
Qed.

Lemma handle_all_active events p :
  Forall (fun ev => ~ is_complete ev) events ->
  map ProgressPanel.key (ProgressPanel.phases p) = ProgressPanel.PHASE_ORDER ->
  Exists (fun q => ProgressPanel.status q = ProgressPanel.PhaseActive)
    (ProgressPanel.phases p) ->
  Exists (fun q => ProgressPanel.status q = ProgressPanel.PhaseActive)
    (ProgressPanel.phases (handle_all events p)).
Proof.
  revert p. induction events as [|ev events IH]; intros p Hnc Hk Ha; [done|].
  apply Forall_cons in Hnc as [Hev Hnc].
  change (handle_all (ev :: events) p)
    with (handle_all events (ProgressPanel.handleEvent ev p)).
  apply IH; [done| |].
  - rewrite <- Hk. apply (handle_all_keys [ev] p).
  - destruct ev as [ts ph msg| | | | |]; simpl; try done.
    apply mark_phase_active. rewrite Hk.
    unfold ProgressPanel.PHASE_ORDER. rewrite !elem_of_cons.
    destruct ph; auto.
Qed.

(** X19. The panel after the whole log of a run, handled from the
    initial panel: the switch to the output view is always scheduled
    and the four entries keep their fixed order. After a run that
    returned, the panel shows 100%, the completion message and every
    phase completed; after a run that raised, the phases are not marked
    completed: at least one entry is still shown active. *)
Theorem panel_at_end_of_run
    (cfg : AgentConfig) (t0 : Z) (stream : list (Z * EngineStep)) (tend : Z) :
  let p := handle_all (runReview cfg t0 stream tend).1
             ProgressPanel.initial_panel in
  ProgressPanel.completion_timer p = true
  /\ map ProgressPanel.key (ProgressPanel.phases p)
     = ProgressPanel.PHASE_ORDER
  /\ match engine_failure stream with
     | None =>
         ProgressPanel.percent p = 100
         /\ ProgressPanel.progressMessage p = "Review complete!"
         /\ Forall (fun q =>
                      ProgressPanel.status q = ProgressPanel.PhaseCompleted)
              (ProgressPanel.phases p)
     | Some _ =>
         Exists (fun q => ProgressPanel.status q = ProgressPanel.PhaseActive)
           (ProgressPanel.phases p)
     end.
Proof.
  cbv zeta. split; [|split].
  - unfold runReview.
    destruct (consume cfg (start_state t0) stream) as [s [[t e]|]];
      cbn [fst fail_run finish_run emit emitted];
      rewrite ?app_assoc, handle_all_snoc; simpl; by repeat case_decide.
  - by rewrite handle_all_keys.
  - destruct (consume_appends (fun ev => ~ is_complete ev)
                ltac:(intros; intros H; exact H)
                ltac:(intros; intros H; exact H)
                ltac:(intros; intros H; exact H)
                ltac:(intros; intros H; exact H)
                ltac:(intros; intros H; exact H) cfg stream (start_state t0))
      as (body & Hbody & Hquiet).
    pose proof (consume_failure cfg stream (start_state t0)) as Hfail.
    unfold runReview.
    destruct (consume cfg (start_state t0) stream) as [s oe].
    simpl in Hbody, Hfail. subst oe.
    destruct (engine_failure stream) as [[t e]|];
      cbn [fst fail_run finish_run emit emitted].
    + rewrite handle_all_snoc. cbn [ProgressPanel.handleEvent].
      rewrite decide_False by done. cbn [ProgressPanel.phases].
      rewrite Hbody.
      match goal with
      | |- context [handle_all (?a :: ?b :: body) ?q] =>
          change (handle_all (a :: b :: body) q)
            with (handle_all body (handle_all [a; b] q))
      end.
      apply handle_all_active; [done| |].
      * apply (handle_all_keys [_; _]).
      * apply Exists_cons_hd. reflexivity.
    + rewrite !handle_all_snoc. simpl.
      repeat split. apply Forall_fmap. by apply Forall_true.
Qed.
End PanelAtEnd.

(** ** Stored file names *)

Section SafeFileNames.
Import FileParser.

Lemma is_safe_underscore : is_safe_unit underscore = true.
Proof. reflexivity. Qed.

Lemma safe_unit_fixed c :
  is_safe_unit (if is_safe_unit c then c else underscore) = true.
Proof. destruct (is_safe_unit c) eqn:H; [exact H|reflexivity]. Qed.

(** X20. [getSafeFileName] keeps the length of a name and every code
    unit that is a letter, a digit, a dot, an underscore or a hyphen, in
    place; the result consists of such units only, so it holds no
    slash, backslash or NUL; sanitising twice is sanitising once; and
    the names it leaves unchanged are exactly those made of such
    units. *)
Theorem getSafeFileName_sanitises (name : list N) :
  length (getSafeFileName name) = length name
  /\ Forall (fun c => is_safe_unit c = true) (getSafeFileName name)
  /\ (forall i c, name !! i = Some c -> is_safe_unit c = true ->
        getSafeFileName name !! i = Some c)
  /\ Forall (fun c => c <> 47%N /\ c <> 92%N /\ c <> 0%N)
       (getSafeFileName name)
  /\ getSafeFileName (getSafeFileName name) = getSafeFileName name
  /\ (getSafeFileName name = name
      <-> Forall (fun c => is_safe_unit c = true) name).
Proof.
  assert (Forall (fun c => is_safe_unit c = true) (getSafeFileName name))
    as Hsafe.
  { unfold getSafeFileName. apply Forall_fmap, Forall_true.
    intros c. apply safe_unit_fixed. }
  split; [apply length_map|]. split; [exact Hsafe|]. split; [|split; [|split]].
  - intros i c Hi Hc. unfold getSafeFileName.
    rewrite list_lookup_fmap, Hi. simpl. by rewrite Hc.
  - eapply Forall_impl; [exact Hsafe|]. intros c Hc.
    repeat split; intros ->; discriminate Hc.
  - unfold getSafeFileName. rewrite map_map. apply map_ext.
    intros c. by rewrite safe_unit_fixed.
  - split.
    + intros <-. exact Hsafe.
    + intros Hall. clear Hsafe. unfold getSafeFileName.
      induction Hall as [|c l Hc _ IH]; [done|].
      cbn [map]. by rewrite Hc, IH.
Qed.
End SafeFileNames.

(** ** The log threshold *)

Section LogThreshold.
Import Logger.

Definition level_rank (l : LogLevel) : nat :=
  match l with LDebug => 0 | LInfo => 1 | LWarn => 2 | LError => 3 end.

Lemma LOG_LEVELS_level l :
  LOG_LEVELS (level_name l) = Some (Z.of_nat (level_rank l)).
Proof. by destruct l. Qed.

(** X21. The threshold of the logger. Under every setting the levels
    that log are closed upwards (if a level logs, every more severe one
    does); errors are logged exactly when the configured level is one of
    the four names, so a misspelt [LOG_LEVEL] silences every level,
    errors included; and with [LOG_LEVEL] unset or empty everything but
    debug is logged. *)
Theorem shouldLog_threshold (env : option string) :
  (forall l l', shouldLog env l = true ->
     (level_rank l <= level_rank l')%nat -> shouldLog env l' = true)
  /\ (shouldLog env LError = true
      <-> exists l, currentLevel env = level_name l)
  /\ ((forall l, shouldLog env l = false)
      <-> ~ exists l, currentLevel env = level_name l)
  /\ (forall l,
        (env = None \/ env = Some EmptyString) ->
        shouldLog env l = match l with LDebug => false | _ => true end).
Proof.
  assert ((exists l, currentLevel env = level_name l)
          <-> LOG_LEVELS (currentLevel env) <> None) as Hknown.
  { split.
    - intros [l ->]. by rewrite LOG_LEVELS_level.
    - unfold LOG_LEVELS. repeat case_decide; try done; intros _.
      + by exists LDebug.
      + by exists LInfo.
      + by exists LWarn.
      + by exists LError. }
  assert (forall b, LOG_LEVELS (currentLevel env) = Some b -> 0 <= b <= 3)
    as Hrange.
  { intros b. unfold LOG_LEVELS. repeat case_decide; try done;
      intros [= <-]; lia. }
  split; [|split; [|split]].
  - intros l l' Hl Hle. unfold shouldLog in *.
    rewrite LOG_LEVELS_level in *.
    destruct (LOG_LEVELS (currentLevel env)) as [b|]; [|done].
    apply bool_decide_eq_true_1 in Hl. apply bool_decide_eq_true_2. lia.
  - rewrite Hknown. unfold shouldLog. rewrite LOG_LEVELS_level.
    destruct (LOG_LEVELS (currentLevel env)) as [b|] eqn:Hb.
    + split; [done|]. intros _. apply bool_decide_eq_true_2.
      specialize (Hrange b eq_refl). simpl. lia.
    + split; [done|]. by intros H.
  - rewrite Hknown. unfold shouldLog.
    destruct (LOG_LEVELS (currentLevel env)) as [b|] eqn:Hb.
    + split; [|by intros H; exfalso; apply H].
      intros Hall. specialize (Hall LError). rewrite LOG_LEVELS_level in Hall.
      apply bool_decide_eq_false_1 in Hall.
      specialize (Hrange b eq_refl). simpl in Hall. lia.
    + split; [by intros _ H; apply H|].
      intros _ l. by rewrite LOG_LEVELS_level.
  - intros l [->| ->]; by destruct l.
Qed.
End LogThreshold.

(** ** Falling back from the event stream to polling *)

Section StreamFallback.
Import ProgressPanel Screen SseChannel.

(** Either the source is open, polling is off and fewer than three
    errors have been counted, or the error handler has closed the source
    and polling runs. *)
Definition settled_view (v : View) : Prop :=
  (source_closed v = false /\ fallbackPolling v = false
   /\ (sseErrorCount v < SSE_MAX_ERRORS)%nat)
  \/ (source_closed v = true /\ fallbackPolling v = true
      /\ sseConnected v = false).

Lemma deliver_settled sig v : settled_view v -> settled_view (deliver sig v).
Proof.
  intros [(Hc & Hf & Hn)|(Hc & Hf & Hs)]; unfold deliver; rewrite Hc.
  - destruct sig as [ev| |closed].
    + left. simpl. unfold SSE_MAX_ERRORS. repeat split; [done|done|lia].
    + left. done.
    + unfold on_error. destruct closed; simpl; [by right|].
      case_bool_decide; [by right|]. left. simpl. repeat split; try done. lia.
  - by right.
Qed.

Lemma deliver_all_settled sigs v :
  settled_view v -> settled_view (deliver_all sigs v).
Proof.
  revert v. induction sigs as [|sig sigs IH]; intros v Hv; [done|].
  apply IH. by apply deliver_settled.
Qed.

Lemma deliver_all_app l1 l2 v :
  deliver_all (l1 ++ l2) v = deliver_all l2 (deliver_all l1 v).
Proof. unfold deliver_all. by rewrite foldl_app. Qed.

Lemma deliver_all_closed sigs v :
  source_closed v = true -> deliver_all sigs v = v.
Proof.
  intros Hc. induction sigs as [|sig sigs IH]; [done|].
  change (deliver_all (sig :: sigs) v)
    with (deliver_all sigs (deliver sig v)).
  unfold deliver at 1. by rewrite Hc.
Qed.

Lemma deliver_all_panel sigs v :
  source_closed (deliver_all sigs v) = false ->
  panel (deliver_all sigs v) = handle_all (parsed sigs) (panel v).
Proof.
  revert v. induction sigs as [|sig sigs IH]; intros v Hopen; [done|].
  change (deliver_all (sig :: sigs) v)
    with (deliver_all sigs (deliver sig v)) in *.
  destruct (source_closed (deliver sig v)) eqn:Hc.
  { rewrite deliver_all_closed in Hopen by done. congruence. }
  rewrite (IH _ Hopen). unfold deliver in Hc |- *.
  destruct (source_closed v) eqn:Hv; [congruence|].
  destruct sig as [ev| |closed]; [done|done|].
  unfold on_error in *. by destruct (_ || _).
Qed.

(** X22. When the panel falls back from the event stream to polling.
    Polling runs exactly when the error handler has closed the source,
    and from then on no signal changes anything. While the source is
    open fewer than three errors are counted, and the panel is the
    initial one after the events of the messages that parsed, in order.
    An error that finds the source closed by the browser, or three
    errors in a row, start polling whatever came before; after a parsed
    message two further errors do not. *)
Theorem fallback_polling_starts_on_third_error (sigs : list Signal) :
  let v := deliver_all sigs initial_view in
  polling v = source_closed v
  /\ (source_closed v = false ->
        (sseErrorCount v < SSE_MAX_ERRORS)%nat
        /\ panel v = handle_all (parsed sigs) initial_panel)
  /\ (source_closed v = true ->
        forall more, deliver_all (sigs ++ more) initial_view = v)
  /\ polling (deliver_all (sigs ++ [Failure true]) initial_view) = true
  /\ (forall a b c,
        polling (deliver_all (sigs ++ [Failure a; Failure b; Failure c])
                   initial_view) = true)
  /\ (source_closed v = false ->
        forall ev,
          polling (deliver_all
                     (sigs ++ [Message ev; Failure false; Failure false])
                     initial_view) = false).
Proof.
  cbv zeta.
  assert (settled_view (deliver_all sigs initial_view)) as Hv.
  { apply deliver_all_settled. left. unfold SSE_MAX_ERRORS. simpl.
    repeat split; lia. }
  set (v := deliver_all sigs initial_view) in *.
  split; [|split; [|split; [|split; [|split]]]].
  - unfold polling.
    destruct Hv as [(Hc & Hf & _)|(Hc & Hf & Hs)]; by rewrite Hc, Hf, ?Hs.
  - intros Hopen. destruct Hv as [(_ & _ & Hn)|(Hc & _)]; [|congruence].
    split; [done|]. by apply deliver_all_panel.
  - intros Hc more. rewrite deliver_all_app. by apply deliver_all_closed.
  - rewrite deliver_all_app. fold v. clearbody v.
    destruct Hv as [(Hc & Hf & Hn)|(Hc & Hf & Hs)].
    + destruct v as [p n conn fb cl]. simpl in *. subst cl fb. reflexivity.
    + rewrite deliver_all_closed by done. unfold polling. by rewrite Hf, Hs.
  - intros a b c. rewrite deliver_all_app. fold v. clearbody v.
    destruct Hv as [(Hc & Hf & Hn)|(Hc & Hf & Hs)].
    + destruct v as [p n conn fb cl]. simpl in *. subst cl fb.
      unfold deliver_all, deliver, on_error, polling, SSE_MAX_ERRORS in *.
      simpl.
      destruct a; simpl; [done|].
      destruct (bool_decide (3 <= S n)%nat) eqn:H1; simpl; [done|].
      destruct b; simpl; [done|].
      destruct (bool_decide (3 <= S (S n))%nat) eqn:H2; simpl; [done|].
      destruct c; simpl; [done|].
      destruct (bool_decide (3 <= S (S (S n)))%nat) eqn:H3; simpl; [done|].
      apply bool_decide_eq_false_1 in H3. lia.
    + rewrite deliver_all_closed by done. unfold polling. by rewrite Hf, Hs.
  - intros Hopen ev. rewrite deliver_all_app. fold v. clearbody v.
    destruct Hv as [(Hc & Hf & Hn)|(Hc & _)]; [|congruence].
    destruct v as [p n conn fb cl]. simpl in *. subst cl fb. reflexivity.
Qed.
End StreamFallback.

(** ** The per-agent breakdown and the session totals *)

Section Breakdown.
Import Orchestrator Observe Ledger Binary64 Accounts Samples.

Section OneCounter.
Variable f : TokenUsage -> float.
Variable g : ApiUsage -> float.
Hypothesis f_add :
  forall acc u, f (addUsage acc (Some u)) = (f acc + g u)%float.
Hypothesis f_empty : f emptyTokenUsage = 0%float.

(** Every tracker, the lead and the session hold counts, and the lead
    and the trackers together stay within the session's counter. *)
Definition accounted (u : UsageTracking) : Prop :=
  Forall (fun kv => count (f (se_usage kv.2))) (subagentTokens u)
  /\ count (f (leadAgentTokens u))
  /\ count (f (sessionTokens u))
  /\ to_Z (f (leadAgentTokens u)) + tracked f (subagentTokens u)
     <= to_Z (f (sessionTokens u)).

Lemma tracked_omap_set k v (l : list (string * SubagentEntry)) :
  tracked f (omap_set k v l)
  = tracked f l + to_Z (f (se_usage v))
    - match omap_get k l with
      | Some old => to_Z (f (se_usage old))
      | None => 0
      end.
Proof.
  induction l as [|[k' v'] l IH]; cbn [omap_set omap_get tracked foldr].
  - simpl. lia.
  - case_decide as Hk.
    + cbn [tracked foldr snd]. fold (tracked f l). lia.
    + cbn [tracked foldr snd]. fold (tracked f l) (tracked f (omap_set k v l)).
      rewrite IH. lia.
Qed.

Lemma omap_set_Forall (P : string * SubagentEntry -> Prop) k v l :
  Forall P l -> (forall k', P (k', v)) -> Forall P (omap_set k v l).
Proof.
  intros Hl Hv. induction Hl as [|[k' v'] l Hkv Hl IH];
    cbn [omap_set]; [by constructor|].
  case_decide; constructor; done.
Qed.

Lemma omap_get_Forall (P : string * SubagentEntry -> Prop) k old l :
  Forall P l -> omap_get k l = Some old -> exists k', P (k', old).
Proof.
  intros Hl. induction Hl as [|[k' v'] l Hkv Hl IH]; cbn [omap_get]; [done|].
  case_decide; [|exact IH]. intros [= <-]. by exists k'.
Qed.

Lemma tracked_nonneg (l : list (string * SubagentEntry)) :
  Forall (fun kv => count (f (se_usage kv.2))) l -> 0 <= tracked f l.
Proof.
  induction 1 as [|kv l [_ Hkv] _ IH]; cbn [tracked foldr]; [done|].
  fold (tracked f l). lia.
Qed.

(** A tracker holds no more than all the trackers together. *)
Lemma tracked_entry_le k old (l : list (string * SubagentEntry)) :
  Forall (fun kv => count (f (se_usage kv.2))) l ->
  omap_get k l = Some old ->
  to_Z (f (se_usage old)) <= tracked f l.
Proof.
  induction 1 as [|[k' v'] l [_ Hkv] Hl IH];
    cbn [omap_get tracked foldr]; [done|].
  fold (tracked f l). pose proof (tracked_nonneg l Hl) as Hnn.
  case_decide.
  - intros [= <-]. simpl in *. lia.
  - intros Hold. specialize (IH Hold). simpl in *. lia.
Qed.

Lemma accumulate_usage_accounted parent u us :
  match u with
  | Some a =>
      count (g a) /\ to_Z (f (sessionTokens us)) + to_Z (g a) < 2 ^ 53
  | None => True
  end ->
  accounted us -> accounted (accumulate_usage parent u us).
Proof.
  intros Hu (Hall & Hlead & Hsess & Hle). unfold accumulate_usage.
  destruct u as [a|]; [|done]. destruct Hu as [Ha Hfit].
  pose proof (tracked_nonneg _ Hall) as Hnn.
  pose proof Hlead as [_ Hlr]. pose proof Ha as [_ Har].
  destruct (addUsage_count f g f_add (sessionTokens us) a Hsess Ha Hfit)
    as (_ & Hs' & Es').
  destruct parent as [p|].
  - destruct (truthy p).
    + destruct (omap_get p (subagentTokens us)) as [old|] eqn:Hold.
      * destruct (omap_get_Forall _ _ _ _ Hall Hold) as [k' Hk'].
        cbn [snd] in Hk'.
        pose proof (tracked_entry_le _ _ _ Hall Hold) as Hent.
        destruct (addUsage_count f g f_add (se_usage old) a Hk' Ha
                    ltac:(lia)) as (_ & Ho' & Eo').
        unfold accounted.
        cbn [subagentTokens leadAgentTokens sessionTokens].
        rewrite tracked_omap_set, Hold. cbn [se_usage]. rewrite Es', Eo'.
        split; [|split; [done|split; [done|lia]]].
        apply omap_set_Forall; [done|]. intros k''. by cbn [snd se_usage].
      * unfold accounted.
        cbn [subagentTokens leadAgentTokens sessionTokens].
        rewrite Es'. split; [done|]. split; [done|]. split; [done|lia].
    + unfold accounted. cbn [subagentTokens leadAgentTokens sessionTokens].
      rewrite Es'. split; [done|]. split; [done|]. split; [done|lia].
  - destruct (addUsage_count f g f_add (leadAgentTokens us) a Hlead Ha
                ltac:(lia)) as (_ & Hl' & El').
    unfold accounted. cbn [subagentTokens leadAgentTokens sessionTokens].
    rewrite Es', El'. split; [done|]. split; [done|]. split; [done|lia].
Qed.

Lemma f_empty_count : count (f emptyTokenUsage) /\ to_Z (f emptyTokenUsage) = 0.
Proof. rewrite f_empty. split; [apply count_zero|reflexivity]. Qed.

Lemma launch_task_accounted cfg t i input s :
  accounted (usages s) -> accounted (usages (launch_task cfg t i input s)).
Proof.
  intros (Hall & Hlead & Hsess & Hle). unfold launch_task. simpl.
  rewrite detect_phase_usages. unfold accounted.
  cbn [usages set_usages set_taskMap subagentTokens leadAgentTokens
       sessionTokens].
  destruct f_empty_count as [Hec Hez].
  rewrite tracked_omap_set. cbn [se_usage]. rewrite Hez.
  split; [|split; [done|split; [done|]]].
  - apply omap_set_Forall; [done|]. intros k'. by cbn [snd se_usage].
  - destruct (omap_get i (subagentTokens (usages s))) as [old|] eqn:Hold;
      [|lia].
    destruct (omap_get_Forall _ _ _ _ Hall Hold) as [k' [_ Hk']].
    cbn [snd] in Hk'. lia.
Qed.

Lemma process_block_accounted cfg t parent s b :
  accounted (usages s) -> accounted (usages (process_block cfg t parent s b)).
Proof.
  intros Hs. destruct b as [text|i name input|]; simpl; [| |done].
  - destruct (_ && _); [|done]. by rewrite lead_text_usages.
  - assert (accounted (usages (if decide (name = "Task")
                               then launch_task cfg t i input s else s)))
      as H1.
    { case_decide; [by apply launch_task_accounted|done]. }
    destruct parent as [p|]; [|done]. destruct (truthy p); [|done].
    by rewrite subagent_tool_use_usages.
Qed.

Lemma accounted_same us us' :
  sessionTokens us' = sessionTokens us ->
  leadAgentTokens us' = leadAgentTokens us ->
  subagentTokens us' = subagentTokens us ->
  accounted us -> accounted us'.
Proof. unfold accounted. by intros -> -> ->. Qed.

Lemma emitUsageIfDue_accounted t s :
  accounted (usages s) -> accounted (usages (emitUsageIfDue t s)).
Proof.
  apply accounted_same; try apply emitUsageIfDue_totals.
  apply emitUsageIfDue_trackers.
Qed.

Lemma process_user_block_accounted t s b :
  accounted (usages s) -> accounted (usages (process_user_block t s b)).
Proof.
  apply accounted_same; try apply process_user_block_totals.
  destruct b as [[i|]|]; simpl; try done.
  destruct (truthy i); simpl; [|done].
  destruct (taskMap s !! i) as [info|]; [|done].
  rewrite emitUsageIfDue_trackers. simpl. repeat case_decide; done.
Qed.

Lemma foldl_accounted {B : Type} (step : State -> B -> State) (l : list B) s :
  (forall s b, accounted (usages s) -> accounted (usages (step s b))) ->
  accounted (usages s) -> accounted (usages (foldl step s l)).
Proof.
  intros Hstep. revert s. induction l as [|b l IH]; intros s Hs; [done|].
  simpl. apply IH. by apply Hstep.
Qed.

Lemma process_message_accounted cfg t s m :
  counted_by g m ->
  to_Z (f (sessionTokens (usages s))) + message_count g m < 2 ^ 53 ->
  accounted (usages s) ->
  accounted (usages (process_message cfg t s m).1)
  /\ to_Z (f (sessionTokens (usages (process_message cfg t s m).1)))
     = to_Z (f (sessionTokens (usages s))) + message_count g m.
Proof.
  intros Hm Hfit Hs. split.
  - destruct m as [|parent u content|content| | |]; simpl; try done.
    + apply emitUsageIfDue_accounted.
      assert (accounted
                (usages (set_usages (accumulate_usage parent u (usages s)) s)))
        as H1.
      { simpl. apply accumulate_usage_accounted; [|done]. by destruct u. }
      destruct content as [blocks|]; [|done].
      apply foldl_accounted; [|done]. apply process_block_accounted.
    + destruct content as [blocks|]; [|done].
      apply foldl_accounted; [|done]. apply process_user_block_accounted.
  - destruct (process_message_totals cfg t s m) as [-> _].
    destruct Hs as (_ & _ & Hsess & _).
    destruct m as [|parent [u|] content| | | |];
      cbn [add_message_usage message_count counted_by] in *;
      try change (addUsage (sessionTokens (usages s)) None)
        with (sessionTokens (usages s));
      try lia.
    by destruct (addUsage_count f g f_add _ u Hsess Hm Hfit) as (_ & _ & ->).
Qed.

Lemma consume_accounted cfg stream s :
  Forall (counted_by g) (handled stream) ->
  to_Z (f (sessionTokens (usages s))) + total g (handled stream) < 2 ^ 53 ->
  accounted (usages s) -> accounted (usages (consume cfg s stream).1).
Proof.
  revert s. induction stream as [|[t [m|e]] rest IH]; intros s Hall Hfit Hs;
    cbn [consume handled]; try done.
  cbn [handled total foldr] in Hall, Hfit.
  apply Forall_cons in Hall as [Hm Hall].
  pose proof (process_message_failure cfg t s m) as Hf.
  assert (0 <= match m with
               | MResultFailure _ _ _ => 0
               | _ => total g (handled rest)
               end) as Hnn.
  { destruct m; try (apply total_nonneg; exact Hall); lia. }
  assert (total g match m with
                  | MResultFailure _ _ _ => []
                  | _ => handled rest
                  end
          = match m with
            | MResultFailure _ _ _ => 0
            | _ => total g (handled rest)
            end) as Etot by (by destruct m).
  fold (total g match m with
                | MResultFailure _ _ _ => []
                | _ => handled rest
                end) in Hfit.
  rewrite Etot in Hfit.
  destruct (process_message_accounted cfg t s m Hm ltac:(lia) Hs)
    as [Hacc Hz].
  destruct (process_message cfg t s m) as [s' oe]. cbn [fst] in *.
  destruct oe as [e|]; [done|].
  destruct m; simpl in Hf; try discriminate Hf;
    (apply IH; [exact Hall|lia|done]).
Qed.
End OneCounter.

Lemma breakdown_total_snapshot f us :
  breakdown_total f (usage_snapshot us) = tracked f (subagentTokens us).
Proof.
  unfold usage_snapshot.
  induction (subagentTokens us) as [|kv l IH]; simpl; [done|].
  by rewrite IH.
Qed.

(** X23. When every count of the usage objects the loop handles is a
    non-negative integer and each of the four sums stays below [2^53],
    the per-agent breakdown that [runReview] returns stays within the
    session totals it returns: for each of the four counters, the lead's
    count and the counts of all the subtasks add up to at most the
    session's count. *)
Theorem breakdown_within_session_totals
    (cfg : AgentConfig) (t0 : Z) (stream : list (Z * EngineStep)) (tend : Z)
    (r : OrchestratorResult) :
  Forall counted_message (handled stream) ->
  fits (handled stream) ->
  (runReview cfg t0 stream tend).2 = Returned r ->
  within_totals (usage r).
Proof.
  intros Hall (Hi & Ho & Hr & Hc) Hret.
  destruct (counted_message_by _ Hall) as (Ci & Co & Cr & Cc).
  assert (forall f g,
            (forall acc u, f (addUsage acc (Some u)) = (f acc + g u)%float) ->
            f emptyTokenUsage = 0%float ->
            Forall (counted_by g) (handled stream) ->
            total g (handled stream) < 2 ^ 53 ->
            accounted f (usages (consume cfg (start_state t0) stream).1))
    as Hacc.
  { intros f g Hadd Hempty Hcnt Hfit.
    destruct (f_empty_count f Hempty) as [Hec Hez].
    apply (consume_accounted f g Hadd Hempty); [done| |].
    - change (sessionTokens (usages (start_state t0))) with emptyTokenUsage.
      rewrite Hez. lia.
    - unfold accounted.
      change (subagentTokens (usages (start_state t0))) with
        (@nil (string * SubagentEntry)).
      change (leadAgentTokens (usages (start_state t0)))
        with emptyTokenUsage.
      change (sessionTokens (usages (start_state t0))) with emptyTokenUsage.
      rewrite Hez. simpl. repeat split; try done; try apply Hec; constructor. }
  unfold runReview in Hret.
  destruct (consume cfg (start_state t0) stream) as [s [[t e]|]];
    [discriminate Hret|].
  injection Hret as <-. unfold within_totals. simpl.
  rewrite !breakdown_total_snapshot.
  repeat split.
  - by apply (Hacc inputTokens api_input).
  - by apply (Hacc outputTokens api_output).
  - by apply (Hacc cacheReadTokens api_cache_read).
  - by apply (Hacc cacheCreationTokens api_cache_creation).
Qed.

Lemma breakdown_within_session_totals_witness :
  exists r,
    (runReview sample_cfg 0 usage_of_three 5000).2 = Returned r
    /\ within_totals (usage r).
Proof.
  match goal with
  | |- exists r, (runReview ?c ?a ?l ?b).2 = _ /\ _ =>
      destruct (runReview c a l b).2 as [r|e] eqn:Hr;
        [|vm_compute in Hr; discriminate Hr];
      exists r; split; [reflexivity|];
      apply (breakdown_within_session_totals c a l b r); [| |exact Hr]
  end.
  - repeat constructor; unfold count; simpl;
      try reflexivity; vm_compute; try discriminate; reflexivity.
  - unfold fits. vm_compute. repeat split; reflexivity.
Defined.
End Breakdown.

(** ** At most one delivery *)

Section AtMostOnce.
Import Routes Journal Scheduler Samples.

Lemma remove_first_sublist x l : remove_first x l `sublist_of` l.
Proof.
  induction l as [|y l IH]; simpl; [constructor|].
  case_decide; [by apply sublist_cons|by apply sublist_skip].
Qed.

Lemma elem_of_rev_list (x : nat) l : x ∈ rev l <-> x ∈ l.
Proof.
  induction l as [|y l IH]; simpl; [reflexivity|].
  rewrite elem_of_app, IH, list_elem_of_singleton, elem_of_cons. tauto.
Qed.

Lemma NoDup_rev_list (l : list nat) : NoDup l -> NoDup (rev l).
Proof.
  induction 1 as [|x l Hx Hl IH]; simpl; [constructor|].
  apply NoDup_app. split; [done|]. split; [|apply NoDup_singleton].
  intros y Hy Hy'. apply list_elem_of_singleton in Hy'. subst y.
  apply (proj1 (elem_of_rev_list _ _)) in Hy. exact (Hx Hy).
Qed.

Lemma remove_last_NoDup x l : NoDup l -> NoDup (remove_last x l).
Proof.
  intros Hl. unfold remove_last. apply NoDup_rev_list.
  eapply sublist_NoDup; [|apply remove_first_sublist].
  by apply NoDup_rev_list.
Qed.

Lemma remove_last_elem_of y x l : y ∈ remove_last x l -> y ∈ l.
Proof.
  unfold remove_last. rewrite elem_of_rev_list. intros Hy.
  apply (proj1 (elem_of_rev_list _ _)).
  eapply elem_of_sublist; [exact Hy|].
  apply remove_first_sublist.
Qed.

Lemma listeners_of_inserted em em' l ls srv :
  listeners srv = <[em := l]> ls ->
  listeners_of em' srv
  = if decide (em = em') then l else default [] (ls !! em').
Proof.
  intros H. unfold listeners_of. rewrite H. case_decide as He.
  - subst. by rewrite lookup_insert_eq.
  - by rewrite lookup_insert_ne.
Qed.

Lemma wired_same srv srv' : same_wiring srv srv' -> wired srv -> wired srv'.
Proof.
  intros (Hl & Hn & Hc) (H1 & H2 & H3 & H4).
  unfold wired, listeners_of in *. rewrite Hl, Hn.
  split; [done|]. split; [done|]. split.
  - intros cid c Hcid. specialize (Hc cid). rewrite Hcid in Hc.
    destruct (connections srv !! cid) as [c0|] eqn:H0; [|done]. eauto.
  - intros cid c em Hcid Hp. specialize (Hc cid). rewrite Hcid in Hc.
    destruct (connections srv !! cid) as [c0|] eqn:H0; [|done].
    simpl in Hc. injection Hc as Hc. apply (H4 cid c0 em H0). congruence.
Qed.

Lemma same_wiring_refl srv : same_wiring srv srv.
Proof. done. Qed.

Lemma same_wiring_trans s1 s2 s3 :
  same_wiring s1 s2 -> same_wiring s2 s3 -> same_wiring s1 s3.
Proof.
  intros (H1 & H2 & H3) (H1' & H2' & H3'). unfold same_wiring.
  rewrite H1', H2'. repeat split; try done. intros cid.
  by rewrite H3', H3.
Qed.

Lemma write_wiring x f srv : same_wiring srv (write x f srv).
Proof.
  destruct (write_registry x f srv) as (_ & Hl & _ & _ & Hn).
  repeat split; [done|done|]. intros cid. rewrite write_connections.
  by destruct (connections srv !! cid).
Qed.

Lemma emit_progress_wiring em ev srv : same_wiring srv (emit_progress em ev srv).
Proof.
  unfold emit_progress. generalize (listeners_of em srv). intros l.
  revert srv. induction l as [|x l IH]; intros srv; [apply same_wiring_refl|].
  simpl. eapply same_wiring_trans; [apply write_wiring|apply IH].
Qed.

Lemma publish_wiring em events srv :
  same_wiring srv (foldl (fun acc ev => emit_progress em ev acc) srv events).
Proof.
  revert srv. induction events as [|ev events IH]; intros srv;
    [apply same_wiring_refl|].
  simpl. eapply same_wiring_trans; [apply emit_progress_wiring|apply IH].
Qed.

Lemma set_disk_wiring d srv : same_wiring srv (set_disk d srv).
Proof. done. Qed.

Lemma record_failure_wiring t i e srv :
  same_wiring srv (record_failure t i e srv).
Proof.
  unfold record_failure. by destruct (Storage.updateReviewStatus _ _ _ _ _).
Qed.

Lemma review_process_wiring cfg env run srv :
  same_wiring srv (review_process cfg env run srv).
Proof.
  unfold review_process.
  destruct (Storage.updateReviewStatus (t_running env) _ _ _ _)
    as [d1|e]; [|apply record_failure_wiring].
  destruct (prd env) as [content|e];
    [|apply (record_failure_wiring _ _ _ (set_disk d1 srv))].
  destruct (Orchestrator.runReview cfg (t_start env) (engine env) (t_end env))
    as [events outcome].
  pose proof (publish_wiring (run_emitter run) events (set_disk d1 srv))
    as Hp.
  set (srv2 := foldl _ _ events) in *.
  assert (same_wiring srv srv2) as H2 by exact Hp.
  destruct outcome as [r|e].
  - destruct (Storage.saveReviewUsage _ _ _) as [d3|e].
    + destruct (Storage.updateReviewStatus (t_settled env) _ _ _ _)
        as [d4|e]; [exact H2|].
      eapply same_wiring_trans; [exact H2|].
      apply (record_failure_wiring _ _ _ (set_disk d3 srv2)).
    + eapply same_wiring_trans; [exact H2|].
      match goal with
      | |- same_wiring _ (record_failure ?a ?b ?c ?d) =>
          apply (record_failure_wiring a b c d)
      end.
  - eapply same_wiring_trans; [exact H2|apply record_failure_wiring].
Qed.

Lemma keepalive_tick_wiring cid srv : same_wiring srv (keepalive_tick cid srv).
Proof.
  unfold keepalive_tick. destruct (connections srv !! cid) as [c|]; [|done].
  destruct (keepalive c); [apply write_wiring|done].
Qed.

Lemma startReviewProcess_wired i fp paths srv :
  wired srv -> wired (startReviewProcess i fp paths srv).
Proof.
  intros (H1 & H2 & H3 & H4). unfold wired, startReviewProcess.
  assert (forall em,
            listeners_of em
              (mkServer (disk srv) (<[i := emitters_made srv]> (reviewEmitters srv))
                 (<[emitters_made srv := []]> (listeners srv))
                 (S (emitters_made srv))
                 (background srv
                  ++ [mkBackgroundRun i (emitters_made srv) fp paths])
                 (connections srv) (connections_made srv))
            = if decide (emitters_made srv = em) then []
              else listeners_of em srv) as Hl.
  { intros em. by apply listeners_of_inserted. }
  cbn [connections connections_made].
  split; [|split; [|split; [done|]]].
  - intros em. rewrite Hl. case_decide; [constructor|done].
  - intros em cid. rewrite Hl. case_decide; [by intros Hnil%elem_of_nil|eauto].
  - intros cid c em Hc Hp. rewrite Hl.
    case_decide; [by intros Hnil%elem_of_nil|eauto].
Qed.

Lemma emitter_cleanup_wired run srv :
  wired srv -> wired (emitter_cleanup run srv).
Proof.
  intros (H1 & H2 & H3 & H4). unfold wired, emitter_cleanup, removeAllListeners.
  assert (forall em,
            listeners_of em
              (set_listeners
                 (<[run_emitter run := []]>
                    (listeners
                       (mkServer (disk srv)
                          (delete (run_reviewId run) (reviewEmitters srv))
                          (listeners srv) (emitters_made srv)
                          (background srv) (connections srv)
                          (connections_made srv))))
                 (mkServer (disk srv)
                    (delete (run_reviewId run) (reviewEmitters srv))
                    (listeners srv) (emitters_made srv) (background srv)
                    (connections srv) (connections_made srv)))
            = if decide (run_emitter run = em) then []
              else listeners_of em srv) as Hl.
  { intros em. by apply listeners_of_inserted. }
  cbn [connections connections_made set_listeners].
  split; [|split; [|split; [done|]]].
  - intros em. rewrite Hl. case_decide; [constructor|done].
  - intros em cid. rewrite Hl. case_decide; [by intros Hnil%elem_of_nil|eauto].
  - intros cid c em Hc Hp. rewrite Hl.
    case_decide; [by intros Hnil%elem_of_nil|eauto].
Qed.

Lemma removeListener_wired em x srv :
  wired srv -> wired (removeListener em x srv).
Proof.
  intros (H1 & H2 & H3 & H4). unfold wired, removeListener.
  assert (forall em',
            listeners_of em'
              (set_listeners
                 (<[em := remove_last x (listeners_of em srv)]>
                    (listeners srv)) srv)
            = if decide (em = em') then remove_last x (listeners_of em srv)
              else listeners_of em' srv) as Hl.
  { intros em'. by apply listeners_of_inserted. }
  cbn [connections connections_made set_listeners].
  split; [|split; [|split; [done|]]].
  - intros em'. rewrite Hl. case_decide; [by apply remove_last_NoDup|done].
  - intros em' cid. rewrite Hl.
    case_decide; [intros Hin%remove_last_elem_of|]; eauto.
  - intros cid c em' Hc Hp. rewrite Hl.
    case_decide; [intros Hin%remove_last_elem_of|]; by eapply H4.
Qed.

Lemma on_close_wired cid srv : wired srv -> wired (on_close cid srv).
Proof.
  intros Hw. unfold on_close.
  destruct (connections srv !! cid) as [c|]; [|done].
  set (srv1 := match currentEmitter c with
               | Some em => removeListener em cid srv
               | None => srv
               end).
  assert (wired srv1) as Hw1.
  { unfold srv1. destruct (currentEmitter c);
      [by apply removeListener_wired|done]. }
  set (srv2 := match reviewEmitters srv1 !! conn_reviewId c with
               | Some later =>
                   if decide (Some later = currentEmitter c) then srv1
                   else removeListener later cid srv1
               | None => srv1
               end).
  assert (wired srv2) as (H1 & H2 & H3 & H4).
  { unfold srv2. destruct (reviewEmitters srv1 !! conn_reviewId c);
      [|done].
    case_decide; [done|by apply removeListener_wired]. }
  unfold wired, listeners_of in *. cbn [set_connections connections
    connections_made listeners].
  split; [done|]. split; [done|]. split.
  - intros cid' c' Hc'. apply lookup_delete_Some in Hc' as [_ Hc']. eauto.
  - intros cid' c' em Hc' Hp. apply lookup_delete_Some in Hc' as [_ Hc'].
    eauto.
Qed.

Lemma poll_tick_wired cid srv : wired srv -> wired (poll_tick cid srv).
Proof.
  intros Hw. unfold poll_tick.
  destruct (connections srv !! cid) as [c|] eqn:Hc; [|done].
  destruct (pollInterval c) eqn:Hp; [|done].
  destruct (reviewEmitters srv !! conn_reviewId c) as [em|]; [|done].
  destruct Hw as (H1 & H2 & H3 & H4).
  assert (forall em',
            listeners_of em' (on_progress em cid srv)
            = if decide (em = em') then listeners_of em srv ++ [cid]
              else listeners_of em' srv) as Hl.
  { intros em'. by apply listeners_of_inserted. }
  unfold wired.
  assert (forall em' (srv' : Server) m,
            listeners_of em' (set_connections m srv') = listeners_of em' srv')
    as Hsc by done.
  cbn [set_connections connections connections_made on_progress
       set_listeners].
  split; [|split; [|split]].
  - intros em'. rewrite Hsc, Hl. case_decide; [|done].
    apply NoDup_app. split; [done|]. split; [|apply NoDup_singleton].
    intros y Hy Hy'. apply list_elem_of_singleton in Hy'. subst y.
    by apply (H4 cid c em Hc Hp).
  - intros em' y. rewrite Hsc, Hl. case_decide; [|eauto].
    intros [Hy|Hy]%elem_of_app; [eauto|].
    apply list_elem_of_singleton in Hy. subst y. eauto.
  - intros y c'. destruct (decide (y = cid)) as [->|Hne].
    + intros _. eauto.
    + rewrite lookup_insert_ne by done. eauto.
  - intros y c' em'. destruct (decide (y = cid)) as [->|Hne].
    + rewrite lookup_insert_eq. intros [= <-]. simpl. done.
    + rewrite lookup_insert_ne by done. intros Hy Hpy.
      rewrite Hsc, Hl. case_decide; [|by eapply H4].
      intros [Hin|Hin]%elem_of_app; [by eapply H4|].
      apply list_elem_of_singleton in Hin. done.
Qed.

Lemma stream_route_wired t i srv : wired srv -> wired (stream_route t i srv).2.
Proof.
  intros Hw. unfold stream_route.
  destruct (Storage.getReviewMeta i (disk srv)) as [meta|]; [|done].
  destruct (_ || _); [done|].
  cbn [snd]. destruct Hw as (H1 & H2 & H3 & H4).
  set (cid := connections_made srv).
  destruct (reviewEmitters srv !! i) as [em|].
  - assert (forall em',
              listeners_of em' (on_progress em cid srv)
              = if decide (em = em') then listeners_of em srv ++ [cid]
                else listeners_of em' srv) as Hl.
    { intros em'. by apply listeners_of_inserted. }
    assert (cid ∉ listeners_of em srv) as Hnew.
    { intros Hin. apply H2 in Hin. unfold cid in Hin. lia. }
    unfold wired, listeners_of in *.
    cbn [connections connections_made listeners on_progress set_listeners]
      in *.
    split; [|split; [|split]].
    + intros em'. rewrite Hl. case_decide; [|done].
      apply NoDup_app. split; [done|]. split; [|apply NoDup_singleton].
      intros y Hy Hy'. apply list_elem_of_singleton in Hy'. by subst y.
    + intros em' y. rewrite Hl. case_decide.
      * intros [Hy|Hy]%elem_of_app; [apply H2 in Hy; lia|].
        apply list_elem_of_singleton in Hy. subst y. unfold cid. lia.
      * intros Hy. apply H2 in Hy. lia.
    + intros y c'. destruct (decide (y = cid)) as [->|Hne].
      * intros _. unfold cid. lia.
      * rewrite lookup_insert_ne by done. intros Hy. apply H3 in Hy. lia.
    + intros y c' em'. destruct (decide (y = cid)) as [->|Hne].
      * rewrite lookup_insert_eq. intros [= <-]. simpl. done.
      * rewrite lookup_insert_ne by done. intros Hy Hpy.
        rewrite Hl. case_decide; [|by eapply H4].
        intros [Hin|Hin]%elem_of_app; [by eapply H4|].
        apply list_elem_of_singleton in Hin. done.
  - unfold wired, listeners_of in *.
    cbn [connections connections_made listeners].
    split; [done|]. split; [|split].
    + intros em' y Hy. apply H2 in Hy. lia.
    + intros y c'. destruct (decide (y = cid)) as [->|Hne].
      * intros _. unfold cid. lia.
      * rewrite lookup_insert_ne by done. intros Hy. apply H3 in Hy. lia.
    + intros y c' em'. destruct (decide (y = cid)) as [->|Hne].
      * intros _ _ Hin. apply H2 in Hin. unfold cid in Hin. lia.
      * rewrite lookup_insert_ne by done. eauto.
Qed.

Lemma rerun_route_wired t i srv : wired srv -> wired (rerun_route t i srv).2.
Proof.
  intros Hw. unfold rerun_route.
  destruct (Storage.getReviewMeta i (disk srv)) as [meta|]; [|done].
  case_decide; [done|].
  destruct (Storage.updateReviewStatus _ _ _ _ _) as [d|e]; [|done].
  cbn [snd]. apply startReviewProcess_wired.
  by apply (wired_same srv (set_disk d srv)).
Qed.

Lemma apply_op_wired op srv : wired srv -> wired (apply_op op srv).
Proof.
  intros Hw. destruct op; simpl.
  - by apply stream_route_wired.
  - by apply poll_tick_wired.
  - eapply wired_same; [apply keepalive_tick_wiring|done].
  - by apply on_close_wired.
  - by apply startReviewProcess_wired.
  - by apply rerun_route_wired.
  - eapply wired_same; [apply emit_progress_wiring|done].
  - eapply wired_same; [apply review_process_wiring|done].
  - by apply emitter_cleanup_wired.
Qed.

Lemma run_ops_wired ops srv : wired srv -> wired (run_ops ops srv).
Proof.
  revert srv. induction ops as [|op ops IH]; intros srv Hw; [done|].
  simpl. apply IH. by apply apply_op_wired.
Qed.

(** X24. However the handlers and timers of the routes module
    interleave after the process has started, no emitter holds the
    listener of a connection twice; so an event emitted on any emitter
    is written at most once to each open stream, after what the stream
    had received. *)
Theorem event_delivered_at_most_once
    (d : Storage.Disk) (ops : list Op) (em cid : nat) (ev : ProgressEvent) :
  let srv := run_ops ops (fresh_server d) in
  (attachments cid em srv <= 1)%nat
  /\ match connections srv !! cid with
     | Some c =>
         exists c',
           connections (emit_progress em ev srv) !! cid = Some c'
           /\ (written c' = written c \/ written c' = written c ++ [FData ev])
     | None => connections (emit_progress em ev srv) !! cid = None
     end.
Proof.
  cbv zeta.
  assert (wired (run_ops ops (fresh_server d))) as (H1 & _).
  { apply run_ops_wired. unfold wired, listeners_of. simpl.
    repeat split.
    - intros em'. rewrite lookup_empty. constructor.
    - intros em' y. rewrite lookup_empty. by intros Hnil%elem_of_nil.
    - intros y c. by rewrite lookup_empty.
    - intros y c em'. by rewrite lookup_empty. }
  set (srv := run_ops ops (fresh_server d)) in *.
  assert (attachments cid em srv <= 1)%nat as Hle.
  { unfold attachments. specialize (H1 em).
    apply NoDup_ListNoDup in H1.
    by apply (proj1 (NoDup_count_occ Nat.eq_dec _) H1). }
  split; [exact Hle|].
  unfold emit_progress. rewrite fan_out_connections.
  fold (attachments cid em srv).
  destruct (connections srv !! cid) as [c|]; [|done].
  eexists. split; [reflexivity|]. simpl.
  destruct (attachments cid em srv) as [|[|n]]; simpl; [|by right|lia].
  left. by rewrite app_nil_r.
Qed.
End AtMostOnce.
